(** * Association rule mining with FP-Growth (package [arm])

    A shallow embedding of the mining engine of the repository:

    - [arm.go]: the two passes over the transactions file, the writers of
      the itemsets and rules files, and the entry point
      [MineAssociationRules];
    - the arguments file: [Arguments] and [Arguments.Validate];
    - the stand-alone program ([package main]): the master/worker
      scheduler [master], [worker], [parallelFpGrowth] and
      [frequentItemsInTree], and its writers of the two files.

    The FP-tree, the item counter, the interner, the sequential miner
    [fpGrowth] and the rule generator are used by these files but are
    defined elsewhere; they are modelled from the specification document,
    each under a comment that starts with "Modelled from the spec".

    Go's [int] is read as [Z]: every counter of the program is bounded by
    the number of tokens of the input file, far below 2^63.  [float64] is
    IEEE binary64, through the formalisation of the standard library
    ([spec_float] at precision 53 and exponent bound 1024).  Logging
    ([log.Println], [log.Printf]) and timing are not modelled. *)

From Stdlib Require Import ZArith Lia Ascii String Floats.SpecFloat.
From stdpp Require Import base option list gmap strings relations sorting.

Local Open Scope Z_scope.

(** ** Go primitives *)

(** [type Item int] *)
Definition Item := Z.

(** *** float64 *)

Definition float64 := spec_float.

Definition f64_prec : Z := 53.
Definition f64_emax : Z := 1024.

(** [x < y], [x == y], [x <= y] on float64: false as soon as an operand is
    NaN. *)
Definition f64_lt (x y : float64) : bool := SFltb x y.
Definition f64_eq (x y : float64) : bool := SFeqb x y.
Definition f64_le (x y : float64) : bool := SFleb x y.

(** [x * y] and [x / y], rounded to nearest even. *)
Definition f64_mul (x y : float64) : float64 := SFmul f64_prec f64_emax x y.
Definition f64_div (x y : float64) : float64 := SFdiv f64_prec f64_emax x y.

(** The conversion [float64(n)] of an integer. *)
Definition f64_of_int (n : Z) : float64 :=
  binary_normalize f64_prec f64_emax n 0 false.

(** The literals [0.0] and [1.0]. *)
Definition f64_zero : float64 := S754_zero false.
Definition f64_one : float64 := S754_finite false 4503599627370496 (-52).

(** The integer [(-1)^s * m], the signed mantissa of a finite float. *)
Definition signed_mantissa (s : bool) (m : positive) : Z :=
  if s then Z.neg m else Z.pos m.

(** [math.Ceil]: the least integral float not below [x]; zeros, infinities
    and NaN are returned unchanged; a negative fraction above [-1] gives
    [-0]. *)
Definition math_Ceil (x : float64) : float64 :=
  match x with
  | S754_finite s m e =>
      if 0 <=? e then x
      else
        let c := - ((- signed_mantissa s m) / 2 ^ (- e)) in
        if c =? 0 then S754_zero s else f64_of_int c
  | _ => x
  end.

(** The conversion [int(x)]: truncation towards zero.  Go leaves the result
    implementation-dependent when [x] is NaN, infinite or outside the range
    of [int]; the amd64 instruction returns [-2^63] there. *)
Definition int_of_f64 (x : float64) : Z :=
  match x with
  | S754_zero _ => 0
  | S754_finite s m e =>
      let t := if 0 <=? e then Z.pos m * 2 ^ e else Z.pos m / 2 ^ (- e) in
      let v := if s then - t else t in
      if (- 2 ^ 63 <=? v) && (v <? 2 ^ 63) then v else - 2 ^ 63
  | _ => - 2 ^ 63
  end.

(** The builtin [max] on [int]. *)
Definition max (a b : Z) : Z := if a <? b then b else a.

(** *** strings.Split with a one-character separator *)

(** The first field of [s] and the fields after it. *)
Fixpoint Split_fields (s : string) (sep : ascii) : string * list string :=
  match s with
  | EmptyString => (EmptyString, [])
  | String c s' =>
      let '(field, fields) := Split_fields s' sep in
      if Ascii.eqb c sep then (EmptyString, field :: fields)
      else (String c field, fields)
  end.

Definition strings_Split (s : string) (sep : ascii) : list string :=
  let '(field, fields) := Split_fields s sep in field :: fields.

Definition comma : ascii := ","%char.

(** *** sort.SliceStable *)

(** [sort.SliceStable] with the comparison [less].  The library sorts by
    insertion on short blocks and merges them in place; for a [less] that is
    a strict weak order every stable sort returns the same slice, given here
    by insertion from the right: an element is placed before the first
    element that is not strictly less than it. *)
Fixpoint stable_insert {A} (less : A -> A -> bool) (x : A) (l : list A) : list A :=
  match l with
  | [] => [x]
  | y :: l' => if less y x then y :: stable_insert less x l' else x :: y :: l'
  end.

Fixpoint sort_SliceStable {A} (less : A -> A -> bool) (l : list A) : list A :=
  match l with
  | [] => []
  | x :: l' => stable_insert less x (sort_SliceStable less l')
  end.

(** ** Errors *)

(** The error values of the package: the three validation errors declared
    with [errors.New], and the errors of the operating system, tagged by
    the call that failed and the path it was given. *)
Inductive error :=
| ErrMinSupportOutOfRange
| ErrMinConfidenceOutOfRange
| ErrMinLiftOutOfRange
| ErrOpen (path : string)
| ErrRead (path : string)
| ErrCreate (path : string)
| ErrWrite (path : string).

(** ** Arguments *)

Record Arguments := {
  Input : string;
  Output : string;
  MinSupport : float64;
  MinConfidence : float64;
  MinLift : float64;
  ItemsetsPath : string
}.

(** [func (args Arguments) Validate() error]; [None] is [nil]. *)
Definition Validate (args : Arguments) : option error :=
  if f64_lt (MinSupport args) f64_zero || f64_lt f64_one (MinSupport args) then
    Some ErrMinSupportOutOfRange
  else if f64_lt (MinConfidence args) f64_zero || f64_lt f64_one (MinConfidence args) then
    Some ErrMinConfidenceOutOfRange
  else if negb (f64_eq (MinLift args) f64_zero) && f64_lt (MinLift args) f64_one then
    Some ErrMinLiftOutOfRange
  else None.

(** ** Item counter *)

(** Modelled from the spec: the item counter ([itemCount], with
    [makeCounts], [increment] and [get]) is not part of the sources.
    Data model: "ItemCount: mapping from Item to non-negative integer.
    Operation get(item) returns 0 for unknown items." *)
Abbreviation itemCount := (gmap Item Z).

Definition makeCounts : itemCount := ∅.

Definition itemCount_get (c : itemCount) (i : Item) : Z := default 0 (c !! i).

Definition itemCount_increment (c : itemCount) (i : Item) (n : Z) : itemCount :=
  <[i := itemCount_get c i + n]> c.

(** ** Interner *)

(** Modelled from the spec: the interner [Itemizer] is not part of the
    sources.  "Dense integer ids" are "assigned by the interner in the order
    items are first encountered"; [intern] is "idempotent; assigns a fresh id
    on first sight"; [toStr] maps an id back to its token.  "Empty lines
    yield empty transactions and are counted as transactions but contribute
    no items": an empty token is no item. *)
Record Itemizer := {
  strToItem : gmap string Item;
  itemToStr : gmap Item string;
  numItems : Z
}.

Definition newItemizer : Itemizer :=
  {| strToItem := ∅; itemToStr := ∅; numItems := 0 |}.

Definition intern (it : Itemizer) (token : string) : Itemizer * Item :=
  match strToItem it !! token with
  | Some i => (it, i)
  | None =>
      let i := numItems it in
      ({| strToItem := <[token := i]> (strToItem it);
          itemToStr := <[i := token]> (itemToStr it);
          numItems := i + 1 |}, i)
  end.

Definition Itemizer_toStr (it : Itemizer) (i : Item) : string :=
  default EmptyString (itemToStr it !! i).

(** [itemizer.forEachItem(tokens, fn)]: interns every token and calls [fn]
    on its id; the effect of [fn] on the variables it captures is the state
    [S] threaded through the calls. *)
Definition Itemizer_forEachItem {S} (it : Itemizer) (tokens : list string)
    (fn : Item -> S -> S) (s : S) : Itemizer * S :=
  fold_left
    (fun '(it, s) token =>
       if String.eqb token EmptyString then (it, s)
       else let '(it', i) := intern it token in (it', fn i s))
    tokens (it, s).

(** [itemizer.filter(tokens, pred)]: "translate tokens to Items and drop
    any" rejected by [pred]; the ids are frozen after the first pass, so a
    token without an id is no item. *)
Definition Itemizer_filter (it : Itemizer) (tokens : list string)
    (pred : Item -> bool) : list Item :=
  omap (fun token =>
          match strToItem it !! token with
          | Some i => if pred i then Some i else None
          | None => None
          end) tokens.

(** ** FP-tree *)

(** Modelled from the spec: the FP-tree ([fpNode], [fpTree], [newTree],
    [Insert], [makeConditionalTree]) is not part of the sources.

    A node has an item (none at the root), a count and a mapping from
    Item to child.  The two reference fields of the spec's node are
    positions in this value: a node is referred to by its address, the
    items on the way from the root to it, so its [parent] is the address
    without its last item, and the header chain of an item (the list linked
    through [nextInHeader], newest node first) is the list of the addresses
    of the nodes that carry the item. *)
#[warnings="-register-all"]
Inductive fpNode := FPNode {
  n_item : option Item;
  n_count : Z;
  n_children : gmap Item fpNode
}.

Record fpTree := {
  root : fpNode;
  itemList : gmap Item (list (list Item));
  counts : itemCount
}.

Definition newNode (i : option Item) : fpNode := FPNode i 0 ∅.

Definition newTree : fpTree :=
  {| root := newNode None; itemList := ∅; counts := makeCounts |}.

(** The node at an address, if there is one. *)
Fixpoint nodeAt (n : fpNode) (addr : list Item) : option fpNode :=
  match addr with
  | [] => Some n
  | i :: addr' =>
      match n_children n !! i with
      | Some c => nodeAt c addr'
      | None => None
      end
  end.

(** The node at [addr] replaced by its image under [f]: an assignment
    through the reference [addr]. *)
Fixpoint alterNode (f : fpNode -> fpNode) (addr : list Item) (n : fpNode) : fpNode :=
  match addr with
  | [] => f n
  | i :: addr' =>
      FPNode (n_item n) (n_count n) (alter (alterNode f addr') i (n_children n))
  end.

Definition addCount (w : Z) (n : fpNode) : fpNode :=
  FPNode (n_item n) (n_count n + w) (n_children n).

Definition addChild (i : Item) (n : fpNode) : fpNode :=
  FPNode (n_item n) (n_count n) (<[i := newNode (Some i)]> (n_children n)).

(** The header chain of an item: empty when the item is not in the table. *)
Definition headerChain (t : fpTree) (i : Item) : list (list Item) :=
  default [] (itemList t !! i).

(** One round of the loop of [Insert], at the node [cur]: "look it up in
    the current node's children; [...] if absent, create a new child, link
    its nextInHeader to the previous head of itemList[item] and make it the
    new head"; the weight is added to the child's count and to the tree's
    [counts[item]], so that [counts] stays "the sum of count over all nodes
    with that item"; "descend into the child and continue". *)
Definition Insert_step (w : Z) (st : fpTree * list Item) (i : Item) : fpTree * list Item :=
  let '(t, cur) := st in
  let child := cur ++ [i] in
  let t1 :=
    match nodeAt (root t) child with
    | Some _ => t
    | None =>
        {| root := alterNode (addChild i) cur (root t);
           itemList := <[i := child :: headerChain t i]> (itemList t);
           counts := counts t |}
    end in
  ({| root := alterNode (addCount w) child (root t1);
      itemList := itemList t1;
      counts := itemCount_increment (counts t1) i w |}, child).

(** [tree.Insert(transaction, count)]: the root "accumulates total
    weight", then the path is walked from the root. *)
Definition fpTree_Insert (t : fpTree) (transaction : list Item) (w : Z) : fpTree :=
  let t0 := {| root := addCount w (root t); itemList := itemList t; counts := counts t |} in
  fst (fold_left (Insert_step w) transaction (t0, [])).

(** The count of the node at an address. *)
Definition nodeCount (t : fpTree) (addr : list Item) : Z :=
  from_option n_count 0 (nodeAt (root t) addr).

(** [makeConditionalTree(tree, head)], [head] being the header chain of the
    item to condition on: "for each node n in itemList[i], walk ancestors up
    to but not including the root, producing the path P and the weight
    w = n.count.  Insert each such weighted path into a fresh empty tree",
    each path being "the list of ancestor items, top-down". *)
Definition makeConditionalTree (tree : fpTree) (head : list (list Item)) : fpTree :=
  fold_left (fun ct addr => fpTree_Insert ct (removelast addr) (nodeCount tree addr))
    head newTree.

(** ** Frequent items of a tree (the stand-alone program) *)

(** [frequentItemsInTree]: the keys of [tree.itemList] whose count exceeds
    [minCount].  Go ranges over a map in an unspecified order; this is the
    slice for one order, and the program may build any permutation of it. *)
Definition frequentItemsInTree (tree : fpTree) (minCount : Z) : list Item :=
  filter (fun i => minCount < itemCount_get (counts tree) i)
    (map fst (map_to_list (itemList tree))).

(** ** Itemsets *)

Record itemsetWithCount := {
  itemset : list Item;
  count : Z
}.

Section arm.

(** The comparator [cmp] that the interner exposes: "a strict total order",
    "the lexicographic tiebreaker used throughout".  Its definition is not
    part of the sources, and neither the sources nor the spec fix it (by id,
    or by token): the development is parametric in it. *)
Variable cmp : Item -> Item -> bool.

Definition Itemizer_cmp (it : Itemizer) (a b : Item) : bool := cmp a b.

(** Modelled from the spec: [appendSorted] is not part of the sources.  It
    "produces a new sequence equal to prefix ⊕ item re-sorted by cmp", the
    prefix being kept "insertion-sorted by the interner's cmp". *)
Fixpoint appendSorted (prefix : list Item) (i : Item) : list Item :=
  match prefix with
  | [] => [i]
  | j :: prefix' => if cmp i j then i :: j :: prefix' else j :: appendSorted prefix' i
  end.

(** ** Sequential FP-Growth *)

(** The length of the longest address in the header table: no node that
    the table refers to lies deeper. *)
Definition treeHeight (t : fpTree) : nat :=
  max_list (map length (concat (map snd (map_to_list (itemList t))))).

(** Modelled from the spec: the sequential miner [fpGrowth] is not part of
    the sources.  "mine(tree, prefix) emits (prefix ∪ {i}, support(i, tree))
    for each item i frequent in tree, then recurses on the conditional tree
    of i", an item being frequent in the tree when "tree.counts[i] >
    minCount", and the emitted support being the "sum of n.count over all n
    in itemList[i]".  The recursion is on the depth of the tree, which the
    fuel bounds. *)
Definition mineItem (rec : fpTree -> list Item -> list itemsetWithCount)
    (tree : fpTree) (prefix : list Item) (i : Item) : list itemsetWithCount :=
  let head := headerChain tree i in
  let prefix' := appendSorted prefix i in
  {| itemset := prefix'; count := foldr Z.add 0 (map (nodeCount tree) head) |}
    :: rec (makeConditionalTree tree head) prefix'.

Fixpoint fpGrowth_fuel (fuel : nat) (minCount : Z) (tree : fpTree) (prefix : list Item)
    : list itemsetWithCount :=
  match fuel with
  | O => []
  | S fuel' =>
      flat_map (mineItem (fpGrowth_fuel fuel' minCount) tree prefix)
        (frequentItemsInTree tree minCount)
  end.

Definition fpGrowth (tree : fpTree) (prefix : list Item) (minCount : Z)
    : list itemsetWithCount :=
  fpGrowth_fuel (S (treeHeight tree)) minCount tree prefix.

(** ** Rules *)

Record Rule := {
  Antecedent : list Item;
  Consequent : list Item;
  Support : float64;
  Confidence : float64;
  Lift : float64
}.

(** Modelled from the spec: the rule generator [generateRules] is not part
    of the sources.  "Index itemsets by their item-set (set equality) so
    that support(S) lookups are O(1) for any S in the frequent
    collection." *)
Definition supportIndex (itemsets : list itemsetWithCount) : gmap (gset Item) Z :=
  list_to_map (map (fun iwc => (list_to_set (itemset iwc), count iwc)) itemsets).

(** The support the collection records for the item-set of [S]. *)
Definition support_of (itemsets : list itemsetWithCount) (S : list Item) : option Z :=
  supportIndex itemsets !! (list_to_set S : gset Item).

(** The subsequences of a list: with the items of an itemset, its subsets. *)
Fixpoint subsequences {A} (l : list A) : list (list A) :=
  match l with
  | [] => [[]]
  | x :: l' => map (cons x) (subsequences l') ++ subsequences l'
  end.

Definition is_nil {A} (l : list A) : bool :=
  match l with [] => true | _ => false end.

(** The rule A => C of the itemset I, if it passes the thresholds: "let
    C = I \ A.  confidence = support(I) / support(A).  If confidence <
    minConfidence, skip.  lift = confidence / (support(C) / N) [...].  If
    minLift > 0 and lift < minLift, skip.  Emit Rule{antecedent=A,
    consequent=C, support=support(I)/N, confidence, lift}."  The spec
    defines support(S) for the sets of the collection only: a subset that
    the index does not hold gives no rule. *)
Definition ruleOf (itemsets : list itemsetWithCount) (numTransactions : Z)
    (minConfidence minLift : float64) (I A : list Item) : option Rule :=
  let C := list_difference I A in
  if is_nil A || is_nil C then None
  else
    match support_of itemsets I, support_of itemsets A, support_of itemsets C with
    | Some sI, Some sA, Some sC =>
        let n := f64_of_int numTransactions in
        let confidence := f64_div (f64_of_int sI) (f64_of_int sA) in
        if f64_lt confidence minConfidence then None
        else
          let lift := f64_div confidence (f64_div (f64_of_int sC) n) in
          if f64_lt f64_zero minLift && f64_lt lift minLift then None
          else Some {| Antecedent := A; Consequent := C;
                       Support := f64_div (f64_of_int sI) n;
                       Confidence := confidence; Lift := lift |}
    | _, _, _ => None
    end.

(** The rules of one itemset: "for each itemset I with |I| >= 2: for each
    non-empty proper subset A of I". *)
Definition rulesOfItemset (itemsets : list itemsetWithCount) (numTransactions : Z)
    (minConfidence minLift : float64) (iwc : itemsetWithCount) : list Rule :=
  let I := remove_dups (itemset iwc) in
  if (length I <? 2)%nat then []
  else omap (ruleOf itemsets numTransactions minConfidence minLift I) (subsequences I).

(** [generateRules]: the rules come in chunks ([[][]Rule]), one chunk per
    itemset ("implementations are encouraged to shard by itemset"). *)
Definition generateRules (itemsets : list itemsetWithCount) (numTransactions : Z)
    (minConfidence minLift : float64) : list (list Rule) :=
  map (rulesOfItemset itemsets numTransactions minConfidence minLift) itemsets.

(** ** Files *)

(** What the program writes, one piece per call of [fmt.Fprint*]: a text,
    or a float64 under the verb [%f]. *)
Inductive chunk :=
| Text (s : string)
| Float (x : float64).

(** The calls of the operating system that the program makes, in order;
    a write is recorded when it succeeds. *)
Inductive io_event :=
| EvOpen (path : string)
| EvCreate (path : string)
| EvWrite (path : string) (c : chunk).

(** A file as [bufio.Scanner] reads it: the lines it yields, then the end
    of the file or the error that [scanner.Err] reports. *)
Record file := {
  f_lines : list string;
  f_err : option error
}.

(** The machine: the files that [os.Open] can open; the paths that
    [os.Create] can create, each with the number of writes the device
    accepts before it fails ([None]: no limit); the calls made so far. *)
Record world := {
  files : gmap string file;
  devices : gmap string (option nat);
  trace : list io_event
}.

Inductive result (A : Type) :=
| Ok (a : A)
| Err (e : error).
#[global] Arguments Ok {A} a.
#[global] Arguments Err {A} e.

(** A computation with file I/O that returns a value or an error. *)
Definition IO (A : Type) : Type := world -> result A * world.

#[local] Instance IO_ret : MRet IO := fun A a w => (Ok a, w).

#[local] Instance IO_bind : MBind IO := fun A B k m w =>
  match m w with
  | (Ok a, w') => k a w'
  | (Err e, w') => (Err e, w')
  end.

(** [return err] *)
Definition fail {A} (e : error) : IO A := fun w => (Err e, w).

Definition record (ev : io_event) (w : world) : world :=
  {| files := files w; devices := devices w; trace := trace w ++ [ev] |}.

Definition os_Open (path : string) : IO file := fun w =>
  let w' := record (EvOpen path) w in
  match files w !! path with
  | Some f => (Ok f, w')
  | None => (Err (ErrOpen path), w')
  end.

(** [os.Create]: the file is created, or truncated; the returned handle is
    the path. *)
Definition os_Create (path : string) : IO string := fun w =>
  let w' := record (EvCreate path) w in
  match devices w !! path with
  | Some _ => (Ok path, w')
  | None => (Err (ErrCreate path), w')
  end.

(** The chunks written to [path] since it was last created. *)
Fixpoint contents (path : string) (tr : list io_event) (acc : list chunk) : list chunk :=
  match tr with
  | [] => acc
  | EvCreate p :: tr' => contents path tr' (if String.eqb p path then [] else acc)
  | EvWrite p c :: tr' => contents path tr' (if String.eqb p path then acc ++ [c] else acc)
  | EvOpen _ :: tr' => contents path tr' acc
  end.

(** [fmt.Fprint*(w, ...)] on the [bufio.Writer] of the file [path].  The
    write goes through to the device: the buffer of [bufio] only postpones
    the error of a failing write to a later call on the same writer, and
    every such call is followed by [return err]. *)
Definition Fprint (path : string) (c : chunk) : IO unit := fun w =>
  let fits :=
    match devices w !! path with
    | Some None => true
    | Some (Some room) => bool_decide (length (contents path (trace w) []) < room)%nat
    | None => false
    end in
  if fits then (Ok (), record (EvWrite path c) w) else (Err (ErrWrite path), w).

(** [w.Flush()]: nothing is left in the buffer. *)
Definition Flush (path : string) : IO unit := mret ().

(** A call whose returned error is dropped by the caller. *)
Definition discard_error {A} (m : IO A) : IO unit := fun w => (Ok (), snd (m w)).

(** [for _, x := range l { if err := body(x); err != nil { return err } }] *)
Fixpoint forEach {A} (l : list A) (body : A -> IO unit) : IO unit :=
  match l with
  | [] => mret ()
  | x :: l' => body x ≫= fun _ => forEach l' body
  end.

Definition newline : string := String (ascii_of_nat 10) EmptyString.

(** The items of an itemset, separated by one space: the loop with the
    variable [first]. *)
Fixpoint writeItems (path : string) (itemizer : Itemizer) (first : bool)
    (items : list Item) : IO unit :=
  match items with
  | [] => mret ()
  | item :: items' =>
      (if first then mret () else Fprint path (Text " ")) ≫= fun _ =>
      Fprint path (Text (Itemizer_toStr itemizer item)) ≫= fun _ =>
      writeItems path itemizer false items'
  end.

Definition writeItemsets (itemsets : list itemsetWithCount) (outputPath : string)
    (itemizer : Itemizer) (numTransactions : Z) : IO unit :=
  output ← os_Create outputPath;
  Fprint output (Text ("Itemset,Support" ++ newline)) ≫= fun _ =>
  let n := f64_of_int numTransactions in
  forEach itemsets (fun iwc =>
    writeItems output itemizer true (itemset iwc) ≫= fun _ =>
    Fprint output (Text " ") ≫= fun _ =>
    Fprint output (Float (f64_div (f64_of_int (count iwc)) n)) ≫= fun _ =>
    Fprint output (Text newline)) ≫= fun _ =>
  Flush output.

Definition writeRules (rules : list (list Rule)) (outputPath : string)
    (itemizer : Itemizer) : IO unit :=
  output ← os_Create outputPath;
  Fprint output (Text ("Antecedent => Consequent,Confidence,Lift,Support" ++ newline)) ≫= fun _ =>
  forEach rules (fun chunk =>
    forEach chunk (fun rule =>
      writeItems output itemizer true (Antecedent rule) ≫= fun _ =>
      Fprint output (Text " => ") ≫= fun _ =>
      writeItems output itemizer true (Consequent rule) ≫= fun _ =>
      Fprint output (Text ",") ≫= fun _ =>
      Fprint output (Float (Confidence rule)) ≫= fun _ =>
      Fprint output (Text ",") ≫= fun _ =>
      Fprint output (Float (Lift rule)) ≫= fun _ =>
      Fprint output (Text ",") ≫= fun _ =>
      Fprint output (Float (Support rule)) ≫= fun _ =>
      Fprint output (Text newline))) ≫= fun _ =>
  Flush output.

Definition countRules (rules : list (list Rule)) : Z :=
  fold_left (fun n chunk => n + Z.of_nat (length chunk)) rules 0.

(** ** The two passes over the transactions *)

(** One round of the scanner loop of [countItems]. *)
Definition countLine (st : Itemizer * itemCount * Z) (line : string)
    : Itemizer * itemCount * Z :=
  let '(itemizer, frequency, numTransactions) := st in
  let '(itemizer', frequency') :=
    Itemizer_forEachItem itemizer (strings_Split line comma)
      (fun item frequency => itemCount_increment frequency item 1) frequency in
  (itemizer', frequency', numTransactions + 1).

Definition countItems (path : string) : IO (Itemizer * itemCount * Z) :=
  file ← os_Open path;
  let st := fold_left countLine (f_lines file) (newItemizer, makeCounts, 0) in
  match f_err file with
  | Some err => fail err
  | None => mret st
  end.

(** [minCount := max(1, int(math.Ceil(minSupport*float64(numTransactions))))] *)
Definition minCountOf (minSupport : float64) (numTransactions : Z) : Z :=
  max 1 (int_of_f64 (math_Ceil (f64_mul minSupport (f64_of_int numTransactions)))).

(** The predicate given to [itemizer.filter]. *)
Definition isFrequent (frequency : itemCount) (minCount : Z) (i : Item) : bool :=
  minCount <=? itemCount_get frequency i.

(** The comparison given to [sort.SliceStable], on the elements at the two
    indices: "sort by decreasing frequency, tie break lexicographically". *)
Definition byFrequency (itemizer : Itemizer) (frequency : itemCount) (a b : Item) : bool :=
  if itemCount_get frequency a =? itemCount_get frequency b then Itemizer_cmp itemizer a b
  else itemCount_get frequency b <? itemCount_get frequency a.

(** One round of the scanner loop of [generateFrequentItemsets] (the same
    text in the package and in the stand-alone program). *)
Definition insertLine (itemizer : Itemizer) (frequency : itemCount) (minCount : Z)
    (tree : fpTree) (line : string) : fpTree :=
  let transaction :=
    Itemizer_filter itemizer (strings_Split line comma) (isFrequent frequency minCount) in
  if (length transaction =? 0)%nat then tree
  else fpTree_Insert tree (sort_SliceStable (byFrequency itemizer frequency) transaction) 1.

Definition generateFrequentItemsets (path : string) (minSupport : float64)
    (itemizer : Itemizer) (frequency : itemCount) (numTransactions : Z)
    : IO (list itemsetWithCount) :=
  file ← os_Open path;
  let minCount := minCountOf minSupport numTransactions in
  let tree := fold_left (insertLine itemizer frequency minCount) (f_lines file) newTree in
  match f_err file with
  | Some err => fail err
  | None => mret (fpGrowth tree [] minCount)
  end.

(** ** The entry point of the package *)

Definition MineAssociationRules (args : Arguments) : IO unit :=
  match Validate args with
  | Some err => fail err
  | None =>
      '(itemizer, frequency, numTransactions) ← countItems (Input args);
      itemsWithCount ← generateFrequentItemsets (Input args) (MinSupport args)
                         itemizer frequency numTransactions;
      (if (0 <? String.length (ItemsetsPath args))%nat then
         discard_error (writeItemsets itemsWithCount (ItemsetsPath args) itemizer numTransactions)
       else mret ()) ≫= fun _ =>
      let rules := generateRules itemsWithCount numTransactions
                     (MinConfidence args) (MinLift args) in
      let numRules := countRules rules in
      discard_error (writeRules rules (Output args) itemizer) ≫= fun _ =>
      mret ()
  end.

(** ** The stand-alone program: the master/worker scheduler *)

Record workerTask := {
  wt_tree : fpTree;
  wt_item : Item;
  wt_itemset : list Item
}.

Record masterTask := {
  mt_tree : fpTree;
  mt_itemset : list Item;
  mt_items : list Item
}.

(** Where the goroutine of [master] stands: at the head of its loop;
    returned, after [close(toWorker)]; or stopped by the run-time panic of
    an index out of range, which ends the whole program. *)
Inductive masterPC :=
| MasterLoop
| MasterReturned
| MasterPanicked.

(** Where a goroutine of [worker] stands: at the receive from
    [fromMaster]; at the send on [output], the conditional tree and the
    itemset being built; at the send on [toMaster]; or returned. *)
Inductive workerPC :=
| WorkerReceive
| WorkerEmit (conditionalTree : fpTree) (items : list Item)
| WorkerReply (task : masterTask)
| WorkerReturned.

(** The state of [parallelFpGrowth]: the variables of [master], the two
    buffered channels (oldest element first), the workers, and the slice
    that the collecting goroutine has built from the channel [output]. *)
Record system := {
  tasks : list masterTask;
  outstandingJobs : Z;
  masterAt : masterPC;
  toWorker : list workerTask;
  toWorkerClosed : bool;
  fromWorker : list masterTask;
  workers : list workerPC;
  output : list itemsetWithCount
}.

(** [if len(task.items) > 0 { tasks = append(tasks, task) }] *)
Definition pushTask (task : masterTask) (tasks : list masterTask) : list masterTask :=
  if is_nil (mt_items task) then tasks else tasks ++ [task].

(** The state of the master after a receive from [fromWorker], in either
    branch of the loop. *)
Definition afterReceive (s : system) (task : masterTask) (rest : list masterTask) : system :=
  {| tasks := pushTask task (tasks s);
     outstandingJobs := outstandingJobs s - 1;
     masterAt := MasterLoop;
     toWorker := toWorker s;
     toWorkerClosed := toWorkerClosed s;
     fromWorker := rest;
     workers := workers s;
     output := output s |}.

(** The state of the master after the send of [nextWorkerTask]. *)
Definition afterSend (s : system) (ts : list masterTask) (lastTask : masterTask)
    (item : Item) (items : list Item) : system :=
  {| tasks := if (length (mt_items lastTask) =? 1)%nat then ts
              else ts ++ [{| mt_tree := mt_tree lastTask;
                             mt_itemset := mt_itemset lastTask;
                             mt_items := items |}];
     outstandingJobs := outstandingJobs s + 1;
     masterAt := MasterLoop;
     toWorker := toWorker s ++ [{| wt_tree := mt_tree lastTask;
                                   wt_item := item;
                                   wt_itemset := mt_itemset lastTask |}];
     toWorkerClosed := toWorkerClosed s;
     fromWorker := fromWorker s;
     workers := workers s;
     output := output s |}.

Definition setMaster (s : system) (pc : masterPC) (closed : bool) : system :=
  {| tasks := tasks s;
     outstandingJobs := outstandingJobs s;
     masterAt := pc;
     toWorker := toWorker s;
     toWorkerClosed := closed;
     fromWorker := fromWorker s;
     workers := workers s;
     output := output s |}.

(** The state after a step of worker [k]. *)
Definition setWorker (s : system) (k : nat) (pc : workerPC)
    (toWorker' : list workerTask) (fromWorker' : list masterTask)
    (output' : list itemsetWithCount) : system :=
  {| tasks := tasks s;
     outstandingJobs := outstandingJobs s;
     masterAt := masterAt s;
     toWorker := toWorker';
     toWorkerClosed := toWorkerClosed s;
     fromWorker := fromWorker';
     workers := <[k := pc]> (workers s);
     output := output' |}.

(** The steps of the goroutines, interleaved.  [capToWorker] and
    [capFromWorker] are the capacities of the channels [wc] and [mc]: a
    send needs room in the buffer, a receive an element in it.  The channel
    [output] has no buffer, and the collecting goroutine is always at its
    receive.  A step of the master is one round of its loop; [select]
    takes any of its cases that can proceed.  After the panic of the master
    the program is gone and nothing steps. *)
Inductive step (minCount : Z) (capToWorker capFromWorker : nat) : system -> system -> Prop :=
| step_select_receive s ts lastTask item items task rest :
    masterAt s = MasterLoop ->
    tasks s = ts ++ [lastTask] ->
    mt_items lastTask = item :: items ->
    fromWorker s = task :: rest ->
    step minCount capToWorker capFromWorker s (afterReceive s task rest)
| step_select_send s ts lastTask item items :
    masterAt s = MasterLoop ->
    tasks s = ts ++ [lastTask] ->
    mt_items lastTask = item :: items ->
    (length (toWorker s) < capToWorker)%nat ->
    step minCount capToWorker capFromWorker s (afterSend s ts lastTask item items)
| step_index_panic s ts lastTask :
    masterAt s = MasterLoop ->
    tasks s = ts ++ [lastTask] ->
    mt_items lastTask = [] ->
    step minCount capToWorker capFromWorker s (setMaster s MasterPanicked (toWorkerClosed s))
| step_idle_receive s task rest :
    masterAt s = MasterLoop ->
    tasks s = [] ->
    0 < outstandingJobs s ->
    fromWorker s = task :: rest ->
    step minCount capToWorker capFromWorker s (afterReceive s task rest)
| step_master_return s :
    masterAt s = MasterLoop ->
    tasks s = [] ->
    outstandingJobs s <= 0 ->
    step minCount capToWorker capFromWorker s (setMaster s MasterReturned true)
| step_worker_receive s k task rest :
    masterAt s <> MasterPanicked ->
    workers s !! k = Some WorkerReceive ->
    toWorker s = task :: rest ->
    step minCount capToWorker capFromWorker s
      (setWorker s k
         (WorkerEmit (makeConditionalTree (wt_tree task) (headerChain (wt_tree task) (wt_item task)))
                     (appendSorted (wt_itemset task) (wt_item task)))
         rest (fromWorker s) (output s))
| step_worker_return s k :
    masterAt s <> MasterPanicked ->
    workers s !! k = Some WorkerReceive ->
    toWorker s = [] ->
    toWorkerClosed s = true ->
    step minCount capToWorker capFromWorker s
      (setWorker s k WorkerReturned (toWorker s) (fromWorker s) (output s))
| step_worker_emit s k conditionalTree prefix items :
    masterAt s <> MasterPanicked ->
    workers s !! k = Some (WorkerEmit conditionalTree prefix) ->
    items ≡ₚ frequentItemsInTree conditionalTree minCount ->
    step minCount capToWorker capFromWorker s
      (setWorker s k
         (WorkerReply {| mt_tree := conditionalTree; mt_itemset := prefix; mt_items := items |})
         (toWorker s) (fromWorker s)
         (output s ++ [{| itemset := prefix; count := n_count (root conditionalTree) |}]))
| step_worker_reply s k task :
    masterAt s <> MasterPanicked ->
    workers s !! k = Some (WorkerReply task) ->
    (length (fromWorker s) < capFromWorker)%nat ->
    step minCount capToWorker capFromWorker s
      (setWorker s k WorkerReceive (toWorker s) (fromWorker s ++ [task]) (output s)).

(** The state in which [master] starts, [nWorkers] workers being at
    their first receive; [items] is the slice that
    [frequentItemsInTree(initialTree, minCount)] returned. *)
Definition initialSystem (initialTree : fpTree) (items : list Item) (nWorkers : nat) : system :=
  {| tasks := [{| mt_tree := initialTree; mt_itemset := []; mt_items := items |}];
     outstandingJobs := 0;
     masterAt := MasterLoop;
     toWorker := [];
     toWorkerClosed := false;
     fromWorker := [];
     workers := replicate nWorkers WorkerReceive;
     output := [] |}.

(** The states that a run with the given capacities and number of workers
    can be in. *)
Definition reachable (minCount : Z) (capToWorker capFromWorker nWorkers : nat)
    (tree : fpTree) (s : system) : Prop :=
  exists items,
    items ≡ₚ frequentItemsInTree tree minCount /\
    rtc (step minCount capToWorker capFromWorker) (initialSystem tree items nWorkers) s.

(** How a call ends: with the slice it returns, or in a run-time panic. *)
Inductive outcome :=
| Returns (itemsets : list itemsetWithCount)
| Panics.

(** The capacity of the channels [mc] and [wc], and the number of workers
    that [parallelFpGrowth] starts. *)
Definition channelCapacity : nat := Z.to_nat 10000.
Definition numWorkers : nat := 28.

(** [parallelFpGrowth(tree, minCount)]: 28 workers, channels of capacity
    10000.  When [master] returns, the channel [output] is closed and the
    slice of the collecting goroutine is the result. *)
Definition parallelFpGrowth (tree : fpTree) (minCount : Z) (o : outcome) : Prop :=
  exists s,
    reachable minCount channelCapacity channelCapacity numWorkers tree s /\
    match o with
    | Returns itemsets => masterAt s = MasterReturned /\ output s = itemsets
    | Panics => masterAt s = MasterPanicked
    end.

(** [generateFrequentItemsets] of the stand-alone program: the second pass
    of the package, with [check(err)] for the errors and
    [parallelFpGrowth] for the mining. *)
Definition main_generateFrequentItemsets (path : string) (minSupport : float64)
    (itemizer : Itemizer) (frequency : itemCount) (numTransactions : Z)
    (w : world) (o : outcome) : Prop :=
  match os_Open path w with
  | (Ok file, _) =>
      let minCount := minCountOf minSupport numTransactions in
      let tree := fold_left (insertLine itemizer frequency minCount) (f_lines file) newTree in
      match f_err file with
      | Some _ => o = Panics
      | None => parallelFpGrowth tree minCount o
      end
  | (Err _, _) => o = Panics
  end.

(** The first two calls of [main]: [countItems], then
    [generateFrequentItemsets]. *)
Definition main_frequentItemsets (input : string) (minSupport : float64)
    (w : world) (o : outcome) : Prop :=
  match countItems input w with
  | (Ok (itemizer, frequency, numTransactions), w') =>
      main_generateFrequentItemsets input minSupport itemizer frequency numTransactions w' o
  | (Err _, _) => o = Panics
  end.

(** ** The writers of the stand-alone program *)

(** In the stand-alone program an error is not returned: [check(err)]
    panics with it, and the calls of [fmt.Fprint*] and [w.Flush] are
    statements, their errors are not looked at.  The error of an [IO]
    computation of the program is the value of its panic. *)
Fixpoint main_writeItems (path : string) (itemizer : Itemizer) (first : bool)
    (items : list Item) : IO unit :=
  match items with
  | [] => mret ()
  | item :: items' =>
      (if first then mret () else discard_error (Fprint path (Text " "))) ≫= fun _ =>
      discard_error (Fprint path (Text (Itemizer_toStr itemizer item))) ≫= fun _ =>
      main_writeItems path itemizer false items'
  end.

Definition main_writeItemsets (itemsets : list itemsetWithCount) (outputPath : string)
    (itemizer : Itemizer) (numTransactions : Z) : IO unit :=
  output ← os_Create outputPath;
  discard_error (Fprint output (Text ("Itemset,Support" ++ newline))) ≫= fun _ =>
  let n := f64_of_int numTransactions in
  forEach itemsets (fun iwc =>
    main_writeItems output itemizer true (itemset iwc) ≫= fun _ =>
    discard_error (Fprint output (Text " ")) ≫= fun _ =>
    discard_error (Fprint output (Float (f64_div (f64_of_int (count iwc)) n))) ≫= fun _ =>
    discard_error (Fprint output (Text newline))) ≫= fun _ =>
  discard_error (Flush output).

Definition main_writeRules (rules : list (list Rule)) (outputPath : string)
    (itemizer : Itemizer) : IO unit :=
  output ← os_Create outputPath;
  discard_error
    (Fprint output (Text ("Antecedent => Consequent,Confidence,Lift,Support" ++ newline)))
  ≫= fun _ =>
  forEach rules (fun chunk =>
    forEach chunk (fun rule =>
      main_writeItems output itemizer true (Antecedent rule) ≫= fun _ =>
      discard_error (Fprint output (Text " => ")) ≫= fun _ =>
      main_writeItems output itemizer true (Consequent rule) ≫= fun _ =>
      discard_error (Fprint output (Text ",")) ≫= fun _ =>
      discard_error (Fprint output (Float (Confidence rule))) ≫= fun _ =>
      discard_error (Fprint output (Text ",")) ≫= fun _ =>
      discard_error (Fprint output (Float (Lift rule))) ≫= fun _ =>
      discard_error (Fprint output (Text ",")) ≫= fun _ =>
      discard_error (Fprint output (Float (Support rule))) ≫= fun _ =>
      discard_error (Fprint output (Text newline)))) ≫= fun _ =>
  discard_error (Flush output).

(** ** Support of an itemset in a dataset *)

(** The transactions of a file, as the first pass reads them. *)
Definition transactionsOf (lines : list string) : list (list string) :=
  map (fun line => filter (fun token => token <> EmptyString) (strings_Split line comma)) lines.

(** "Support of itemset S: count of transactions containing all items of
    S." *)
Definition support (transactions : list (list string)) (S : list string) : Z :=
  Z.of_nat (length (filter (fun t => forallb (fun x => bool_decide (x ∈ t)) S = true) transactions)).

(** ** Predicates of the statements *)

(** A threshold that the range check of [Validate] rejects: below [0.0] or
    above [1.0], in the order of float64 (a NaN is neither). *)
Definition outOfUnitRange (x : float64) : bool :=
  f64_lt x f64_zero || f64_lt f64_one x.

(** A lift threshold that [Validate] rejects: not zero, and below [1.0]. *)
Definition liftOutOfRange (x : float64) : bool :=
  negb (f64_eq x f64_zero) && f64_lt x f64_one.

(** A threshold in the range [[0, 1]]: [0 <= x] and [x <= 1]. *)
Definition inUnitRange (x : float64) : bool :=
  f64_le f64_zero x && f64_le x f64_one.

(** The literals [0.5] and [2.0]. *)
Definition f64_half : float64 := S754_finite false 4503599627370496 (-53).
Definition f64_two : float64 := S754_finite false 4503599627370496 (-51).

(** The literal [0.1]: the float64 nearest to one tenth, a little above
    it. *)
Definition f64_tenth : float64 := S754_finite false 7205759403792794 (-56).

(** [args] with other paths. *)
Definition withPaths (args : Arguments) (input output itemsetsPath : string) : Arguments :=
  {| Input := input; Output := output;
     MinSupport := MinSupport args; MinConfidence := MinConfidence args;
     MinLift := MinLift args; ItemsetsPath := itemsetsPath |}.

(** The comparator is a strict total order on the items. *)
Definition strictTotalOrder (lt : Item -> Item -> bool) : Prop :=
  (forall a, lt a a = false) /\
  (forall a b c, lt a b = true -> lt b c = true -> lt a c = true) /\
  (forall a b, a = b \/ lt a b = true \/ lt b a = true).

(** [a] may stand before [b] in a transaction of the tree: [a] has the
    higher frequency, or the two have the same frequency and [a] is not
    after [b] for [cmp]. *)
Definition frequencyOrder (frequency : itemCount) (a b : Item) : Prop :=
  itemCount_get frequency b < itemCount_get frequency a \/
  (itemCount_get frequency a = itemCount_get frequency b /\ (cmp a b = true \/ a = b)).

(** The items of a line that the interner knows. *)
Definition knownItems (itemizer : Itemizer) (line : string) : list Item :=
  omap (fun token => strToItem itemizer !! token) (strings_Split line comma).

(** The integer [z] is the ceiling of the float [x]: [x] is a number, and
    [z - 1 < x <= z].  A finite float is [(-1)^s * m * 2^e]; for a negative
    exponent the two bounds are compared after scaling by [2^(-e)]. *)
Definition isCeiling (x : float64) (z : Z) : Prop :=
  match x with
  | S754_zero _ => z = 0
  | S754_finite s m e =>
      if 0 <=? e then z = signed_mantissa s m * 2 ^ e
      else (z - 1) * 2 ^ (- e) < signed_mantissa s m <= z * 2 ^ (- e)
  | _ => False
  end.

(** The integer [z] is the ceiling of the exact product of the float [x]
    and the integer [n]: [z - 1 < x * n <= z], the product being that of
    the numbers, without rounding.  A finite float is [(-1)^s * m * 2^e];
    for a negative exponent the bounds are compared after scaling by
    [2^(-e)]. *)
Definition isCeilingOfProduct (x : float64) (n z : Z) : Prop :=
  match x with
  | S754_zero _ => z = 0
  | S754_finite s m e =>
      if 0 <=? e then z = signed_mantissa s m * n * 2 ^ e
      else (z - 1) * 2 ^ (- e) < signed_mantissa s m * n <= z * 2 ^ (- e)
  | _ => False
  end.

(** The exact product of the float [x] and the integer [n] is the integer
    [z]. *)
Definition isProduct (x : float64) (n z : Z) : Prop :=
  match x with
  | S754_zero _ => z = 0
  | S754_finite s m e =>
      if 0 <=? e then z = signed_mantissa s m * n * 2 ^ e
      else signed_mantissa s m * n = z * 2 ^ (- e)
  | _ => False
  end.

Definition f64_is_nan (x : float64) : bool :=
  match x with S754_nan => true | _ => false end.

(** Every chain of the header table has a node, and its nodes lie at a
    depth between 1 and [n]. *)
Definition headerBound (n : nat) (t : fpTree) : Prop :=
  forall i chain, itemList t !! i = Some chain ->
    chain <> [] /\ forall addr, addr ∈ chain -> (1 <= length addr <= n)%nat.

(** *** The scheduler: what is still to be emitted *)

(** The itemsets that mining the items [items] of [tree] under [prefix]
    contributes: those of the sequential recursion. *)
Definition pendingOfItems (minCount : Z) (tree : fpTree) (prefix items : list Item)
    : list itemsetWithCount :=
  flat_map (mineItem (fun t p => fpGrowth t p minCount) tree prefix) items.

Definition pendingOfMasterTask (minCount : Z) (task : masterTask) : list itemsetWithCount :=
  pendingOfItems minCount (mt_tree task) (mt_itemset task) (mt_items task).

Definition pendingOfWorkerTask (minCount : Z) (task : workerTask) : list itemsetWithCount :=
  pendingOfItems minCount (wt_tree task) (wt_itemset task) [wt_item task].

Definition pendingOfWorker (minCount : Z) (pc : workerPC) : list itemsetWithCount :=
  match pc with
  | WorkerEmit conditionalTree prefix =>
      {| itemset := prefix; count := n_count (root conditionalTree) |}
        :: fpGrowth conditionalTree prefix minCount
  | WorkerReply task => pendingOfMasterTask minCount task
  | _ => []
  end.

(** The itemsets that a state has not emitted yet: those of the tasks on
    the stack of the master, in the two channels and in the hands of the
    workers. *)
Definition pending (minCount : Z) (s : system) : list itemsetWithCount :=
  flat_map (pendingOfMasterTask minCount) (tasks s)
  ++ flat_map (pendingOfWorkerTask minCount) (toWorker s)
  ++ flat_map (pendingOfWorker minCount) (workers s)
  ++ flat_map (pendingOfMasterTask minCount) (fromWorker s).

(** A worker that holds a job: between its receive and its reply. *)
Definition busy (pc : workerPC) : nat :=
  match pc with
  | WorkerEmit _ _ | WorkerReply _ => 1
  | _ => 0
  end.

(** The number of steps that a state has left: five per itemset to emit
    (send, receive, emit, reply, receive), less those already taken; one
    for the return of the master and one for the return of each worker. *)
Definition stepsOfWorker (minCount : Z) (pc : workerPC) : nat :=
  match pc with
  | WorkerReceive => 1
  | WorkerEmit conditionalTree prefix =>
      4 + 5 * length (fpGrowth conditionalTree prefix minCount)
  | WorkerReply task => 3 + 5 * length (pendingOfMasterTask minCount task)
  | WorkerReturned => 0
  end.

Definition stepsLeft (minCount : Z) (s : system) : nat :=
  (match masterAt s with MasterLoop => 1 | _ => 0 end
   + 5 * length (flat_map (pendingOfMasterTask minCount) (tasks s))
   + sum_list_with (fun task => 5 * length (pendingOfWorkerTask minCount task) - 1) (toWorker s)
   + sum_list_with (stepsOfWorker minCount) (workers s)
   + sum_list_with (fun task => 1 + 5 * length (pendingOfMasterTask minCount task))
       (fromWorker s))%nat.

(** What holds in every state of a run that starts with a frequent item:
    the output and what is pending make up the result of the sequential
    miner; [outstandingJobs] counts the jobs in the channels and in the
    hands of the workers; no task on the stack is without items; the
    master has not panicked, it has closed [toWorker] exactly when it has
    returned, and then nothing is left to do; no worker returns before. *)
Record invariant (minCount : Z) (nWorkers : nat) (tree : fpTree) (s : system) : Prop := {
  inv_output : output s ++ pending minCount s ≡ₚ fpGrowth tree [] minCount;
  inv_outstanding :
    outstandingJobs s =
    Z.of_nat (length (toWorker s) + sum_list_with busy (workers s) + length (fromWorker s));
  inv_tasks : Forall (fun task => mt_items task <> []) (tasks s);
  inv_workers : length (workers s) = nWorkers;
  inv_master :
    match masterAt s with
    | MasterLoop => toWorkerClosed s = false /\ WorkerReturned ∉ workers s
    | MasterReturned => toWorkerClosed s = true /\ tasks s = [] /\ outstandingJobs s = 0
    | MasterPanicked => False
    end
}.

(** The run is over: the master has returned and so has every worker. *)
Definition finished (s : system) : Prop :=
  masterAt s = MasterReturned /\ Forall (fun pc => pc = WorkerReturned) (workers s).

(** *** The text of the output files *)

(** Chunks with a separator between each two of them. *)
Definition separated (sep : chunk) (cs : list chunk) : list chunk :=
  match cs with
  | [] => []
  | c :: cs' => c :: flat_map (fun c' => [sep; c']) cs'
  end.

(** The tokens of the items, separated by one space. *)
Definition renderItems (itemizer : Itemizer) (items : list Item) : list chunk :=
  separated (Text " ") (map (fun item => Text (Itemizer_toStr itemizer item)) items).

(** The line of an itemset: its items, a space, its support as a fraction
    of the [n] transactions. *)
Definition renderItemset (itemizer : Itemizer) (n : float64) (iwc : itemsetWithCount)
    : list chunk :=
  renderItems itemizer (itemset iwc)
  ++ [Text " "; Float (f64_div (f64_of_int (count iwc)) n); Text newline].

(** The itemsets file: the header line, then one line per itemset. *)
Definition renderItemsets (itemizer : Itemizer) (numTransactions : Z)
    (itemsets : list itemsetWithCount) : list chunk :=
  Text ("Itemset,Support" ++ newline)
    :: flat_map (renderItemset itemizer (f64_of_int numTransactions)) itemsets.

(** The line of a rule. *)
Definition renderRule (itemizer : Itemizer) (rule : Rule) : list chunk :=
  renderItems itemizer (Antecedent rule)
  ++ [Text " => "]
  ++ renderItems itemizer (Consequent rule)
  ++ [Text ","; Float (Confidence rule); Text ","; Float (Lift rule);
      Text ","; Float (Support rule); Text newline].

(** The rules file: the header line, then one line per rule, chunk after
    chunk. *)
Definition renderRules (itemizer : Itemizer) (rules : list (list Rule)) : list chunk :=
  Text ("Antecedent => Consequent,Confidence,Lift,Support" ++ newline)
    :: flat_map (renderRule itemizer) (concat rules).

(** What a device takes of the chunks [cs]: all of them, or as many as it
    has room for. *)
Definition accepted (room : option nat) (cs : list chunk) : list chunk :=
  match room with
  | None => cs
  | Some k => take k cs
  end.

(** The outcome of a writer on a path that could be created: [nil] when
    the device took the whole text. *)
Definition writeResult (path : string) (room : option nat) (cs : list chunk) : result unit :=
  if (length (accepted room cs) =? length cs)%nat then Ok () else Err (ErrWrite path).

(** The room that is left on a device that holds [held] chunks. *)
Definition roomLeft (room : option nat) (held : nat) : option nat :=
  match room with
  | None => None
  | Some k => Some (k - held)%nat
  end.

(** *** The files that the entry point touches *)

(** A call that creates or writes one of the output files of [args]: the
    rules file, or the itemsets file when its path is not empty. *)
Definition isOutputEvent (args : Arguments) (ev : io_event) : Prop :=
  match ev with
  | EvOpen _ => False
  | EvCreate p | EvWrite p _ =>
      p = Output args \/ (ItemsetsPath args <> EmptyString /\ p = ItemsetsPath args)
  end.

(** *** The first two calls of the entry point *)

(** [countItems], then [generateFrequentItemsets]: what
    [MineAssociationRules] does between the validation and the writing. *)
Definition package_frequentItemsets (input : string) (minSupport : float64)
    : IO (list itemsetWithCount) := fun w =>
  match countItems input w with
  | (Ok (itemizer, frequency, numTransactions), w') =>
      generateFrequentItemsets input minSupport itemizer frequency numTransactions w'
  | (Err err, w') => (Err err, w')
  end.

(** *** Example data *)

(** The input of the first scenario of the spec: four transactions over
    the items a, b and c. *)
Definition scenario1 : list string := ["a,b,c"; "a,b"; "a,c"; "a"].

(** A machine that holds one input file and accepts no output file. *)
Definition inputOnly (lines : list string) : world :=
  {| files := {["transactions.csv" := {| f_lines := lines; f_err := None |}]};
     devices := ∅;
     trace := [] |}.

(** A machine that holds one input file and accepts the two output
    files. *)
Definition inputAndOutput (lines : list string) : world :=
  {| files := {["transactions.csv" := {| f_lines := lines; f_err := None |}]};
     devices := {["rules.txt" := None; "itemsets.txt" := None]};
     trace := [] |}.

Definition exampleArguments (minSupport minConfidence minLift : float64) : Arguments :=
  {| Input := "transactions.csv"; Output := "rules.txt";
     MinSupport := minSupport; MinConfidence := minConfidence; MinLift := minLift;
     ItemsetsPath := "" |}.

(** The result of the first pass over given lines. *)
Definition firstPass (lines : list string) : Itemizer * itemCount * Z :=
  fold_left countLine lines (newItemizer, makeCounts, 0).

(** The comparator that orders the items by their ids. *)
Definition byId : Item -> Item -> bool := Z.ltb.

(** Arguments whose MinSupport and MinConfidence are both [2.0]. *)
Definition bothOutOfRange : Arguments :=
  {| Input := "transactions.csv"; Output := "rules.txt";
     MinSupport := f64_two; MinConfidence := f64_two; MinLift := f64_zero;
     ItemsetsPath := "" |}.

(** The tree of the second pass over the first scenario, with the minimal
    support [0.5]. *)
Definition scenario1_tree : fpTree :=
  fold_left
    (insertLine (fst (fst (firstPass scenario1))) (snd (fst (firstPass scenario1)))
       (minCountOf f64_half (snd (firstPass scenario1))))
    scenario1 newTree.

(** Arguments with valid thresholds and empty paths, and a machine
    without files. *)
Definition emptyPathArguments : Arguments :=
  {| Input := ""; Output := "";
     MinSupport := f64_half; MinConfidence := f64_half; MinLift := f64_zero;
     ItemsetsPath := "" |}.

Definition noFiles : world := {| files := ∅; devices := ∅; trace := [] |}.

(** A collection of itemsets over two items (as mined from the
    transactions a,b / a,b / a / a), and the rule b => a of its last
    itemset. *)
Definition exampleItemsets : list itemsetWithCount :=
  [{| itemset := [0]; count := 4 |}; {| itemset := [1]; count := 2 |};
   {| itemset := [0; 1]; count := 2 |}].

Definition exampleRule : Rule :=
  {| Antecedent := [1]; Consequent := [0];
     Support := f64_half; Confidence := f64_one; Lift := f64_one |}.

(** The arguments of the example with the two output files. *)
Definition exampleBothFiles : Arguments :=
  {| Input := "transactions.csv"; Output := "rules.txt";
     MinSupport := f64_half; MinConfidence := f64_half; MinLift := f64_zero;
     ItemsetsPath := "itemsets.txt" |}.

(** Arguments with thresholds in range and no itemsets file. *)
Definition validArguments : Arguments :=
  {| Input := "transactions.csv"; Output := "rules.txt";
     MinSupport := f64_half; MinConfidence := f64_half; MinLift := f64_zero;
     ItemsetsPath := EmptyString |}.

(** * Properties *)

(** ** Validation *)

Lemma Validate_cases (args : Arguments) :
  Validate args =
    if outOfUnitRange (MinSupport args) then Some ErrMinSupportOutOfRange
    else if outOfUnitRange (MinConfidence args) then Some ErrMinConfidenceOutOfRange
    else if liftOutOfRange (MinLift args) then Some ErrMinLiftOutOfRange
    else None.
Proof. reflexivity. Qed.

Lemma MineAssociationRules_invalid (args : Arguments) (err : error) (w : world) :
  Validate args = Some err -> MineAssociationRules args w = (Err err, w).
Proof. intros Hv. unfold MineAssociationRules. rewrite Hv. reflexivity. Qed.

Lemma Validate_withPaths (args : Arguments) (input output itemsetsPath : string) :
  Validate (withPaths args input output itemsetsPath) = Validate args.
Proof. reflexivity. Qed.

Lemma countItems_missing (path : string) (w : world) :
  files w !! path = None ->
  countItems path w = (Err (ErrOpen path), record (EvOpen path) w).
Proof.
  intros Hmiss. unfold countItems, mbind, IO_bind, os_Open. rewrite Hmiss. reflexivity.
Qed.

(** C10.  [Validate] reads the three thresholds only: arguments that pass
    it pass it with any Input, Output and ItemsetsPath, the empty path
    included.  An Input path that names no file is reported by [os.Open]
    in the first pass, [countItems], and [MineAssociationRules] returns
    that error, the failed open being its only file operation. *)
Theorem Validate_ignores_paths (args : Arguments) (w : world) :
  Validate args = None ->
  files w !! Input args = None ->
  (forall input output itemsetsPath,
     Validate (withPaths args input output itemsetsPath) = None) /\
  countItems (Input args) w = (Err (ErrOpen (Input args)), record (EvOpen (Input args)) w) /\
  MineAssociationRules args w = (Err (ErrOpen (Input args)), record (EvOpen (Input args)) w) /\
  trace (snd (MineAssociationRules args w)) = trace w ++ [EvOpen (Input args)].
Proof.
  intros Hvalid Hmiss.
  assert (Hmine : MineAssociationRules args w
                  = (Err (ErrOpen (Input args)), record (EvOpen (Input args)) w)).
  { unfold MineAssociationRules. rewrite Hvalid.
    unfold mbind at 1. unfold IO_bind at 1.
    rewrite (countItems_missing _ _ Hmiss). reflexivity. }
  split_and!.
  - intros. rewrite Validate_withPaths. exact Hvalid.
  - apply countItems_missing, Hmiss.
  - exact Hmine.
  - rewrite Hmine. reflexivity.
Qed.

(** The errors of the two writers do not reach the caller: once the two
    passes over the input have succeeded, [MineAssociationRules] returns
    [nil]. *)
Lemma MineAssociationRules_after_passes (args : Arguments) (w w1 w2 : world)
    (itemizer : Itemizer) (frequency : itemCount) (numTransactions : Z)
    (itemsWithCount : list itemsetWithCount) :
  Validate args = None ->
  countItems (Input args) w = (Ok (itemizer, frequency, numTransactions), w1) ->
  generateFrequentItemsets (Input args) (MinSupport args) itemizer frequency
    numTransactions w1 = (Ok itemsWithCount, w2) ->
  fst (MineAssociationRules args w) = Ok ().
Proof.
  intros Hvalid Hcount Hgen. unfold MineAssociationRules. rewrite Hvalid.
  unfold mbind at 1. unfold IO_bind at 1. rewrite Hcount.
  unfold mbind at 1. unfold IO_bind at 1. rewrite Hgen.
  unfold mbind at 1. unfold IO_bind at 1.
  destruct (0 <? String.length (ItemsetsPath args))%nat; reflexivity.
Qed.

(** ** The stable sort *)

Section stable_sort.
Context {A : Type} (less : A -> A -> bool).

Lemma stable_insert_perm (x : A) (l : list A) : stable_insert less x l ≡ₚ x :: l.
Proof.
  induction l as [|y l IH]; simpl; [done|].
  destruct (less y x); [|done].
  rewrite IH. apply Permutation_swap.
Qed.

Lemma sort_SliceStable_perm (l : list A) : sort_SliceStable less l ≡ₚ l.
Proof.
  induction l as [|x l IH]; simpl; [done|].
  rewrite stable_insert_perm. by rewrite IH.
Qed.

Hypothesis less_asym : forall a b, less a b = true -> less b a = false.
Hypothesis less_ntrans :
  forall a b c, less b a = false -> less c b = false -> less c a = false.

Lemma stable_insert_sorted (x : A) (l : list A) :
  StronglySorted (fun a b => less b a = false) l ->
  StronglySorted (fun a b => less b a = false) (stable_insert less x l).
Proof.
  induction 1 as [|y l Hsorted IH Hy]; simpl.
  - repeat constructor.
  - destruct (less y x) eqn:Hyx.
    + constructor; [exact IH|].
      rewrite Forall_forall. intros z Hz.
      apply (elem_of_Permutation_proper _ _ _ (stable_insert_perm x l)) in Hz.
      apply elem_of_cons in Hz as [->|Hz]; [by apply less_asym|].
      rewrite Forall_forall in Hy. by apply Hy.
    + constructor; [by constructor|].
      constructor; [exact Hyx|].
      eapply Forall_impl; [exact Hy|]. intros z Hz. simpl in Hz.
      by apply less_ntrans with y.
Qed.

Lemma sort_SliceStable_sorted (l : list A) :
  StronglySorted (fun a b => less b a = false) (sort_SliceStable less l).
Proof.
  induction l as [|x l IH]; simpl; [constructor|].
  by apply stable_insert_sorted.
Qed.

End stable_sort.

(** ** The second pass: one transaction *)

Lemma byFrequency_not_after (itemizer : Itemizer) (frequency : itemCount) (a b : Item) :
  strictTotalOrder cmp ->
  byFrequency itemizer frequency b a = false <-> frequencyOrder frequency a b.
Proof.
  intros (Hirr & Htrans & Htotal). unfold byFrequency, frequencyOrder, Itemizer_cmp.
  destruct (Z.eqb_spec (itemCount_get frequency b) (itemCount_get frequency a)) as [Heq|Hne].
  - split.
    + intros Hba. right. split; [done|].
      destruct (Htotal a b) as [->|[?|Hab]]; auto. congruence.
    + intros [?|[_ [Hab| ->]]]; [lia| |apply Hirr].
      destruct (cmp b a) eqn:Hba; [|done].
      rewrite <- (Hirr a). symmetry. by apply Htrans with b.
  - rewrite Z.ltb_ge. split; [intros; left; lia|intros [?|[? _]]; lia].
Qed.

Lemma byFrequency_asym (itemizer : Itemizer) (frequency : itemCount) (a b : Item) :
  strictTotalOrder cmp ->
  byFrequency itemizer frequency a b = true -> byFrequency itemizer frequency b a = false.
Proof.
  intros (Hirr & Htrans & _). unfold byFrequency, Itemizer_cmp.
  destruct (Z.eqb_spec (itemCount_get frequency a) (itemCount_get frequency b)) as [Heq|Hne].
  - rewrite Heq, Z.eqb_refl. intros Hab.
    destruct (cmp b a) eqn:Hba; [|done].
    rewrite <- (Hirr a). symmetry. by apply Htrans with b.
  - destruct (Z.eqb_spec (itemCount_get frequency b) (itemCount_get frequency a));
      [congruence|]. rewrite Z.ltb_lt, Z.ltb_ge. lia.
Qed.

Lemma StronglySorted_weaken {A} (R R' : A -> A -> Prop) (l : list A) :
  (forall a b, R a b -> R' a b) -> StronglySorted R l -> StronglySorted R' l.
Proof.
  intros Himpl. induction 1 as [|x l _ IH Hx]; constructor; [exact IH|].
  eapply Forall_impl; [exact Hx|]. intros y. apply Himpl.
Qed.

Lemma frequencyOrder_antisym (frequency : itemCount) (a b : Item) :
  strictTotalOrder cmp ->
  frequencyOrder frequency a b -> frequencyOrder frequency b a -> a = b.
Proof.
  intros (Hirr & Htrans & _) [?|[? [Hab|Hab]]] [?|[? [Hba|Hba]]]; try lia; try done.
  pose proof (Htrans _ _ _ Hab Hba) as Haa. rewrite Hirr in Haa. done.
Qed.

Lemma frequencyOrder_trans (frequency : itemCount) (a b c : Item) :
  strictTotalOrder cmp ->
  frequencyOrder frequency a b -> frequencyOrder frequency b c -> frequencyOrder frequency a c.
Proof.
  intros (Hirr & Htrans & _) [?|[? [Hab|Hab]]] [?|[? [Hbc|Hbc]]];
    unfold frequencyOrder; subst; try (left; lia); right; split; try lia; eauto.
Qed.

Lemma elem_of_Itemizer_filter (itemizer : Itemizer) (tokens : list string)
    (pred : Item -> bool) (i : Item) :
  i ∈ Itemizer_filter itemizer tokens pred <->
  i ∈ omap (fun token => strToItem itemizer !! token) tokens /\ pred i = true.
Proof.
  unfold Itemizer_filter. rewrite !list_elem_of_omap. split.
  - intros (token & Hin & Hf). destruct (strToItem itemizer !! token) as [j|] eqn:Hj; [|done].
    destruct (pred j) eqn:Hp; [|done]. injection Hf as ->. eauto.
  - intros [(token & Hin & Hf) Hp]. exists token. by rewrite Hf, Hp.
Qed.

(** C5.  One scanned line of the second pass, [cmp] being a strict total
    order.  The items kept are the items of the line whose frequency is at
    least [minCount]; with none kept the tree is left as it is; otherwise
    the tree receives one [Insert] of weight 1, of the kept items sorted by
    decreasing frequency with ties in the order of [cmp].  That sequence is
    a rearrangement of the kept items, and it is the only sorted one: the
    order of the result is fixed by the keys. *)
Theorem insertLine_filters_sorts_inserts (itemizer : Itemizer) (frequency : itemCount)
    (minCount : Z) (tree : fpTree) (line : string) :
  strictTotalOrder cmp ->
  let kept := Itemizer_filter itemizer (strings_Split line comma)
                (isFrequent frequency minCount) in
  let sorted := sort_SliceStable (byFrequency itemizer frequency) kept in
  (forall i, i ∈ kept <->
     i ∈ knownItems itemizer line /\ minCount <= itemCount_get frequency i) /\
  (kept = [] -> insertLine itemizer frequency minCount tree line = tree) /\
  (kept <> [] ->
     insertLine itemizer frequency minCount tree line = fpTree_Insert tree sorted 1) /\
  sorted ≡ₚ kept /\
  StronglySorted (frequencyOrder frequency) sorted /\
  (forall l, l ≡ₚ kept -> StronglySorted (frequencyOrder frequency) l -> l = sorted).
Proof.
  intros Hcmp kept sorted.
  assert (Hperm : sorted ≡ₚ kept) by apply sort_SliceStable_perm.
  assert (Hsorted : StronglySorted (frequencyOrder frequency) sorted).
  { eapply (StronglySorted_weaken
              (fun a b => byFrequency itemizer frequency b a = false)).
    - intros a b Hab. by apply (byFrequency_not_after itemizer).
    - apply sort_SliceStable_sorted.
      + intros a b. by apply byFrequency_asym.
      + intros a b c Hba Hcb.
        apply (byFrequency_not_after itemizer); [done|].
        apply (byFrequency_not_after itemizer) in Hba, Hcb; [|done..].
        by apply frequencyOrder_trans with b. }
  split_and!.
  - intros i. unfold kept. rewrite elem_of_Itemizer_filter.
    unfold isFrequent, knownItems. by rewrite Z.leb_le.
  - intros Hnil. unfold insertLine. fold kept. by rewrite Hnil.
  - intros Hne. unfold insertLine. fold kept. fold sorted.
    destruct kept; [done|reflexivity].
  - exact Hperm.
  - exact Hsorted.
  - intros l Hl Hsl.
    eapply StronglySorted_unique_strong; [| exact Hsl | exact Hsorted | by rewrite Hperm].
    intros x1 x2 _ _. by apply frequencyOrder_antisym.
Qed.

(** ** Conversions between int and float64 *)

Lemma digits2_pos_iter_xO (m k : positive) :
  Z.pos (digits2_pos (Pos.iter xO m k)) = Z.pos (digits2_pos m) + Z.pos k.
Proof.
  induction k as [|k IH] using Pos.peano_ind.
  - simpl. lia.
  - rewrite Pos.iter_succ. simpl. lia.
Qed.

Lemma Zpos_iter_xO (m k : positive) :
  Z.pos (Pos.iter xO m k) = Z.pos m * 2 ^ Z.pos k.
Proof.
  induction k as [|k IH] using Pos.peano_ind.
  - simpl. lia.
  - rewrite Pos.iter_succ, Pos2Z.inj_succ, Z.pow_succ_r by lia.
    rewrite Pos2Z.inj_xO, IH. ring.
Qed.

Lemma digits2_pos_bounds (m : positive) :
  2 ^ (Z.pos (digits2_pos m) - 1) <= Z.pos m < 2 ^ Z.pos (digits2_pos m).
Proof.
  induction m as [m IH|m IH|]; simpl digits2_pos.
  - rewrite Pos2Z.inj_succ, Z.pow_succ_r by lia.
    replace (Z.succ (Z.pos (digits2_pos m)) - 1) with (Z.succ (Z.pos (digits2_pos m) - 1)) by lia.
    rewrite Z.pow_succ_r by lia. lia.
  - rewrite Pos2Z.inj_succ, Z.pow_succ_r by lia.
    replace (Z.succ (Z.pos (digits2_pos m)) - 1) with (Z.succ (Z.pos (digits2_pos m) - 1)) by lia.
    rewrite Z.pow_succ_r by lia. lia.
  - simpl. lia.
Qed.

Lemma binary_round_aux_exact (s : bool) (m : positive) (e : Z) :
  Z.pos (digits2_pos m) = 53 -> -1074 <= e <= 971 ->
  binary_round_aux f64_prec f64_emax s (Z.pos m) e loc_Exact = S754_finite s m e.
Proof.
  intros Hd He. unfold binary_round_aux, shr_fexp, fexp, emin, f64_prec, f64_emax. simpl Zdigits2.
  rewrite Hd.
  replace (Z.max (53 + e - 53) (3 - 1024 - 53) - e) with 0 by lia.
  simpl. rewrite Hd.
  replace (Z.max (53 + e - 53) (3 - 1024 - 53) - e) with 0 by lia.
  simpl. destruct (Z.leb_spec e (1024 - 53)); [done|lia].
Qed.

Lemma f64_of_int_pos (s : bool) (m : positive) :
  Z.pos (digits2_pos m) <= 53 ->
  exists m' e, binary_round f64_prec f64_emax s m 0 = S754_finite s m' e /\
    e <= 0 /\ Z.pos m' = Z.pos m * 2 ^ (- e).
Proof.
  intros Hd. unfold binary_round, shl_align, fexp, emin, f64_prec, f64_emax.
  rewrite Z.add_0_r.
  pose proof (Pos2Z.is_pos (digits2_pos m)).
  replace (Z.max (Z.pos (digits2_pos m) - 53) (3 - 1024 - 53)) with (Z.pos (digits2_pos m) - 53) by lia.
  rewrite Z.sub_0_r.
  destruct (Z.pos (digits2_pos m) - 53) as [|k|k] eqn:Hk; [|lia|].
  - exists m, 0. rewrite binary_round_aux_exact by lia. split_and!; [done|lia|simpl; lia].
  - exists (Pos.iter xO m k), (Z.neg k).
    rewrite binary_round_aux_exact.
    + split_and!; [done|lia|]. rewrite Zpos_iter_xO. done.
    + rewrite digits2_pos_iter_xO. lia.
    + lia.
Qed.

Lemma int_of_f64_of_int (z : Z) :
  - 2 ^ 53 < z < 2 ^ 53 -> int_of_f64 (f64_of_int z) = z.
Proof.
  intros Hz. destruct z as [|m|m]; [done|..].
  - assert (Hd : Z.pos (digits2_pos m) <= 53).
    { pose proof (digits2_pos_bounds m) as [Hlo _].
      destruct (Z.le_gt_cases (Z.pos (digits2_pos m)) 53) as [|Hgt]; [done|].
      assert (2 ^ 53 <= 2 ^ (Z.pos (digits2_pos m) - 1)) by (apply Z.pow_le_mono_r; lia). lia. }
    destruct (f64_of_int_pos false m Hd) as (m' & e & Heq & He & Hm).
    unfold f64_of_int, binary_normalize. rewrite Heq. unfold int_of_f64.
    assert (Ht : (if 0 <=? e then Z.pos m' * 2 ^ e else Z.pos m' / 2 ^ (- e)) = Z.pos m).
    { destruct (Z.leb_spec 0 e).
      - assert (e = 0) as -> by lia. simpl in Hm. lia.
      - rewrite Hm. apply Z.div_mul. apply Z.pow_nonzero; lia. }
    rewrite Ht.
    destruct (Z.leb_spec (- 2 ^ 63) (Z.pos m)), (Z.ltb_spec (Z.pos m) (2 ^ 63)); simpl; lia.
  - assert (Hd : Z.pos (digits2_pos m) <= 53).
    { pose proof (digits2_pos_bounds m) as [Hlo _].
      destruct (Z.le_gt_cases (Z.pos (digits2_pos m)) 53) as [|Hgt]; [done|].
      assert (2 ^ 53 <= 2 ^ (Z.pos (digits2_pos m) - 1)) by (apply Z.pow_le_mono_r; lia). lia. }
    destruct (f64_of_int_pos true m Hd) as (m' & e & Heq & He & Hm).
    unfold f64_of_int, binary_normalize. rewrite Heq. unfold int_of_f64.
    assert (Ht : (if 0 <=? e then Z.pos m' * 2 ^ e else Z.pos m' / 2 ^ (- e)) = Z.pos m).
    { destruct (Z.leb_spec 0 e).
      - assert (e = 0) as -> by lia. simpl in Hm. lia.
      - rewrite Hm. apply Z.div_mul. apply Z.pow_nonzero; lia. }
    rewrite Ht.
    destruct (Z.leb_spec (- 2 ^ 63) (- Z.pos m)), (Z.ltb_spec (- Z.pos m) (2 ^ 63)); simpl; lia.
Qed.

Lemma max_Zmax (a b : Z) : max a b = Z.max a b.
Proof. unfold max. destruct (Z.ltb_spec a b); lia. Qed.

(** *** Rounding of a float64 product *)

(** One shift to the right halves a mantissa that is not negative. *)
Lemma shr_1_m (mrs : shr_record) :
  0 <= shr_m mrs -> shr_m (shr_1 mrs) = shr_m mrs / 2.
Proof.
  destruct mrs as [m r s]. simpl. intros Hm.
  destruct m as [|p|p]; [done| |lia].
  destruct p as [p|p|]; simpl shr_m.
  - rewrite Pos2Z.inj_xI. apply Z.div_unique with 1; lia.
  - rewrite Pos2Z.inj_xO. apply Z.div_unique with 0; lia.
  - done.
Qed.

Lemma iter_pos_shr_1_m (p : positive) (mrs : shr_record) :
  0 <= shr_m mrs -> shr_m (SpecFloat.iter_pos shr_1 p mrs) = shr_m mrs / 2 ^ Z.pos p.
Proof.
  revert mrs. induction p as [p IH|p IH|]; intros mrs Hm; cbn [SpecFloat.iter_pos].
  - assert (H1 : 0 <= shr_m (shr_1 mrs)) by (rewrite shr_1_m by done; apply Z.div_pos; lia).
    assert (H2 : 0 <= shr_m (SpecFloat.iter_pos shr_1 p (shr_1 mrs))).
    { rewrite IH by done. apply Z.div_pos; [done|]. apply Z.pow_pos_nonneg; lia. }
    assert (Hp : 2 ^ Z.pos p~1 = 2 * 2 ^ Z.pos p * 2 ^ Z.pos p).
    { replace (Z.pos p~1) with (1 + Z.pos p + Z.pos p) by lia.
      rewrite !Z.pow_add_r by lia. lia. }
    assert (0 < 2 ^ Z.pos p) by (apply Z.pow_pos_nonneg; lia).
    rewrite IH, IH, shr_1_m, Hp by done.
    rewrite !Z.div_div by lia. f_equal; lia.
  - assert (H2 : 0 <= shr_m (SpecFloat.iter_pos shr_1 p mrs)).
    { rewrite IH by done. apply Z.div_pos; [done|]. apply Z.pow_pos_nonneg; lia. }
    assert (Hp : 2 ^ Z.pos p~0 = 2 ^ Z.pos p * 2 ^ Z.pos p).
    { replace (Z.pos p~0) with (Z.pos p + Z.pos p) by lia.
      rewrite Z.pow_add_r by lia. lia. }
    assert (0 < 2 ^ Z.pos p) by (apply Z.pow_pos_nonneg; lia).
    rewrite IH, IH, Hp by done.
    rewrite !Z.div_div by lia. f_equal; lia.
  - by rewrite shr_1_m.
Qed.

(** The mantissa and the exponent after [shr_fexp]. *)
Lemma shr_fexp_m (m e : Z) (l : location) :
  0 <= m ->
  let k := Z.max 0 (fexp f64_prec f64_emax (Zdigits2 m + e) - e) in
  shr_m (fst (shr_fexp f64_prec f64_emax m e l)) = m / 2 ^ k /\
  snd (shr_fexp f64_prec f64_emax m e l) = e + k.
Proof.
  intros Hm k. unfold shr_fexp, shr. 
  assert (Hrec : shr_m (shr_record_of_loc m l) = m) by (by destruct l as [|[]]).
  destruct (fexp f64_prec f64_emax (Zdigits2 m + e) - e) as [|p|p] eqn:Hk; subst k; simpl fst; simpl snd.
  - rewrite Hrec, Z.max_id. simpl. rewrite Z.div_1_r. lia.
  - rewrite iter_pos_shr_1_m by lia. rewrite Hrec.
    replace (Z.max 0 (Z.pos p)) with (Z.pos p) by lia. done.
  - rewrite Hrec. replace (Z.max 0 (Z.neg p)) with 0 by lia. simpl. rewrite Z.div_1_r. lia.
Qed.

Lemma Zdigits2_bounds (m : Z) :
  0 < m -> 2 ^ (Zdigits2 m - 1) <= m < 2 ^ Zdigits2 m.
Proof. destruct m as [|p|p]; try lia. intros _. apply digits2_pos_bounds. Qed.

Lemma Zdigits2_le (m d : Z) : 0 <= d -> 0 <= m < 2 ^ d -> Zdigits2 m <= d.
Proof.
  intros Hd Hm. destruct (Z.eq_dec m 0) as [->|Hne]; [done|].
  pose proof (Zdigits2_bounds m ltac:(lia)) as [Hlo _].
  destruct (Z.le_gt_cases (Zdigits2 m) d) as [|Hgt]; [done|].
  assert (2 ^ d <= 2 ^ (Zdigits2 m - 1)) by (apply Z.pow_le_mono_r; lia). lia.
Qed.

Lemma round_nearest_even_bounds (m : Z) (l : location) :
  m <= round_nearest_even m l <= m + 1.
Proof. destruct l as [|[]]; simpl; try destruct (Z.even m); lia. Qed.

(** Rounding a positive mantissa [M] at the exponent [E], with
    [M * 2^E < 2^54]: no overflow, the sign is kept, the mantissa is below
    [2^53] and the value is at most [2^54]. *)
Lemma binary_round_aux_bounds (s : bool) (M : positive) (E : Z) :
  Z.pos (digits2_pos M) + E <= 54 ->
  match binary_round_aux f64_prec f64_emax s (Z.pos M) E loc_Exact with
  | S754_zero _ => True
  | S754_finite s' m e =>
      s' = s /\ Z.pos m < 2 ^ 53 /\ (0 <= e -> Z.pos m * 2 ^ e <= 2 ^ 54)
  | _ => False
  end.
Proof.
  intros Hd. unfold binary_round_aux.
  pose proof (shr_fexp_m (Z.pos M) E loc_Exact ltac:(lia)) as [Hm' He'].
  destruct (shr_fexp f64_prec f64_emax (Z.pos M) E loc_Exact) as [mrs' e'].
  simpl fst in Hm'. simpl snd in He'.
  set (r := round_nearest_even (shr_m mrs') (loc_of_shr_record mrs')).
  pose proof (round_nearest_even_bounds (shr_m mrs') (loc_of_shr_record mrs')) as Hr.
  fold r in Hr.
  pose proof (digits2_pos_bounds M) as [HMlo HMhi].
  set (d := Z.pos (digits2_pos M)) in *.
  assert (Hdpos : 0 < d) by (unfold d; lia).
  simpl Zdigits2 in Hm', He'. fold d in Hm', He'.
  unfold fexp, emin, f64_prec, f64_emax in Hm', He'.
  set (k := Z.max 0 (Z.max (d + E - 53) (3 - 1024 - 53) - E)) in *.
  assert (Hk : 0 <= k) by (unfold k; lia).
  assert (H2k : 0 < 2 ^ k) by (apply Z.pow_pos_nonneg; lia).
  assert (Hm'0 : 0 <= shr_m mrs') by (rewrite Hm'; apply Z.div_pos; lia).
  assert (Hm'53 : shr_m mrs' < 2 ^ 53).
  { rewrite Hm'. apply Z.div_lt_upper_bound; [done|].
    rewrite <- Z.pow_add_r by lia.
    assert (2 ^ d <= 2 ^ (k + 53)) by (apply Z.pow_le_mono_r; unfold k; lia). lia. }
  assert (Hval : 0 <= e' -> r * 2 ^ e' <= 2 ^ 54).
  { intros He'0.
    assert (Hkd : k <= d) by (unfold k in *; lia).
    assert (shr_m mrs' < 2 ^ (d - k)).
    { rewrite Hm'. apply Z.div_lt_upper_bound; [done|].
      rewrite <- Z.pow_add_r by lia. by replace (k + (d - k)) with d by lia. }
    assert (r * 2 ^ e' <= 2 ^ (d - k) * 2 ^ e').
    { apply Z.mul_le_mono_nonneg_r; [apply Z.pow_nonneg|]; lia. }
    rewrite <- Z.pow_add_r in * by lia.
    assert (2 ^ (d - k + e') <= 2 ^ 54) by (apply Z.pow_le_mono_r; lia). lia. }
  assert (He'lo : -1074 <= e' <= 53) by (unfold k in *; lia).
  pose proof (shr_fexp_m r e' loc_Exact ltac:(lia)) as [Hm'' He''].
  destruct (shr_fexp f64_prec f64_emax r e' loc_Exact) as [mrs'' e''].
  simpl fst in Hm''. simpl snd in He''.
  unfold fexp, emin, f64_prec, f64_emax in Hm'', He''.
  destruct (Z.eq_dec r (2 ^ 53)) as [Hr53|Hr53].
  - rewrite Hr53 in Hm'', He''.
    change (Zdigits2 (2 ^ 53)) with 54 in Hm'', He''.
    replace (Z.max 0 (Z.max (54 + e' - 53) (3 - 1024 - 53) - e')) with 1 in Hm'', He'' by lia.
    change (2 ^ 53 / 2 ^ 1) with (2 ^ 52) in Hm''.
    rewrite Hm''. change (2 ^ 52) with (Z.pos 4503599627370496).
    cbv iota beta.
    destruct (Z.leb_spec e'' (f64_emax - f64_prec)) as [_|Hover];
      [|unfold f64_emax, f64_prec in Hover; lia].
    split_and!; [done|done|]. intros He''0.
    destruct (Z.eq_dec e' (-1)) as [->|Hne].
    + subst e''. done.
    + specialize (Hval ltac:(lia)). subst e'' r.
      rewrite Z.pow_add_r by lia. lia.
  - assert (Hdr : Zdigits2 r <= 53) by (apply Zdigits2_le; lia).
    replace (Z.max 0 (Z.max (Zdigits2 r + e' - 53) (3 - 1024 - 53) - e')) with 0 in Hm'', He'' by lia.
    rewrite Z.pow_0_r, Z.div_1_r in Hm''. rewrite Z.add_0_r in He''. subst e''.
    rewrite Hm''. destruct r as [|m|m]; [done| |lia].
    destruct (Z.leb_spec e' (f64_emax - f64_prec)) as [_|Hover];
      [|unfold f64_emax, f64_prec in Hover; lia].
    split_and!; [done|lia|done].
Qed.

Lemma digits2_pos_mul (m n : positive) :
  Z.pos (digits2_pos (m * n)) <= Z.pos (digits2_pos m) + Z.pos (digits2_pos n).
Proof.
  pose proof (digits2_pos_bounds m) as [_ Hm].
  pose proof (digits2_pos_bounds n) as [_ Hn].
  pose proof (digits2_pos_bounds (m * n)) as [Hmn _].
  destruct (Z.le_gt_cases (Z.pos (digits2_pos (m * n)))
              (Z.pos (digits2_pos m) + Z.pos (digits2_pos n))) as [|Hgt]; [done|].
  assert (2 ^ (Z.pos (digits2_pos m) + Z.pos (digits2_pos n))
          <= 2 ^ (Z.pos (digits2_pos (m * n)) - 1)) by (apply Z.pow_le_mono_r; lia).
  rewrite Z.pow_add_r in * by lia. rewrite Pos2Z.inj_mul in Hmn. nia.
Qed.

(** A float64 number in [[0, 1]] is a zero, or a positive float whose
    mantissa has [d] digits and whose exponent is at most [1 - d]. *)
Lemma unit_range_magnitude (x : float64) :
  valid_binary f64_prec f64_emax x = true ->
  f64_le f64_zero x = true ->
  f64_le x f64_one = true ->
  match x with
  | S754_zero _ => True
  | S754_finite s m e => s = false /\ Z.pos (digits2_pos m) + e <= 1
  | _ => False
  end.
Proof.
  intros Hvalid H0 H1. destruct x as [s|s| |s m e].
  - exact I.
  - destruct s; discriminate.
  - discriminate.
  - destruct s; [discriminate|]. split; [reflexivity|].
    simpl in Hvalid. unfold bounded, canonical_mantissa, fexp, emin, f64_prec, f64_emax in Hvalid.
    apply andb_prop in Hvalid as [Hcanon _]. apply Z.eqb_eq in Hcanon.
    unfold f64_le, SFleb, f64_one in H1. cbn [SFcompare] in H1.
    destruct (Z.compare_spec e (-52)) as [He|He|He].
    + rewrite Pos.compare_cont_spec in H1. cbn [Pos.switch_Eq] in H1.
      destruct (Pos.compare_spec m 4503599627370496) as [Hm|Hlt|Hgt].
      * subst. vm_compute. discriminate.
      * apply Pos2Z.pos_lt_pos in Hlt.
        assert (Zdigits2 (Z.pos m) <= 52) by (apply Zdigits2_le; [lia|split; [lia|exact Hlt]]).
        cbn [Zdigits2] in H. lia.
      * done.
    + lia.
    + done.
Qed.

(** [float64(n)] for [0 <= n < 2^53]: a zero, or a positive float of
    magnitude at most [2^53]. *)
Lemma f64_of_int_magnitude (n : Z) :
  0 <= n < 2 ^ 53 ->
  match f64_of_int n with
  | S754_zero _ => True
  | S754_finite s m e => s = false /\ Z.pos (digits2_pos m) + e <= 53
  | _ => False
  end.
Proof.
  intros Hn. destruct n as [|p|p]; [exact I| |lia].
  assert (Hd : Z.pos (digits2_pos p) <= 53).
  { apply (Zdigits2_le (Z.pos p)); lia. }
  destruct (f64_of_int_pos false p Hd) as (m & e & Heq & He & Hm).
  unfold f64_of_int, binary_normalize. rewrite Heq. split; [done|].
  pose proof (digits2_pos_bounds m) as [Hlo _].
  assert (H2e : 0 < 2 ^ (- e)) by (apply Z.pow_pos_nonneg; lia).
  assert (Hlt : Z.pos m < 2 ^ (53 - e)).
  { rewrite Hm. replace (53 - e) with (53 + - e) by lia.
    rewrite Z.pow_add_r by lia. nia. }
  destruct (Z.le_gt_cases (Z.pos (digits2_pos m) + e) 53) as [|Hgt]; [done|].
  assert (2 ^ (53 - e) <= 2 ^ (Z.pos (digits2_pos m) - 1)) by (apply Z.pow_le_mono_r; lia).
  lia.
Qed.

(** The product of a float64 in [[0, 1]] and of [float64(n)],
    [0 <= n < 2^53], is a zero or a positive float with a mantissa below
    [2^53] and a value of at most [2^54]. *)
Lemma f64_mul_magnitude (x : float64) (n : Z) :
  valid_binary f64_prec f64_emax x = true ->
  f64_le f64_zero x = true ->
  f64_le x f64_one = true ->
  0 <= n < 2 ^ 53 ->
  match f64_mul x (f64_of_int n) with
  | S754_zero _ => True
  | S754_finite s m e =>
      s = false /\ Z.pos m < 2 ^ 53 /\ (0 <= e -> Z.pos m * 2 ^ e <= 2 ^ 54)
  | _ => False
  end.
Proof.
  intros Hvalid H0 H1 Hn.
  pose proof (unit_range_magnitude x Hvalid H0 H1) as Hx.
  pose proof (f64_of_int_magnitude n Hn) as Hy.
  unfold f64_mul. destruct x as [sx|sx| |sx mx ex], (f64_of_int n) as [sy|sy| |sy my ey];
    try contradiction; try exact I.
  destruct Hx as [-> Hx], Hy as [-> Hy]. cbn [SFmul].
  apply (binary_round_aux_bounds false).
  pose proof (digits2_pos_mul mx my). lia.
Qed.

(** Every float64 number has a ceiling. *)
Lemma isCeiling_exists (x : float64) :
  match x with S754_zero _ | S754_finite _ _ _ => True | _ => False end ->
  exists c, isCeiling x c.
Proof.
  destruct x as [s|s| |s m e]; try contradiction; intros _.
  - by exists 0.
  - simpl. destruct (Z.leb_spec 0 e) as [He|He]; [by eexists|].
    exists (- (- signed_mantissa s m / 2 ^ (- e))).
    assert (HP : 0 < 2 ^ (- e)) by (apply Z.pow_pos_nonneg; lia).
    pose proof (Z.div_mod (- signed_mantissa s m) (2 ^ (- e)) ltac:(lia)) as Hdiv.
    pose proof (Z.mod_pos_bound (- signed_mantissa s m) (2 ^ (- e)) HP) as Hmod.
    nia.
Qed.

(** The ceiling of a float that is a zero or positive, with a mantissa
    below [2^53] and a value of at most [2^54], lies between 0 and
    [2^54]. *)
Lemma isCeiling_range (x : float64) (c : Z) :
  match x with
  | S754_zero _ => True
  | S754_finite s m e =>
      s = false /\ Z.pos m < 2 ^ 53 /\ (0 <= e -> Z.pos m * 2 ^ e <= 2 ^ 54)
  | _ => False
  end ->
  isCeiling x c ->
  0 <= c <= 2 ^ 54.
Proof.
  intros Hmag Hceil. destruct x as [s|s| |s m e]; try contradiction.
  - simpl in Hceil. subst c. split; [|apply Z.pow_nonneg]; lia.
  - simpl in Hceil. destruct Hmag as (-> & Hm & Hval).
    assert (H54 : 2 ^ 53 < 2 ^ 54) by (apply Z.pow_lt_mono_r; lia).
    cbn [signed_mantissa] in Hceil.
    destruct (Z.leb_spec 0 e) as [He|He].
    + specialize (Hval He). subst c. split; [|done].
      apply Z.mul_nonneg_nonneg; [lia|apply Z.pow_nonneg; lia].
    + assert (HP : 2 <= 2 ^ (- e)).
      { change 2 with (2 ^ 1) at 1. apply Z.pow_le_mono_r; lia. }
      nia.
Qed.

(** [int(math.Ceil(x))] is the ceiling of [x] when it fits an [int]. *)
Lemma int_of_Ceil (x : float64) (c : Z) :
  match x with S754_finite _ m _ => Z.pos m < 2 ^ 53 | _ => True end ->
  isCeiling x c ->
  - 2 ^ 63 <= c < 2 ^ 63 ->
  int_of_f64 (math_Ceil x) = c.
Proof.
  intros Hm Hceil Hrange. destruct x as [s|s| |s m e]; try contradiction.
  - simpl in Hceil. by subst c.
  - simpl in Hceil. unfold math_Ceil. destruct (Z.leb_spec 0 e) as [He|He].
    + unfold int_of_f64. destruct (Z.leb_spec 0 e); [|lia].
      assert (Hv : (if s then - (Z.pos m * 2 ^ e) else Z.pos m * 2 ^ e) = c).
      { subst c. destruct s; simpl; lia. }
      rewrite Hv.
      destruct (Z.leb_spec (- 2 ^ 63) c), (Z.ltb_spec c (2 ^ 63)); simpl; lia.
    + set (P := 2 ^ (- e)) in *.
      assert (HP : 2 <= P).
      { unfold P. change 2 with (2 ^ 1) at 1. apply Z.pow_le_mono_r; lia. }
      assert (Hc : - (- signed_mantissa s m / P) = c).
      { pose proof (Z.div_mod (- signed_mantissa s m) P ltac:(lia)) as Hdiv.
        pose proof (Z.mod_pos_bound (- signed_mantissa s m) P ltac:(lia)) as Hmod.
        nia. }
      rewrite Hc.
      assert (Hsm : - 2 ^ 53 < signed_mantissa s m < 2 ^ 53).
      { unfold signed_mantissa. destruct s; lia. }
      destruct (Z.eqb_spec c 0) as [->|Hne]; [done|].
      apply int_of_f64_of_int. nia.
Qed.

(** ** The FP-tree: root counts and depth *)

Lemma alterNode_count (f : fpNode -> fpNode) (addr : list Item) (n : fpNode) :
  (addr = [] -> n_count (f n) = n_count n) ->
  n_count (alterNode f addr n) = n_count n.
Proof. destruct addr; simpl; auto. Qed.

Lemma Insert_step_root_count (w : Z) (t : fpTree) (cur : list Item) (i : Item) :
  n_count (root (fst (Insert_step w (t, cur) i))) = n_count (root t).
Proof.
  unfold Insert_step. simpl.
  rewrite alterNode_count by (by destruct cur).
  destruct (nodeAt (root t) (cur ++ [i])); simpl; [done|].
  by apply alterNode_count.
Qed.

Lemma Insert_steps_root_count (w : Z) (path : list Item) (st : fpTree * list Item) :
  n_count (root (fst (fold_left (Insert_step w) path st))) = n_count (root (fst st)).
Proof.
  revert st. induction path as [|i path IH]; intros [t cur]; cbn [fold_left]; [done|].
  rewrite IH. apply Insert_step_root_count.
Qed.

Lemma Insert_root_count (t : fpTree) (path : list Item) (w : Z) :
  n_count (root (fpTree_Insert t path w)) = n_count (root t) + w.
Proof. unfold fpTree_Insert. by rewrite Insert_steps_root_count. Qed.

Lemma makeConditionalTree_root_count (tree : fpTree) (head : list (list Item)) :
  n_count (root (makeConditionalTree tree head)) = foldr Z.add 0 (map (nodeCount tree) head).
Proof.
  unfold makeConditionalTree.
  assert (Hgen : forall acc,
    n_count (root (fold_left
      (fun ct addr => fpTree_Insert ct (removelast addr) (nodeCount tree addr)) head acc))
    = n_count (root acc) + foldr Z.add 0 (map (nodeCount tree) head)).
  { induction head as [|addr head IH]; intros acc; simpl; [lia|].
    rewrite IH, Insert_root_count. lia. }
  rewrite Hgen. simpl. lia.
Qed.

Lemma headerBound_newTree (n : nat) : headerBound n newTree.
Proof. intros i chain Hi. simpl in Hi. by rewrite lookup_empty in Hi. Qed.

Lemma headerBound_Insert_step (n : nat) (w : Z) (t : fpTree) (cur : list Item) (i : Item) :
  headerBound n t -> (length cur < n)%nat ->
  headerBound n (fst (Insert_step w (t, cur) i)) /\
  snd (Insert_step w (t, cur) i) = cur ++ [i].
Proof.
  intros Ht Hcur. split; [|done]. unfold Insert_step. simpl.
  destruct (nodeAt (root t) (cur ++ [i])); simpl; [exact Ht|].
  intros j chain. simpl. destruct (decide (i = j)) as [->|Hne].
  - rewrite lookup_insert_eq. intros [= <-]. split; [done|].
    intros addr [->|Haddr]%elem_of_cons.
    + rewrite length_app. simpl. lia.
    + unfold headerChain in Haddr.
      destruct (itemList t !! j) as [chain|] eqn:Hj; simpl in Haddr.
      * by apply (Ht j chain).
      * by apply elem_of_nil in Haddr.
  - rewrite lookup_insert_ne by done. apply Ht.
Qed.

Lemma headerBound_Insert_steps (n : nat) (w : Z) (path : list Item) (t : fpTree) (cur : list Item) :
  headerBound n t -> (length cur + length path <= n)%nat ->
  headerBound n (fst (fold_left (Insert_step w) path (t, cur))).
Proof.
  revert t cur. induction path as [|i path IH]; intros t cur Ht Hlen; cbn [fold_left]; [done|].
  simpl in Hlen.
  destruct (headerBound_Insert_step n w t cur i Ht ltac:(lia)) as [Ht' Hcur'].
  destruct (Insert_step w (t, cur) i) as [t' cur'] eqn:Hstep.
  cbn [fst snd] in Ht', Hcur'. subst cur'.
  apply IH; [exact Ht'|]. rewrite length_app. simpl. lia.
Qed.

Lemma headerBound_Insert (n : nat) (t : fpTree) (path : list Item) (w : Z) :
  headerBound n t -> (length path <= n)%nat -> headerBound n (fpTree_Insert t path w).
Proof.
  intros Ht Hlen. unfold fpTree_Insert. apply headerBound_Insert_steps; [|simpl; lia].
  exact Ht.
Qed.

Lemma headerBound_makeConditionalTree (n : nat) (tree : fpTree) (head : list (list Item)) :
  (forall addr, addr ∈ head -> (length addr <= S n)%nat) ->
  headerBound n (makeConditionalTree tree head).
Proof.
  unfold makeConditionalTree. generalize (headerBound_newTree n). generalize newTree.
  induction head as [|addr head IH]; intros acc Hacc Hhead; simpl; [done|].
  apply IH.
  - apply headerBound_Insert; [done|].
    assert (length addr <= S n)%nat by (apply Hhead; left).
    destruct addr as [|x addr] using rev_ind; [simpl; lia|].
    rewrite removelast_last. rewrite length_app in *. simpl in *. lia.
  - intros addr' Haddr'. apply Hhead. by right.
Qed.

Lemma elem_of_header_addresses (t : fpTree) (addr : list Item) :
  addr ∈ concat (map snd (map_to_list (itemList t))) <->
  exists i chain, itemList t !! i = Some chain /\ addr ∈ chain.
Proof.
  rewrite list_elem_of_In, in_concat. setoid_rewrite <- list_elem_of_In. split.
  - intros (chain & Hchain & Haddr).
    apply list_elem_of_fmap in Hchain as ([i chain'] & -> & Hin).
    apply elem_of_map_to_list in Hin. eauto.
  - intros (i & chain & Hi & Haddr). exists chain. split; [|done].
    apply list_elem_of_fmap. exists (i, chain). split; [done|].
    by apply elem_of_map_to_list.
Qed.

Lemma treeHeight_ge (t : fpTree) (i : Item) (addr : list Item) :
  addr ∈ headerChain t i -> (length addr <= treeHeight t)%nat.
Proof.
  intros Haddr. unfold treeHeight. apply max_list_elem_of_le.
  apply list_elem_of_fmap. exists addr. split; [done|].
  apply elem_of_header_addresses. unfold headerChain in Haddr.
  destruct (itemList t !! i) as [chain|] eqn:Hi; simpl in Haddr; [eauto|].
  by apply elem_of_nil in Haddr.
Qed.

Lemma headerBound_empty (t : fpTree) : headerBound 0 t -> itemList t = ∅.
Proof.
  intros Ht. apply map_empty. intros i.
  destruct (itemList t !! i) as [chain|] eqn:Hi; [|done].
  destruct (Ht i chain Hi) as [Hne Hlen].
  destruct chain as [|addr chain]; [done|].
  specialize (Hlen addr ltac:(left)). lia.
Qed.

Lemma frequentItemsInTree_empty (t : fpTree) (minCount : Z) :
  itemList t = ∅ -> frequentItemsInTree t minCount = [].
Proof. intros Ht. unfold frequentItemsInTree. by rewrite Ht, map_to_list_empty. Qed.

Lemma treeHeight_le (n : nat) (t : fpTree) :
  headerBound n t -> (treeHeight t <= n)%nat.
Proof.
  intros Ht. unfold treeHeight.
  assert (Hall : Forall (fun addr => (length addr <= n)%nat)
                   (concat (map snd (map_to_list (itemList t))))).
  { apply Forall_forall. intros addr Haddr.
    apply elem_of_header_addresses in Haddr as (i & chain & Hi & Haddr).
    destruct (Ht i chain Hi) as [_ Hlen]. specialize (Hlen addr Haddr). lia. }
  induction Hall as [|addr l Haddr _ IH]; simpl; lia.
Qed.

(** The conditional tree of an item is less deep than the tree, unless it
    is empty. *)
Lemma makeConditionalTree_smaller (tree : fpTree) (i : Item) (minCount : Z) :
  let ct := makeConditionalTree tree (headerChain tree i) in
  frequentItemsInTree ct minCount = [] \/ (treeHeight ct < treeHeight tree)%nat.
Proof.
  intros ct.
  assert (Hct : headerBound (pred (treeHeight tree)) ct).
  { apply headerBound_makeConditionalTree. intros addr Haddr.
    apply treeHeight_ge in Haddr. lia. }
  destruct (treeHeight tree) as [|h] eqn:Hh.
  - left. by apply frequentItemsInTree_empty, headerBound_empty.
  - right. apply treeHeight_le in Hct. simpl in Hct. lia.
Qed.

(** ** Sequential FP-Growth: the fuel is enough *)

Lemma fpGrowth_fuel_nil (fuel : nat) (minCount : Z) (tree : fpTree) (prefix : list Item) :
  frequentItemsInTree tree minCount = [] ->
  fpGrowth_fuel fuel minCount tree prefix = [].
Proof. intros Hnil. destruct fuel; simpl; [done|]. by rewrite Hnil. Qed.

Lemma fpGrowth_fuel_enough (fuel : nat) (minCount : Z) (tree : fpTree) (prefix : list Item) :
  (treeHeight tree < fuel)%nat ->
  fpGrowth_fuel fuel minCount tree prefix = fpGrowth tree prefix minCount.
Proof.
  revert tree prefix. induction fuel as [fuel IH] using lt_wf_ind.
  intros tree prefix Hfuel. destruct fuel as [|fuel]; [lia|].
  unfold fpGrowth. simpl. apply flat_map_ext. intros i.
  unfold mineItem. f_equal.
  destruct (makeConditionalTree_smaller tree i minCount) as [Hnil|Hlt].
  - by rewrite !fpGrowth_fuel_nil.
  - rewrite (IH fuel) by lia. rewrite (IH (treeHeight tree)) by lia. done.
Qed.

(** The equation of [fpGrowth]: the recursion of the spec, without fuel. *)
Lemma fpGrowth_unfold (tree : fpTree) (prefix : list Item) (minCount : Z) :
  fpGrowth tree prefix minCount =
  flat_map (mineItem (fun t p => fpGrowth t p minCount) tree prefix)
    (frequentItemsInTree tree minCount).
Proof.
  unfold fpGrowth at 1. simpl. apply flat_map_ext. intros i.
  unfold mineItem. f_equal.
  destruct (makeConditionalTree_smaller tree i minCount) as [Hnil|Hlt].
  - unfold fpGrowth. by rewrite !fpGrowth_fuel_nil.
  - by apply fpGrowth_fuel_enough.
Qed.

(** ** The scheduler *)

Lemma list_insert_split {A} (l : list A) (k : nat) (x y : A) :
  l !! k = Some x ->
  exists l1 l2, l = l1 ++ x :: l2 /\ <[k:=y]> l = l1 ++ y :: l2.
Proof.
  intros Hk. exists (take k l), (drop (S k) l). split.
  - by rewrite take_drop_middle.
  - apply insert_take_drop. by eapply lookup_lt_Some.
Qed.

Lemma pendingOfItems_perm (minCount : Z) (tree : fpTree) (prefix items items' : list Item) :
  items ≡ₚ items' ->
  pendingOfItems minCount tree prefix items ≡ₚ pendingOfItems minCount tree prefix items'.
Proof. intros Hperm. unfold pendingOfItems. by rewrite Hperm. Qed.

Lemma pendingOfItems_frequent (minCount : Z) (tree : fpTree) (prefix items : list Item) :
  items ≡ₚ frequentItemsInTree tree minCount ->
  pendingOfItems minCount tree prefix items ≡ₚ fpGrowth tree prefix minCount.
Proof.
  intros Hperm. rewrite fpGrowth_unfold. by apply pendingOfItems_perm.
Qed.

Lemma pendingOfWorkerTask_eq (minCount : Z) (task : workerTask) :
  pendingOfWorkerTask minCount task =
  pendingOfWorker minCount
    (WorkerEmit (makeConditionalTree (wt_tree task) (headerChain (wt_tree task) (wt_item task)))
                (appendSorted (wt_itemset task) (wt_item task))).
Proof.
  unfold pendingOfWorkerTask, pendingOfItems, mineItem. simpl.
  by rewrite app_nil_r, makeConditionalTree_root_count.
Qed.

Lemma pendingOfMasterTask_push (minCount : Z) (task : masterTask) (ts : list masterTask) :
  flat_map (pendingOfMasterTask minCount) (pushTask task ts) =
  flat_map (pendingOfMasterTask minCount) ts ++ pendingOfMasterTask minCount task.
Proof.
  unfold pushTask. destruct (mt_items task) eqn:Hitems; simpl.
  - unfold pendingOfMasterTask, pendingOfItems. rewrite Hitems. simpl. by rewrite app_nil_r.
  - rewrite flat_map_app. simpl. by rewrite app_nil_r.
Qed.

(** A step moves itemsets from what is pending to the output, and loses or
    adds none. *)
Lemma step_pending (minCount : Z) (capToWorker capFromWorker : nat) (s s' : system) :
  step minCount capToWorker capFromWorker s s' ->
  output s' ++ pending minCount s' ≡ₚ output s ++ pending minCount s.
Proof.
  destruct 1 as [s ts lastTask item items task rest _ Htasks Hitems Hfrom
                |s ts lastTask item items _ Htasks Hitems _
                |s ts lastTask _ _ _
                |s task rest _ _ _ Hfrom
                |s _ _ _
                |s k task rest _ Hk Hto
                |s k _ Hk _ _
                |s k conditionalTree prefix items _ Hk Hperm
                |s k task _ Hk _];
    unfold pending;
    cbn [tasks toWorker fromWorker workers output afterReceive afterSend setMaster setWorker].
  - rewrite Hfrom, pendingOfMasterTask_push. cbn [flat_map]. solve_Permutation.
  - rewrite Htasks, !flat_map_app. cbn [flat_map]. rewrite !app_nil_r.
    assert (Hlast : pendingOfMasterTask minCount lastTask =
                    pendingOfWorkerTask minCount
                      {| wt_tree := mt_tree lastTask; wt_item := item;
                         wt_itemset := mt_itemset lastTask |}
                    ++ pendingOfMasterTask minCount
                         {| mt_tree := mt_tree lastTask; mt_itemset := mt_itemset lastTask;
                            mt_items := items |}).
    { unfold pendingOfMasterTask, pendingOfWorkerTask, pendingOfItems. rewrite Hitems.
      simpl. by rewrite app_nil_r. }
    rewrite Hlast, Hitems. cbn [length Nat.eqb].
    destruct items as [|item' items]; cbn [length Nat.eqb].
    + unfold pendingOfMasterTask at 2. unfold pendingOfItems. cbn [flat_map mt_items].
      rewrite !app_nil_r. solve_Permutation.
    + rewrite flat_map_app. cbn [flat_map]. rewrite !app_nil_r. solve_Permutation.
  - done.
  - rewrite Hfrom, pendingOfMasterTask_push. cbn [flat_map]. solve_Permutation.
  - done.
  - destruct (list_insert_split (workers s) k WorkerReceive
                (WorkerEmit (makeConditionalTree (wt_tree task)
                               (headerChain (wt_tree task) (wt_item task)))
                            (appendSorted (wt_itemset task) (wt_item task))) Hk)
      as (l1 & l2 & Hl & ->).
    rewrite Hl, Hto, !flat_map_app. cbn [flat_map]. rewrite pendingOfWorkerTask_eq.
    cbn [pendingOfWorker]. solve_Permutation.
  - destruct (list_insert_split (workers s) k WorkerReceive WorkerReturned Hk)
      as (l1 & l2 & Hl & ->).
    rewrite Hl, !flat_map_app. cbn [flat_map pendingOfWorker]. done.
  - destruct (list_insert_split (workers s) k (WorkerEmit conditionalTree prefix)
                (WorkerReply {| mt_tree := conditionalTree; mt_itemset := prefix;
                                mt_items := items |}) Hk)
      as (l1 & l2 & Hl & ->).
    rewrite Hl, !flat_map_app. cbn [flat_map pendingOfWorker].
    unfold pendingOfMasterTask at 3. cbn [mt_tree mt_itemset mt_items].
    rewrite (pendingOfItems_frequent minCount conditionalTree prefix items Hperm).
    solve_Permutation.
  - destruct (list_insert_split (workers s) k (WorkerReply task) WorkerReceive Hk)
      as (l1 & l2 & Hl & ->).
    rewrite Hl, !flat_map_app. cbn [flat_map pendingOfWorker]. rewrite app_nil_r.
    solve_Permutation.
Qed.

Lemma sum_list_with_insert {A} (f : A -> nat) (l : list A) (k : nat) (x y : A) :
  l !! k = Some x ->
  (sum_list_with f (<[k:=y]> l) + f x = sum_list_with f l + f y)%nat.
Proof.
  intros Hk. destruct (list_insert_split l k x y Hk) as (l1 & l2 & Hl & ->).
  rewrite Hl, !sum_list_with_app. simpl. lia.
Qed.

Lemma pendingOfWorkerTask_length (minCount : Z) (task : workerTask) :
  length (pendingOfWorkerTask minCount task) =
  S (length (fpGrowth (makeConditionalTree (wt_tree task)
                         (headerChain (wt_tree task) (wt_item task)))
                      (appendSorted (wt_itemset task) (wt_item task)) minCount)).
Proof. by rewrite pendingOfWorkerTask_eq. Qed.

(** Every step uses up one of the steps that are left. *)
Lemma step_stepsLeft (minCount : Z) (capToWorker capFromWorker : nat) (s s' : system) :
  step minCount capToWorker capFromWorker s s' ->
  stepsLeft minCount s = S (stepsLeft minCount s').
Proof.
  destruct 1 as [s ts lastTask item items task rest Hm Htasks Hitems Hfrom
                |s ts lastTask item items Hm Htasks Hitems _
                |s ts lastTask Hm _ _
                |s task rest Hm _ _ Hfrom
                |s Hm _ _
                |s k task rest _ Hk Hto
                |s k _ Hk _ _
                |s k conditionalTree prefix items _ Hk Hperm
                |s k task _ Hk _];
    unfold stepsLeft;
    cbn [tasks toWorker fromWorker workers output masterAt
         afterReceive afterSend setMaster setWorker].
  - rewrite Hm, Hfrom, pendingOfMasterTask_push, length_app. simpl. lia.
  - rewrite Hm, Htasks, !flat_map_app, !length_app, sum_list_with_app. cbn [flat_map].
    rewrite !app_nil_r.
    assert (Hlast : length (pendingOfMasterTask minCount lastTask) =
                    (length (pendingOfWorkerTask minCount
                               {| wt_tree := mt_tree lastTask; wt_item := item;
                                  wt_itemset := mt_itemset lastTask |})
                     + length (pendingOfMasterTask minCount
                                 {| mt_tree := mt_tree lastTask;
                                    mt_itemset := mt_itemset lastTask;
                                    mt_items := items |}))%nat).
    { unfold pendingOfMasterTask, pendingOfWorkerTask, pendingOfItems. rewrite Hitems.
      simpl. by rewrite app_nil_r, !length_app. }
    rewrite Hlast, Hitems. cbn [sum_list_with].
    rewrite pendingOfWorkerTask_length.
    destruct items as [|item' items]; cbn [length Nat.eqb].
    + change (pendingOfMasterTask minCount
                {| mt_tree := mt_tree lastTask; mt_itemset := mt_itemset lastTask;
                   mt_items := [] |}) with (@nil itemsetWithCount) in *.
      cbn [length] in *. lia.
    + rewrite flat_map_app, length_app. cbn [flat_map]. rewrite !app_nil_r. lia.
  - rewrite Hm. simpl. lia.
  - rewrite Hm, Hfrom, pendingOfMasterTask_push, length_app. simpl. lia.
  - rewrite Hm. simpl. lia.
  - pose proof (sum_list_with_insert (stepsOfWorker minCount) (workers s) k WorkerReceive
                  (WorkerEmit (makeConditionalTree (wt_tree task)
                                 (headerChain (wt_tree task) (wt_item task)))
                              (appendSorted (wt_itemset task) (wt_item task))) Hk) as Hsum.
    rewrite Hto. cbn [sum_list_with stepsOfWorker] in *.
    rewrite pendingOfWorkerTask_length. lia.
  - pose proof (sum_list_with_insert (stepsOfWorker minCount) (workers s) k WorkerReceive
                  WorkerReturned Hk) as Hsum.
    cbn [stepsOfWorker] in Hsum. lia.
  - pose proof (sum_list_with_insert (stepsOfWorker minCount) (workers s) k
                  (WorkerEmit conditionalTree prefix)
                  (WorkerReply {| mt_tree := conditionalTree; mt_itemset := prefix;
                                  mt_items := items |}) Hk) as Hsum.
    cbn [stepsOfWorker] in Hsum.
    assert (Hlen : length (pendingOfMasterTask minCount
                             {| mt_tree := conditionalTree; mt_itemset := prefix;
                                mt_items := items |})
                   = length (fpGrowth conditionalTree prefix minCount)).
    { unfold pendingOfMasterTask. cbn [mt_tree mt_itemset mt_items].
      by rewrite (pendingOfItems_frequent minCount conditionalTree prefix items Hperm). }
    rewrite Hlen in Hsum. lia.
  - pose proof (sum_list_with_insert (stepsOfWorker minCount) (workers s) k
                  (WorkerReply task) WorkerReceive Hk) as Hsum.
    cbn [stepsOfWorker] in Hsum. rewrite sum_list_with_app. simpl. lia.
Qed.

Lemma nsteps_stepsLeft (minCount : Z) (capToWorker capFromWorker n : nat) (s s' : system) :
  nsteps (step minCount capToWorker capFromWorker) n s s' ->
  stepsLeft minCount s = (n + stepsLeft minCount s')%nat.
Proof.
  induction 1 as [|n s1 s2 s3 Hstep _ IH]; [done|].
  rewrite (step_stepsLeft _ _ _ _ _ Hstep), IH. lia.
Qed.

Lemma pendingOfWorker_idle (minCount : Z) (n : nat) :
  flat_map (pendingOfWorker minCount) (replicate n WorkerReceive) = [].
Proof. induction n as [|n IH]; simpl; [done|exact IH]. Qed.

Lemma busy_idle (n : nat) : sum_list_with busy (replicate n WorkerReceive) = 0%nat.
Proof. induction n as [|n IH]; simpl; [done|exact IH]. Qed.

Lemma elem_of_insert_inv {A} (l : list A) (k : nat) (x y z : A) :
  l !! k = Some x -> z ∈ <[k:=y]> l -> z = y \/ z ∈ l.
Proof.
  intros Hk Hz. destruct (list_insert_split l k x y Hk) as (l1 & l2 & Hl & Hins).
  rewrite Hins in Hz. rewrite Hl.
  rewrite elem_of_app, elem_of_cons in Hz. rewrite elem_of_app, elem_of_cons. tauto.
Qed.

Lemma initial_invariant (minCount : Z) (nWorkers : nat) (tree : fpTree) (items : list Item) :
  items ≡ₚ frequentItemsInTree tree minCount ->
  items <> [] ->
  invariant minCount nWorkers tree (initialSystem tree items nWorkers).
Proof.
  intros Hperm Hne. split; cbn [initialSystem tasks toWorker fromWorker workers output
                                  masterAt outstandingJobs toWorkerClosed].
  - unfold pending. cbn [initialSystem tasks toWorker fromWorker workers flat_map].
    rewrite pendingOfWorker_idle, !app_nil_r. cbn [app].
    by apply pendingOfItems_frequent.
  - rewrite busy_idle. done.
  - by constructor.
  - apply length_replicate.
  - split; [done|]. intros Hin%elem_of_replicate_inv. done.
Qed.

Lemma step_invariant (minCount : Z) (capToWorker capFromWorker nWorkers : nat)
    (tree : fpTree) (s s' : system) :
  invariant minCount nWorkers tree s ->
  step minCount capToWorker capFromWorker s s' ->
  invariant minCount nWorkers tree s'.
Proof.
  intros [Hout Hjobs Htasks Hworkers Hmaster] Hstep.
  pose proof (step_pending _ _ _ _ _ Hstep) as Hpending.
  assert (Hout' : output s' ++ pending minCount s' ≡ₚ fpGrowth tree [] minCount)
    by (by rewrite Hpending).
  clear Hpending Hout.
  destruct Hstep as [s ts lastTask item items task rest Hm Hts Hitems Hfrom
                    |s ts lastTask item items Hm Hts Hitems Hroom
                    |s ts lastTask Hm Hts Hitems
                    |s task rest Hm Hts Hpos Hfrom
                    |s Hm Hts Hle
                    |s k task rest Hm Hk Hto
                    |s k Hm Hk Hto Hclosed
                    |s k conditionalTree prefix items Hm Hk Hperm
                    |s k task Hm Hk Hroom];
    split; try exact Hout';
    cbn [tasks toWorker fromWorker workers output masterAt outstandingJobs toWorkerClosed
         afterReceive afterSend setMaster setWorker] in *;
    try (rewrite Hm in Hmaster);
    try (rewrite length_insert; exact Hworkers);
    try exact Hworkers; try exact Htasks; try exact Hjobs.
  - rewrite Hfrom in Hjobs. cbn [length] in Hjobs. lia.
  - unfold pushTask. destruct (mt_items task) eqn:Ht; simpl; [done|].
    apply Forall_app. split; [done|]. constructor; [|done]. by rewrite Ht.
  - exact Hmaster.
  - rewrite length_app. cbn [length]. lia.
  - rewrite Hts in Htasks.
    destruct (proj1 (Forall_app _ _ _) Htasks) as [Hts' _].
    rewrite Hitems. destruct items as [|item' items]; simpl; [done|].
    apply Forall_app. split; [done|]. by constructor.
  - exact Hmaster.
  - rewrite Hts in Htasks.
    destruct (proj1 (Forall_app _ _ _) Htasks) as [_ Hlast].
    inversion Hlast as [|? ? Hne _]; subst. exact (Hne Hitems).
  - rewrite Hfrom in Hjobs. cbn [length] in Hjobs. lia.
  - unfold pushTask. destruct (mt_items task) eqn:Ht; simpl; [done|].
    apply Forall_app. split; [done|]. constructor; [|done]. by rewrite Ht.
  - exact Hmaster.
  - split_and!; [done|done|lia].
  - pose proof (sum_list_with_insert busy (workers s) k _
                  (WorkerEmit (makeConditionalTree (wt_tree task)
                                 (headerChain (wt_tree task) (wt_item task)))
                              (appendSorted (wt_itemset task) (wt_item task))) Hk) as Hsum.
    rewrite Hto in Hjobs. simpl in *. lia.
  - destruct (masterAt s); [|done|done].
    destruct Hmaster as [Hclosed Hnone]. split; [done|].
    intros [Hin|Hin]%(elem_of_insert_inv _ _ _ _ _ Hk); done.
  - pose proof (sum_list_with_insert busy (workers s) k _ WorkerReturned Hk) as Hsum.
    simpl in *. lia.
  - destruct (masterAt s); [|done|done].
    destruct Hmaster as [Hopen _]. congruence.
  - pose proof (sum_list_with_insert busy (workers s) k _
                  (WorkerReply {| mt_tree := conditionalTree; mt_itemset := prefix;
                                  mt_items := items |}) Hk) as Hsum.
    simpl in *. lia.
  - destruct (masterAt s); [|done|done].
    destruct Hmaster as [Hclosed Hnone]. split; [done|].
    intros [Hin|Hin]%(elem_of_insert_inv _ _ _ _ _ Hk); done.
  - pose proof (sum_list_with_insert busy (workers s) k _ WorkerReceive Hk) as Hsum.
    rewrite length_app. simpl in *. lia.
  - destruct (masterAt s); [|done|done].
    destruct Hmaster as [Hclosed Hnone]. split; [done|].
    intros [Hin|Hin]%(elem_of_insert_inv _ _ _ _ _ Hk); done.
Qed.

Lemma reachable_invariant (minCount : Z) (capToWorker capFromWorker nWorkers : nat)
    (tree : fpTree) (s : system) :
  frequentItemsInTree tree minCount <> [] ->
  reachable minCount capToWorker capFromWorker nWorkers tree s ->
  invariant minCount nWorkers tree s.
Proof.
  intros Hne (items & Hperm & Hrun). revert s Hrun. apply rtc_ind_r.
  - apply initial_invariant; [done|].
    intros ->. apply Permutation_nil in Hperm. by symmetry in Hperm.
  - intros s1 s2 _ Hstep IH. by eapply step_invariant.
Qed.

Lemma busy_worker (l : list workerPC) :
  (0 < sum_list_with busy l)%nat ->
  exists k pc, l !! k = Some pc /\ busy pc = 1%nat.
Proof.
  induction l as [|pc l IH]; simpl; [lia|]. intros Hsum.
  destruct (busy pc) eqn:Hpc.
  - destruct (IH Hsum) as (k & pc' & Hk & Hbusy). by exists (S k), pc'.
  - exists 0%nat, pc. split; [done|]. by destruct pc.
Qed.

Lemma worker_not_returned (l : list workerPC) :
  Forall (fun pc => pc = WorkerReturned) l \/
  exists k pc, l !! k = Some pc /\ pc <> WorkerReturned.
Proof.
  induction l as [|pc l [IH|(k & pc' & Hk & Hne)]].
  - by left.
  - destruct pc; try (right; by eexists 0%nat, _). left. by constructor.
  - right. by exists (S k), pc'.
Qed.

(** A worker that holds a job can always take its next step, once there is
    room in [fromWorker] for its reply. *)
Lemma busy_worker_steps (minCount : Z) (capToWorker capFromWorker : nat) (s : system)
    (k : nat) (pc : workerPC) :
  masterAt s <> MasterPanicked ->
  workers s !! k = Some pc ->
  busy pc = 1%nat ->
  (length (fromWorker s) < capFromWorker)%nat ->
  exists s', step minCount capToWorker capFromWorker s s'.
Proof.
  intros Hm Hk Hbusy Hroom. destruct pc as [|conditionalTree prefix|task|]; try done.
  - eexists. by eapply step_worker_emit.
  - eexists. by eapply step_worker_reply.
Qed.

(** No deadlock: with at least one worker and room for one element in each
    channel, some goroutine can take a step until the run is over. *)
Lemma invariant_progress (minCount : Z) (capToWorker capFromWorker nWorkers : nat)
    (tree : fpTree) (s : system) :
  (0 < nWorkers)%nat -> (0 < capToWorker)%nat -> (0 < capFromWorker)%nat ->
  invariant minCount nWorkers tree s ->
  (exists s', step minCount capToWorker capFromWorker s s') \/ finished s.
Proof.
  intros HW HcapW HcapM [_ Hjobs Htasks Hworkers Hmaster].
  assert (Hfirst : exists pc, workers s !! 0%nat = Some pc).
  { destruct (workers s); simpl in *; [lia|eauto]. }
  destruct Hfirst as [pc0 Hpc0].
  destruct (masterAt s) eqn:Hm; [| |done].
  - destruct Hmaster as [Hopen Hnone]. left.
    assert (Hnp : masterAt s <> MasterPanicked) by congruence.
    assert (Hidle : toWorker s <> [] -> fromWorker s = [] ->
                    exists s', step minCount capToWorker capFromWorker s s').
    { intros Hto Hfrom. destruct pc0 as [|conditionalTree prefix|task|].
      - destruct (toWorker s) as [|task rest] eqn:Hto'; [done|].
        eexists. by eapply step_worker_receive.
      - eapply busy_worker_steps; eauto. rewrite Hfrom. simpl. lia.
      - eapply busy_worker_steps; eauto. rewrite Hfrom. simpl. lia.
      - exfalso. apply Hnone. by eapply list_elem_of_lookup_2. }
    destruct (tasks s) as [|task0 ts0] eqn:Hts using rev_ind.
    + destruct (fromWorker s) as [|task rest] eqn:Hfrom.
      * destruct (Z.le_gt_cases (outstandingJobs s) 0) as [Hle|Hgt].
        { eexists. by eapply step_master_return. }
        destruct (toWorker s) as [|wtask wrest] eqn:Hto.
        -- assert (Hbusy : (0 < sum_list_with busy (workers s))%nat) by (simpl in *; lia).
           destruct (busy_worker _ Hbusy) as (k & pc & Hk & Hpc).
           eapply busy_worker_steps; eauto. rewrite Hfrom. simpl. lia.
        -- rewrite <- Hto in *. apply Hidle; [|done]. by rewrite Hto.
      * destruct (Z.le_gt_cases (outstandingJobs s) 0) as [Hle|Hgt].
        { simpl in *. lia. }
        eexists. eapply step_idle_receive; eauto.
    + clear IHts0.
      destruct (proj1 (Forall_app _ _ _) Htasks) as [_ Hlast].
      inversion Hlast as [|? ? Hne _]; subst.
      destruct (mt_items task0) as [|item items] eqn:Hitems; [done|].
      destruct (fromWorker s) as [|task rest] eqn:Hfrom.
      * destruct (Nat.lt_ge_cases (length (toWorker s)) capToWorker) as [Hroom|Hfull].
        { eexists. by eapply step_select_send. }
        apply Hidle; [|done]. intros Hnil. rewrite Hnil in Hfull. simpl in Hfull. lia.
      * eexists. by eapply step_select_receive.
  - destruct Hmaster as (Hclosed & Hts & Hzero).
    assert (Hto : toWorker s = []).
    { destruct (toWorker s); [done|]. simpl in *. lia. }
    assert (Hbusy : sum_list_with busy (workers s) = 0%nat) by lia.
    destruct (worker_not_returned (workers s)) as [Hall|(k & pc & Hk & Hne)].
    + right. by split.
    + left. destruct pc as [|conditionalTree prefix|task|]; [| | |done].
      * eexists. eapply step_worker_return; eauto. congruence.
      * pose proof (sum_list_with_insert busy (workers s) k _ WorkerReceive Hk).
        simpl in *. lia.
      * pose proof (sum_list_with_insert busy (workers s) k _ WorkerReceive Hk).
        simpl in *. lia.
Qed.

Lemma pendingOfWorker_not_busy (minCount : Z) (l : list workerPC) :
  sum_list_with busy l = 0%nat -> flat_map (pendingOfWorker minCount) l = [].
Proof.
  induction l as [|pc l IH]; simpl; [done|]. intros Hsum.
  destruct pc; simpl in *; try lia; apply IH; lia.
Qed.

(** When the master has returned, nothing is pending: the output is the
    result of the sequential miner, up to the order. *)
Lemma invariant_returned (minCount : Z) (nWorkers : nat) (tree : fpTree) (s : system) :
  invariant minCount nWorkers tree s ->
  masterAt s = MasterReturned ->
  output s ≡ₚ fpGrowth tree [] minCount.
Proof.
  intros [Hout Hjobs _ _ Hmaster] Hm. rewrite Hm in Hmaster.
  destruct Hmaster as (_ & Hts & Hzero).
  assert (Hto : toWorker s = []) by (destruct (toWorker s); [done|simpl in *; lia]).
  assert (Hfrom : fromWorker s = []) by (destruct (fromWorker s); [done|simpl in *; lia]).
  assert (Hbusy : sum_list_with busy (workers s) = 0%nat) by lia.
  unfold pending in Hout.
  rewrite Hts, Hto, Hfrom, (pendingOfWorker_not_busy _ _ Hbusy) in Hout.
  simpl in Hout. by rewrite app_nil_r in Hout.
Qed.

(** Every run can be continued to its end, and it ends with the master
    and all the workers returned. *)
Lemma invariant_completes (minCount : Z) (capToWorker capFromWorker nWorkers : nat)
    (tree : fpTree) (s : system) :
  (0 < nWorkers)%nat -> (0 < capToWorker)%nat -> (0 < capFromWorker)%nat ->
  invariant minCount nWorkers tree s ->
  exists s', rtc (step minCount capToWorker capFromWorker) s s' /\ finished s'.
Proof.
  intros HW HcapW HcapM. remember (stepsLeft minCount s) as n eqn:Hn.
  revert s Hn. induction n as [n IH] using lt_wf_ind. intros s Hn Hinv.
  destruct (invariant_progress _ _ _ _ _ _ HW HcapW HcapM Hinv) as [[s1 Hstep]|Hfin].
  - pose proof (step_stepsLeft _ _ _ _ _ Hstep) as Hleft.
    destruct (IH (stepsLeft minCount s1) ltac:(lia) s1 eq_refl) as (s' & Hrun & Hfin).
    { by eapply step_invariant. }
    exists s'. split; [|done]. by eapply rtc_l.
  - exists s. by split.
Qed.

(** Without a frequent item in the initial tree, the only step of the run
    is the panic of the master. *)
Lemma reachable_no_frequent_item (minCount : Z) (capToWorker capFromWorker nWorkers : nat)
    (tree : fpTree) (s : system) :
  frequentItemsInTree tree minCount = [] ->
  reachable minCount capToWorker capFromWorker nWorkers tree s ->
  s = initialSystem tree [] nWorkers \/
  s = setMaster (initialSystem tree [] nWorkers) MasterPanicked false.
Proof.
  intros Hnil (items & Hperm & Hrun). rewrite Hnil in Hperm.
  apply Permutation_nil_r in Hperm. subst items.
  revert s Hrun. apply rtc_ind_r; [by left|].
  intros s1 s2 _ Hstep [->| ->].
  - right. inversion Hstep as [s ts lastTask item items task rest Hm Hts Hitems Hfrom
                    |s ts lastTask item items Hm Hts Hitems Hroom
                    |s ts lastTask Hm Hts Hitems
                    |s task rest Hm Hts Hpos Hfrom
                    |s Hm Hts Hle
                    |s k task rest Hm Hk Hto
                    |s k Hm Hk Hto Hclosed
                    |s k conditionalTree prefix items Hm Hk Hperm
                    |s k task Hm Hk Hroom]; subst; simpl in *; try done.
    + destruct ts as [|? [|? ?]]; simplify_eq/=.
    + apply lookup_replicate in Hk as [? _]. done.
    + apply lookup_replicate in Hk as [? _]. done.
  - inversion Hstep; subst; simpl in *; done.
Qed.

(** A step of a run in which the master is in its loop makes the master
    return exactly when the stack is empty and no job is outstanding. *)
Lemma master_returns_iff (minCount : Z) (capToWorker capFromWorker : nat) (s s' : system) :
  outstandingJobs s =
    Z.of_nat (length (toWorker s) + sum_list_with busy (workers s) + length (fromWorker s)) ->
  toWorkerClosed s = false ->
  masterAt s = MasterLoop ->
  step minCount capToWorker capFromWorker s s' ->
  masterAt s' = MasterReturned <-> tasks s = [] /\ outstandingJobs s = 0.
Proof.
  intros Hjobs Hopen Hloop Hstep.
  destruct Hstep as [s ts lastTask item items task rest Hm Hts Hitems Hfrom
                    |s ts lastTask item items Hm Hts Hitems Hroom
                    |s ts lastTask Hm Hts Hitems
                    |s task rest Hm Hts Hpos Hfrom
                    |s Hm Hts Hle
                    |s k task rest Hm Hk Hto
                    |s k Hm Hk Hto Hclosed
                    |s k conditionalTree prefix items Hm Hk Hperm
                    |s k task Hm Hk Hroom];
    cbn [masterAt afterReceive afterSend setMaster setWorker].
  - split; [done|]. rewrite Hts. intros [Hnil _]. by destruct ts.
  - split; [done|]. rewrite Hts. intros [Hnil _]. by destruct ts.
  - split; [done|]. rewrite Hts. intros [Hnil _]. by destruct ts.
  - split; [done|]. intros [_ Hzero]. lia.
  - split; [|done]. intros _. split; [done|lia].
  - rewrite Hloop. split; [done|]. intros [_ Hzero]. rewrite Hto in Hjobs. simpl in *. lia.
  - congruence.
  - rewrite Hloop. split; [done|]. intros [_ Hzero].
    pose proof (sum_list_with_insert busy (workers s) k _ WorkerReceive Hk).
    simpl in *. lia.
  - rewrite Hloop. split; [done|]. intros [_ Hzero].
    pose proof (sum_list_with_insert busy (workers s) k _ WorkerReceive Hk).
    simpl in *. lia.
Qed.

(** C9.  With at least one worker and channels of capacity at least one: a
    reachable state from which no goroutine can step is the end of the run
    (the master and every worker have returned) or the state after the
    panic of the master, never a state in which goroutines wait for each
    other.  The master has returned only with an empty stack, no job
    outstanding and [toWorker] closed; while it is in its loop [toWorker]
    is open, and a step makes it return exactly when its stack is empty
    and no job is outstanding, in which case that step can be taken; after
    its return every worker can return.  Every run is finite.  The master
    panics only when the initial tree has no frequent item. *)
Theorem master_worker_no_deadlock (minCount : Z) (capToWorker capFromWorker nWorkers : nat)
    (tree : fpTree) (s : system) :
  (0 < nWorkers)%nat -> (0 < capToWorker)%nat -> (0 < capFromWorker)%nat ->
  reachable minCount capToWorker capFromWorker nWorkers tree s ->
  ((exists s', step minCount capToWorker capFromWorker s s') \/
   finished s \/ masterAt s = MasterPanicked) /\
  (masterAt s = MasterReturned ->
     tasks s = [] /\ outstandingJobs s = 0 /\ toWorkerClosed s = true) /\
  (masterAt s = MasterLoop ->
     toWorkerClosed s = false /\
     forall s', step minCount capToWorker capFromWorker s s' ->
       (masterAt s' = MasterReturned <-> tasks s = [] /\ outstandingJobs s = 0)) /\
  (masterAt s = MasterLoop -> tasks s = [] -> outstandingJobs s = 0 ->
     step minCount capToWorker capFromWorker s (setMaster s MasterReturned true)) /\
  (masterAt s = MasterReturned ->
     exists s', rtc (step minCount capToWorker capFromWorker) s s' /\ finished s') /\
  (forall n s', nsteps (step minCount capToWorker capFromWorker) n s s' ->
     (n <= stepsLeft minCount s)%nat) /\
  (masterAt s = MasterPanicked -> frequentItemsInTree tree minCount = []).
Proof.
  intros HW HcapW HcapM Hreach.
  assert (Hbound : forall n s', nsteps (step minCount capToWorker capFromWorker) n s s' ->
                     (n <= stepsLeft minCount s)%nat).
  { intros n s' Hrun. apply nsteps_stepsLeft in Hrun. lia. }
  assert (Hreturn : masterAt s = MasterLoop -> tasks s = [] -> outstandingJobs s = 0 ->
            step minCount capToWorker capFromWorker s (setMaster s MasterReturned true)).
  { intros Hm Hts Hzero. apply step_master_return; [done|done|lia]. }
  destruct (frequentItemsInTree tree minCount) as [|i0 items0] eqn:Hfreq.
  - destruct (reachable_no_frequent_item _ _ _ _ _ _ Hfreq Hreach) as [Hs|Hs].
    + assert (Hm : masterAt s = MasterLoop) by (by subst s).
      split_and!; try done; try (rewrite Hm; done).
      * left. eexists. eapply (step_index_panic _ _ _ s []); subst s; done.
      * intros _. split; [by subst s|]. intros s' Hstep.
        eapply master_returns_iff; [| | |exact Hstep]; subst s; simpl; [|done|done].
        by rewrite busy_idle.
    + assert (Hm : masterAt s = MasterPanicked) by (by subst s).
      split_and!; try done; try (rewrite Hm; done). by right; right.
  - assert (Hinv : invariant minCount nWorkers tree s).
    { apply (reachable_invariant minCount capToWorker capFromWorker); [|done].
      by rewrite Hfreq. }
    pose proof Hinv as [_ Hjobs _ _ Hmaster].
    split_and!; try done.
    + destruct (invariant_progress _ capToWorker capFromWorker _ _ _ HW HcapW HcapM Hinv); tauto.
    + intros Hm. rewrite Hm in Hmaster. tauto.
    + intros Hm. rewrite Hm in Hmaster. destruct Hmaster as [Hopen _]. split; [done|].
      intros s' Hstep. by eapply master_returns_iff.
    + intros _. exact (invariant_completes _ _ _ _ _ _ HW HcapW HcapM Hinv).
    + intros Hm. by rewrite Hm in Hmaster.
Qed.

(** ** The parallel miner and the sequential miner *)

(** The parallel miner on a tree with a frequent item.  Whatever the
    number of workers and the capacities of the channels, when the master
    has returned the output is the result of the sequential miner, up to
    the order.  The program itself (28 workers, capacity 10000) does not
    panic, can always run to the return of the master, and whenever it
    returns, the slice it returns is that of the sequential miner, up to
    the order. *)
Theorem parallelFpGrowth_refines_fpGrowth (tree : fpTree) (minCount : Z) :
  frequentItemsInTree tree minCount <> [] ->
  (forall capToWorker capFromWorker nWorkers s,
     reachable minCount capToWorker capFromWorker nWorkers tree s ->
     masterAt s = MasterReturned ->
     output s ≡ₚ fpGrowth tree [] minCount) /\
  (forall itemsets, parallelFpGrowth tree minCount (Returns itemsets) ->
     itemsets ≡ₚ fpGrowth tree [] minCount) /\
  ~ parallelFpGrowth tree minCount Panics /\
  exists itemsets, parallelFpGrowth tree minCount (Returns itemsets).
Proof.
  intros Hfreq.
  assert (HW : (0 < numWorkers)%nat) by (unfold numWorkers; lia).
  assert (Hcap : (0 < channelCapacity)%nat) by (unfold channelCapacity; lia).
  assert (Hany : forall capToWorker capFromWorker nWorkers s,
            reachable minCount capToWorker capFromWorker nWorkers tree s ->
            masterAt s = MasterReturned ->
            output s ≡ₚ fpGrowth tree [] minCount).
  { intros capToWorker capFromWorker nWorkers s Hreach Hm.
    eapply invariant_returned; [|exact Hm]. by eapply reachable_invariant. }
  split_and!.
  - exact Hany.
  - intros itemsets (s & Hreach & Hm & <-). by eapply Hany.
  - intros (s & Hreach & Hm).
    pose proof (reachable_invariant _ _ _ _ _ _ Hfreq Hreach) as [_ _ _ _ Hmaster].
    by rewrite Hm in Hmaster.
  - pose proof (initial_invariant minCount numWorkers tree
                  (frequentItemsInTree tree minCount) ltac:(done) Hfreq) as Hinv.
    destruct (invariant_completes _ _ _ _ _ _ HW Hcap Hcap Hinv) as (s & Hrun & Hfin & _).
    exists (output s), s. split; [|done]. by eexists.
Qed.

(** The parallel miner on a tree without a frequent item: the master
    indexes the empty slice of items of its first task and panics, where
    the sequential miner returns the empty slice. *)
Lemma parallelFpGrowth_no_frequent_item (tree : fpTree) (minCount : Z) :
  frequentItemsInTree tree minCount = [] ->
  fpGrowth tree [] minCount = [] /\
  parallelFpGrowth tree minCount Panics /\
  forall o, parallelFpGrowth tree minCount o -> o = Panics.
Proof.
  intros Hfreq. split_and!.
  - unfold fpGrowth. by apply fpGrowth_fuel_nil.
  - exists (setMaster (initialSystem tree [] numWorkers) MasterPanicked false).
    split; [|done]. exists []. split; [by rewrite Hfreq|].
    apply rtc_once.
    exact (step_index_panic _ _ _ (initialSystem tree [] numWorkers) [] _
             eq_refl eq_refl eq_refl).
  - intros o (s & Hreach & Ho).
    destruct o as [itemsets|]; [exfalso|done]. destruct Ho as [Hm _].
    destruct (reachable_no_frequent_item _ _ _ _ _ _ Hfreq Hreach) as [-> | ->];
      discriminate Hm.
Qed.

(** ** The stand-alone program on a file *)

(** On a readable file, the first two calls of [main] run the parallel
    miner on the tree of the second pass. *)
Lemma main_frequentItemsets_mines (path : string) (minSupport : float64) (w : world)
    (lines : list string) (o : outcome) :
  files w !! path = Some {| f_lines := lines; f_err := None |} ->
  let itemizer := fst (fst (firstPass lines)) in
  let frequency := snd (fst (firstPass lines)) in
  let minCount := minCountOf minSupport (snd (firstPass lines)) in
  main_frequentItemsets path minSupport w o <->
  parallelFpGrowth (fold_left (insertLine itemizer frequency minCount) lines newTree)
    minCount o.
Proof.
  intros Hfile itemizer frequency minCount.
  subst itemizer frequency minCount. unfold firstPass.
  unfold main_frequentItemsets, countItems, mbind, IO_bind, os_Open. rewrite Hfile.
  cbn [f_lines f_err mret IO_ret].
  destruct (fold_left countLine lines (newItemizer, makeCounts, 0)) as [[it fr] n].
  unfold main_generateFrequentItemsets, os_Open. cbn [files record]. rewrite Hfile.
  cbn [f_lines f_err fst snd]. done.
Qed.

(** Without transactions the threshold is 1, whatever [minSupport]. *)
Lemma minCountOf_zero (minSupport : float64) : minCountOf minSupport 0 = 1.
Proof. by destruct minSupport as [[]|[]| |[] m e]. Qed.

(** The package on an empty input file: it succeeds, with no itemset and
    no rule; the rules file holds its header line only. *)
Lemma MineAssociationRules_empty_input (minSupport minConfidence minLift : float64) :
  Validate (exampleArguments minSupport minConfidence minLift) = None ->
  let w := inputAndOutput [] in
  let args := exampleArguments minSupport minConfidence minLift in
  fst (generateFrequentItemsets "transactions.csv" minSupport newItemizer makeCounts 0 w)
    = Ok [] /\
  generateRules [] 0 minConfidence minLift = [] /\
  fst (MineAssociationRules args w) = Ok () /\
  trace (snd (MineAssociationRules args w)) =
    [EvOpen "transactions.csv"; EvOpen "transactions.csv"; EvCreate "rules.txt";
     EvWrite "rules.txt"
       (Text ("Antecedent => Consequent,Confidence,Lift,Support" ++ newline))].
Proof.
  intros Hvalid w args.
  assert (Hgen : forall w', files w' = files w ->
            generateFrequentItemsets "transactions.csv" minSupport newItemizer makeCounts 0 w'
            = (Ok [], record (EvOpen "transactions.csv") w')).
  { intros w' Hw'. unfold generateFrequentItemsets, mbind, IO_bind, os_Open.
    rewrite Hw'. cbn [files w inputAndOutput]. rewrite lookup_singleton_eq.
    cbn [f_lines f_err fold_left]. rewrite minCountOf_zero. reflexivity. }
  assert (Hrun : MineAssociationRules args w =
                 (Ok (), {| files := files w; devices := devices w;
                            trace := [EvOpen "transactions.csv"; EvOpen "transactions.csv";
                                      EvCreate "rules.txt";
                                      EvWrite "rules.txt"
                                        (Text ("Antecedent => Consequent,Confidence,Lift,Support"
                                               ++ newline))] |})).
  { unfold MineAssociationRules. fold args. unfold args at 1. rewrite Hvalid.
    unfold mbind at 1. unfold IO_bind at 1.
    unfold countItems, mbind at 1. unfold IO_bind at 1. unfold os_Open at 1.
    cbn [files w inputAndOutput args exampleArguments Input]. rewrite lookup_singleton_eq.
    cbn [f_lines f_err fold_left mret IO_ret].
    unfold mbind at 1. unfold IO_bind at 1.
    cbn [MinSupport]. rewrite Hgen by reflexivity.
    reflexivity. }
  split_and!.
  - by rewrite Hgen.
  - reflexivity.
  - by rewrite Hrun.
  - by rewrite Hrun.
Qed.

(** C2, on the stand-alone program.  With an input file of no line, the
    first task of the master has no item: [master] panics on
    [lastTask.items[0]], and no run of the program returns. *)
Theorem empty_input_panics (minSupport : float64) :
  frequentItemsInTree newTree (minCountOf minSupport 0) = [] /\
  main_frequentItemsets "transactions.csv" minSupport (inputOnly []) Panics /\
  (forall o, main_frequentItemsets "transactions.csv" minSupport (inputOnly []) o ->
             o = Panics).
Proof.
  assert (Hfile : files (inputOnly []) !! "transactions.csv"
                  = Some {| f_lines := []; f_err := None |})
    by apply lookup_singleton_eq.
  assert (Hfreq : frequentItemsInTree newTree (minCountOf minSupport 0) = [])
    by (by apply frequentItemsInTree_empty).
  destruct (parallelFpGrowth_no_frequent_item _ _ Hfreq) as (_ & Hpanics & Honly).
  split_and!; [done| |].
  - by apply (main_frequentItemsets_mines _ _ _ _ _ Hfile).
  - intros o Ho. apply Honly. by apply (main_frequentItemsets_mines _ _ _ _ _ Hfile).
Qed.

(** C3, at a tree without a frequent item (the tree of an empty input):
    the sequential miner returns the empty slice, the parallel miner
    panics and never returns. *)
Theorem parallel_panics_where_sequential_returns :
  fpGrowth newTree [] 1 = [] /\
  parallelFpGrowth newTree 1 Panics /\
  (forall o, parallelFpGrowth newTree 1 o -> o = Panics).
Proof. by apply parallelFpGrowth_no_frequent_item. Qed.

End arm.

(** ** Rule generation *)

Lemma SFcompare_swap (x y : float64) :
  SFcompare y x = CompOpp <$> SFcompare x y.
Proof.
  destruct x as [sx|sx| |sx mx ex], y as [sy|sy| |sy my ey]; simpl;
    try reflexivity; try (by destruct sx); try (by destruct sy);
    try (by destruct sx, sy).
  destruct sx, sy; simpl; try reflexivity.
  - rewrite (Z.compare_antisym ey ex).
    destruct (ey ?= ex); simpl; try reflexivity.
    by rewrite (Pos.compare_cont_antisym mx my Eq).
  - rewrite (Z.compare_antisym ey ex).
    destruct (ey ?= ex); simpl; try reflexivity.
    by rewrite (Pos.compare_cont_antisym mx my Eq).
Qed.

(** Outside NaN, "not below" is "at least". *)
Lemma f64_not_lt_le (x y : float64) :
  f64_lt x y = false -> f64_is_nan x = false -> f64_is_nan y = false ->
  f64_le y x = true.
Proof.
  unfold f64_lt, f64_le, SFltb, SFleb. rewrite (SFcompare_swap x y).
  intros Hlt Hx Hy.
  assert (Hsome : is_Some (SFcompare x y)).
  { destruct x, y; simpl in *; try discriminate; eauto. }
  destruct Hsome as [c Hc]. rewrite Hc in *. simpl. by destruct c.
Qed.

Lemma elem_of_subsequences {A} (l l' : list A) (x : A) :
  l' ∈ subsequences l -> x ∈ l' -> x ∈ l.
Proof.
  revert l'. induction l as [|y l IH]; simpl; intros l' Hl' Hx.
  - apply list_elem_of_singleton in Hl'. by subst.
  - apply elem_of_app in Hl' as [Hl'|Hl'].
    + apply list_elem_of_fmap in Hl' as (l'' & -> & Hl'').
      apply elem_of_cons in Hx as [->|Hx]; [left|right; eauto].
    + right. eauto.
Qed.

Lemma is_nil_false {A} (l : list A) : is_nil l = false <-> l <> [].
Proof. by destruct l. Qed.

(** C4.  Every rule of [generateRules]: antecedent and consequent are not
    empty and share no item; their union is the item-set of an itemset of
    the collection; confidence, lift and support are the float64 quotients
    support(A ∪ C) / support(A), confidence / (support(C) / N) and
    support(A ∪ C) / N, the supports being those the collection records;
    the confidence is not below minConfidence and, when minLift > 0, the
    lift is not below minLift: outside NaN, they are at least the
    thresholds. *)
Theorem generateRules_sound (itemsets : list itemsetWithCount) (numTransactions : Z)
    (minConfidence minLift : float64) (chunk : list Rule) (rule : Rule) :
  chunk ∈ generateRules itemsets numTransactions minConfidence minLift ->
  rule ∈ chunk ->
  Antecedent rule <> [] /\
  Consequent rule <> [] /\
  (forall i, i ∈ Antecedent rule -> i ∉ Consequent rule) /\
  exists iwc sI sA sC,
    iwc ∈ itemsets /\
    (forall i, i ∈ itemset iwc <-> i ∈ Antecedent rule \/ i ∈ Consequent rule) /\
    support_of itemsets (Antecedent rule ++ Consequent rule) = Some sI /\
    support_of itemsets (Antecedent rule) = Some sA /\
    support_of itemsets (Consequent rule) = Some sC /\
    Confidence rule = f64_div (f64_of_int sI) (f64_of_int sA) /\
    Lift rule = f64_div (Confidence rule)
                  (f64_div (f64_of_int sC) (f64_of_int numTransactions)) /\
    Support rule = f64_div (f64_of_int sI) (f64_of_int numTransactions) /\
    f64_lt (Confidence rule) minConfidence = false /\
    (f64_lt f64_zero minLift = true -> f64_lt (Lift rule) minLift = false) /\
    (f64_is_nan (Confidence rule) = false -> f64_is_nan minConfidence = false ->
     f64_le minConfidence (Confidence rule) = true) /\
    (f64_lt f64_zero minLift = true -> f64_is_nan (Lift rule) = false ->
     f64_le minLift (Lift rule) = true).
Proof.
  intros Hchunk Hrule.
  apply list_elem_of_fmap in Hchunk as (iwc & -> & Hiwc).
  unfold rulesOfItemset in Hrule.
  set (I := remove_dups (itemset iwc)) in Hrule |- *.
  destruct (length I <? 2)%nat; [by apply elem_of_nil in Hrule|].
  apply list_elem_of_omap in Hrule as (A & HA & Hrule).
  unfold ruleOf in Hrule.
  destruct (is_nil A || is_nil (list_difference I A)) eqn:Hnil; [done|].
  apply orb_false_elim in Hnil as [HnilA HnilC].
  apply is_nil_false in HnilA, HnilC.
  destruct (support_of itemsets I) as [sI|] eqn:HsI; [|done].
  destruct (support_of itemsets A) as [sA|] eqn:HsA; [|done].
  destruct (support_of itemsets (list_difference I A)) as [sC|] eqn:HsC; [|done].
  destruct (f64_lt _ minConfidence) eqn:Hconf; [done|].
  destruct (f64_lt f64_zero minLift && f64_lt _ minLift) eqn:Hlift; [done|].
  injection Hrule as <-. simpl.
  assert (Hunion : forall i, i ∈ I <-> i ∈ A \/ i ∈ list_difference I A).
  { intros i. rewrite list_elem_of_difference. split.
    - intros Hi. destruct (decide (i ∈ A)); auto.
    - intros [Hi|[Hi _]]; [by eapply elem_of_subsequences|done]. }
  split_and!; [done|done| |].
  { intros i Hi. rewrite list_elem_of_difference. tauto. }
  exists iwc, sI, sA, sC. split_and!; try done.
  - intros i. rewrite <- Hunion. unfold I. by rewrite elem_of_remove_dups.
  - rewrite <- HsI. unfold support_of. f_equal. apply set_eq. intros i.
    rewrite !elem_of_list_to_set, elem_of_app. by rewrite Hunion.
  - intros Hpos. rewrite Hpos in Hlift. exact Hlift.
  - intros Hn1 Hn2. by apply f64_not_lt_le.
  - intros Hpos Hn. rewrite Hpos in Hlift. simpl in Hlift.
    apply f64_not_lt_le; [done|done|].
    by destruct minLift.
Qed.

(** * The properties on examples *)

Lemma byId_strictTotalOrder : strictTotalOrder byId.
Proof.
  unfold byId. split_and!.
  - intros a. apply Z.ltb_irrefl.
  - intros a b c. rewrite !Z.ltb_lt. lia.
  - intros a b. rewrite !Z.ltb_lt. lia.
Qed.

(** C7, as stated, fails where MinSupport and MinConfidence are both out
    of range: MinConfidence is outside [0,1], and the error is that of
    MinSupport. *)
Lemma Validate_reports_first_failure_only :
  outOfUnitRange (MinConfidence bothOutOfRange) = true /\
  Validate bothOutOfRange = Some ErrMinSupportOutOfRange /\
  Validate bothOutOfRange <> Some ErrMinConfidenceOutOfRange.
Proof. split_and!; [reflexivity|reflexivity|discriminate]. Qed.

(** C1, on the first scenario of the spec with the minimal support 0.5.
    The threshold is 2 and the item b has support 2, so {b} is a frequent
    itemset; every run of the stand-alone program returns the single
    itemset {a} with count 4. *)
Theorem strict_threshold_drops_frequent_itemsets :
  minCountOf f64_half (snd (firstPass scenario1)) = 2 /\
  Itemizer_toStr (fst (fst (firstPass scenario1))) 0 = "a"%string /\
  strToItem (fst (fst (firstPass scenario1))) !! "b"%string = Some 1 /\
  support (transactionsOf scenario1) ["b"%string] = 2 /\
  fpGrowth byId (scenario1_tree byId) [] 2 = [{| itemset := [0]; count := 4 |}] /\
  (exists itemsets,
     main_frequentItemsets byId "transactions.csv" f64_half (inputOnly scenario1)
       (Returns itemsets)) /\
  (forall o,
     main_frequentItemsets byId "transactions.csv" f64_half (inputOnly scenario1) o ->
     exists itemsets, o = Returns itemsets /\
                      itemsets ≡ₚ [{| itemset := [0]; count := 4 |}]).
Proof.
  assert (Hfile : files (inputOnly scenario1) !! "transactions.csv"%string
                  = Some {| f_lines := scenario1; f_err := None |})
    by apply lookup_singleton_eq.
  assert (Hmin : minCountOf f64_half (snd (firstPass scenario1)) = 2)
    by (vm_compute; reflexivity).
  assert (Hseq : fpGrowth byId (scenario1_tree byId) [] 2
                 = [{| itemset := [0]; count := 4 |}]) by (vm_compute; reflexivity).
  assert (Hfreq : frequentItemsInTree (scenario1_tree byId) 2 <> [])
    by (vm_compute; discriminate).
  destruct (parallelFpGrowth_refines_fpGrowth byId _ _ Hfreq) as (_ & Hret & Hnopanic & Hex).
  assert (Hmines : forall o,
            main_frequentItemsets byId "transactions.csv" f64_half (inputOnly scenario1) o <->
            parallelFpGrowth byId (scenario1_tree byId) 2 o).
  { intros o. pose proof (main_frequentItemsets_mines byId _ f64_half _ _ o Hfile) as Hm.
    cbv zeta in Hm. rewrite Hmin in Hm. unfold scenario1_tree. by rewrite Hmin. }
  split_and!.
  - exact Hmin.
  - vm_compute; reflexivity.
  - vm_compute; reflexivity.
  - vm_compute; reflexivity.
  - exact Hseq.
  - destruct Hex as [itemsets Hrun]. exists itemsets. by apply Hmines.
  - intros o Ho%Hmines. destruct o as [itemsets|]; [|exfalso; exact (Hnopanic Ho)].
    exists itemsets. split; [reflexivity|]. rewrite <- Hseq. apply Hret, Ho.
Qed.

(** C8, on a machine that cannot create the rules file: [writeRules]
    returns the error of [os.Create], and [MineAssociationRules] returns
    [nil]. *)
Theorem MineAssociationRules_drops_write_error :
  let args := exampleArguments f64_half f64_half f64_zero in
  fst (writeRules [] (Output args) newItemizer (inputOnly scenario1))
    = Err (ErrCreate "rules.txt") /\
  fst (MineAssociationRules byId args (inputOnly scenario1)) = Ok ().
Proof. split; vm_compute; reflexivity. Qed.

(** ** The theorems at concrete inputs *)

(** C4 at the rule b => a of the example collection. *)
Lemma generateRules_sound_witness :
  exampleRule ∈ rulesOfItemset exampleItemsets 4 f64_half f64_zero
                  {| itemset := [0; 1]; count := 2 |} /\
  Antecedent exampleRule <> [] /\
  Consequent exampleRule <> [].
Proof.
  assert (Hrule : exampleRule ∈ rulesOfItemset exampleItemsets 4 f64_half f64_zero
                                  {| itemset := [0; 1]; count := 2 |}).
  { apply (list_elem_of_lookup_2 _ 1%nat). vm_compute. reflexivity. }
  assert (Hchunk : rulesOfItemset exampleItemsets 4 f64_half f64_zero
                     {| itemset := [0; 1]; count := 2 |}
                   ∈ generateRules exampleItemsets 4 f64_half f64_zero).
  { apply (list_elem_of_lookup_2 _ 2%nat). reflexivity. }
  pose proof (generateRules_sound exampleItemsets 4 f64_half f64_zero _ _ Hchunk Hrule)
    as (HA & HC & _).
  exact (conj Hrule (conj HA HC)).
Defined.

(** C5 at the first line of the first scenario, with the items ordered by
    id. *)
Lemma insertLine_filters_sorts_inserts_witness :
  strictTotalOrder byId /\
  insertLine byId (fst (fst (firstPass scenario1))) (snd (fst (firstPass scenario1))) 2
    newTree "a,b,c"
  = fpTree_Insert newTree
      (sort_SliceStable
         (byFrequency byId (fst (fst (firstPass scenario1))) (snd (fst (firstPass scenario1))))
         (Itemizer_filter (fst (fst (firstPass scenario1))) (strings_Split "a,b,c" comma)
            (isFrequent (snd (fst (firstPass scenario1))) 2)))
      1.
Proof.
  split; [exact byId_strictTotalOrder|].
  refine (proj1 (proj2 (proj2
            (insertLine_filters_sorts_inserts byId (fst (fst (firstPass scenario1)))
               (snd (fst (firstPass scenario1))) 2 newTree "a,b,c"
               byId_strictTotalOrder))) _).
  vm_compute. discriminate.
Defined.

(** C9 at the initial state of one worker and channels of capacity one, on
    the tree of the first scenario. *)
Lemma master_worker_no_deadlock_witness :
  reachable byId 2 1 1 1 (scenario1_tree byId) (initialSystem (scenario1_tree byId) [0] 1) /\
  ((exists s', step byId 2 1 1 (initialSystem (scenario1_tree byId) [0] 1) s') \/
   finished (initialSystem (scenario1_tree byId) [0] 1) \/
   masterAt (initialSystem (scenario1_tree byId) [0] 1) = MasterPanicked).
Proof.
  assert (Hreach : reachable byId 2 1 1 1 (scenario1_tree byId)
                     (initialSystem (scenario1_tree byId) [0] 1)).
  { exists [0]. split; [|apply rtc_refl].
    assert (Hitems : frequentItemsInTree (scenario1_tree byId) 2 = [0])
      by (vm_compute; reflexivity).
    rewrite Hitems. reflexivity. }
  split; [exact Hreach|].
  refine (proj1 (master_worker_no_deadlock byId 2 1 1 1 (scenario1_tree byId) _ _ _ _ Hreach));
    lia.
Defined.

(** C10 at empty paths, on a machine without files. *)
Lemma Validate_ignores_paths_witness :
  Validate emptyPathArguments = None /\
  MineAssociationRules byId emptyPathArguments noFiles
  = (Err (ErrOpen ""), record (EvOpen "") noFiles).
Proof.
  split; [reflexivity|].
  refine (proj1 (proj2 (proj2
            (Validate_ignores_paths byId emptyPathArguments noFiles _ _)))).
  - reflexivity.
  - reflexivity.
Defined.


(** * Further properties of the code *)

(** ** The writers *)

Lemma contents_app (path : string) (tr1 tr2 : list io_event) (acc : list chunk) :
  contents path (tr1 ++ tr2) acc = contents path tr2 (contents path tr1 acc).
Proof.
  revert acc. induction tr1 as [|ev tr1 IH]; intros acc; [done|].
  destruct ev; simpl; apply IH.
Qed.

Lemma contents_writes (path : string) (cs acc : list chunk) :
  contents path (map (EvWrite path) cs) acc = acc ++ cs.
Proof.
  revert acc. induction cs as [|c cs IH]; intros acc; simpl.
  - by rewrite app_nil_r.
  - rewrite String.eqb_refl, IH, <- app_assoc. done.
Qed.

Lemma contents_writes_other (path q : string) (cs acc : list chunk) :
  q <> path -> contents q (map (EvWrite path) cs) acc = acc.
Proof.
  intros Hne. revert acc. induction cs as [|c cs IH]; intros acc; simpl; [done|].
  destruct (String.eqb_spec path q) as [->|_]; [done|]. apply IH.
Qed.

(** The world after the chunks [cs] have been written to [path]. *)
Lemma forEach_Fprint (path : string) (cs : list chunk) (w : world) (room : option nat) :
  devices w !! path = Some room ->
  forEach cs (Fprint path) w =
    (if (length (accepted (roomLeft room (length (contents path (trace w) []))) cs)
         =? length cs)%nat
     then Ok () else Err (ErrWrite path),
     {| files := files w; devices := devices w;
        trace := trace w ++ map (EvWrite path)
                   (accepted (roomLeft room (length (contents path (trace w) []))) cs) |}).
Proof.
  revert w. induction cs as [|c cs IH]; intros w Hdev.
  - destruct w as [fs ds tr]. destruct room as [k|]; simpl.
    + rewrite take_nil. simpl. by rewrite app_nil_r.
    + by rewrite app_nil_r.
  - cbn [forEach]. unfold mbind, IO_bind. unfold Fprint at 1. rewrite Hdev.
    destruct room as [k|]; cbn [roomLeft accepted].
    + destruct (bool_decide_reflect (length (contents path (trace w) []) < k)%nat) as [Hlt|Hge].
      * rewrite (IH (record (EvWrite path c) w) Hdev).
        cbn [record trace files devices roomLeft accepted].
        rewrite contents_app. cbn [contents]. rewrite String.eqb_refl.
        rewrite length_app. cbn [length].
        set (held := length (contents path (trace w) [])) in *.
        replace (k - held)%nat with (S (k - (held + 1)))%nat by lia.
        cbn [take length map]. rewrite <- app_assoc. cbn [app].
        f_equal.
      * set (held := length (contents path (trace w) [])) in *.
        replace (k - held)%nat with 0%nat by lia. cbn [take length map].
        rewrite app_nil_r. by destruct w.
    + rewrite (IH (record (EvWrite path c) w) Hdev).
      cbn [record trace files devices roomLeft accepted].
      cbn [length map]. rewrite <- app_assoc. done.
Qed.

(** Two pieces of the program that behave alike can be exchanged before a
    continuation. *)
Lemma IO_bind_ext {A B} (m m' : IO A) (k k' : A -> IO B) (w : world) :
  m w = m' w -> (forall a w', k a w' = k' a w') ->
  IO_bind A B k m w = IO_bind A B k' m' w.
Proof. intros Hm Hk. unfold IO_bind. rewrite Hm. destruct (m' w) as [[a|e] w']; auto. Qed.

Lemma IO_bind_assoc {A B C} (m : IO A) (k : A -> IO B) (k' : B -> IO C) (w : world) :
  IO_bind B C k' (IO_bind A B k m) w = IO_bind A C (fun a => IO_bind B C k' (k a)) m w.
Proof. unfold IO_bind. destruct (m w) as [[a|e] w']; reflexivity. Qed.

Lemma IO_bind_ret_r (m : IO unit) (w : world) :
  IO_bind unit unit (fun _ => IO_ret unit ()) m w = m w.
Proof. unfold IO_bind, IO_ret. by destruct (m w) as [[[]|e] w']. Qed.

Lemma forEach_app {A} (l1 l2 : list A) (body : A -> IO unit) (w : world) :
  forEach (l1 ++ l2) body w
  = IO_bind unit unit (fun _ => forEach l2 body) (forEach l1 body) w.
Proof.
  revert w. induction l1 as [|x l1 IH]; intros w; [reflexivity|].
  cbn [app forEach]. unfold mbind. rewrite IO_bind_assoc.
  apply IO_bind_ext; [reflexivity|]. intros _ w'. apply IH.
Qed.

Lemma forEach_flat_map {A B} (l : list A) (f : A -> list B) (body : B -> IO unit)
    (w : world) :
  forEach l (fun x => forEach (f x) body) w = forEach (flat_map f l) body w.
Proof.
  revert w. induction l as [|x l IH]; intros w; [reflexivity|].
  cbn [flat_map forEach]. rewrite forEach_app. unfold mbind.
  apply IO_bind_ext; [reflexivity|]. intros _ w'. apply IH.
Qed.

Lemma forEach_ext {A} (l : list A) (body body' : A -> IO unit) (w : world) :
  (forall x w', body x w' = body' x w') -> forEach l body w = forEach l body' w.
Proof.
  intros Hbody. revert w. induction l as [|x l IH]; intros w; [reflexivity|].
  cbn [forEach]. unfold mbind. apply IO_bind_ext; [apply Hbody|]. intros _ w'. apply IH.
Qed.

(** The loop with the variable [first] writes the tokens of the items with
    one space between each two of them. *)
Lemma writeItems_chunks (path : string) (itemizer : Itemizer) (first : bool)
    (items : list Item) (w : world) :
  writeItems path itemizer first items w
  = forEach (if first then renderItems itemizer items
             else flat_map (fun c => [Text " "; c])
                    (map (fun item => Text (Itemizer_toStr itemizer item)) items))
      (Fprint path) w.
Proof.
  revert first w. induction items as [|item items IH]; intros first w.
  - by destruct first.
  - cbn [writeItems]. unfold mbind. destruct first.
    + unfold renderItems. cbn [map separated forEach]. unfold mbind.
      unfold IO_bind at 1. cbn [mret IO_ret].
      apply IO_bind_ext; [reflexivity|]. intros _ w'. apply (IH false).
    + cbn [map flat_map app forEach]. unfold mbind.
      apply IO_bind_ext; [reflexivity|]. intros _ w'.
      apply IO_bind_ext; [reflexivity|]. intros _ w''. apply (IH false).
Qed.

(** One round of the loop of [writeItemsets] writes the line of the
    itemset. *)
Lemma writeItemsets_line (path : string) (itemizer : Itemizer) (n : float64)
    (iwc : itemsetWithCount) (w : world) :
  IO_bind unit unit (fun _ =>
    IO_bind unit unit (fun _ =>
      IO_bind unit unit (fun _ => Fprint path (Text newline))
        (Fprint path (Float (f64_div (f64_of_int (count iwc)) n))))
      (Fprint path (Text " ")))
    (writeItems path itemizer true (itemset iwc)) w
  = forEach (renderItemset itemizer n iwc) (Fprint path) w.
Proof.
  unfold renderItemset. rewrite forEach_app.
  apply IO_bind_ext; [apply (writeItems_chunks path itemizer true)|].
  intros _ w'. cbn [forEach]. unfold mbind.
  apply IO_bind_ext; [reflexivity|]. intros _ w1.
  apply IO_bind_ext; [reflexivity|]. intros _ w2.
  by rewrite IO_bind_ret_r.
Qed.

(** After [os.Create], [writeItemsets] writes the chunks of
    [renderItemsets] in order. *)
Lemma writeItemsets_chunks (itemsets : list itemsetWithCount) (path : string)
    (itemizer : Itemizer) (numTransactions : Z) (w : world) :
  writeItemsets itemsets path itemizer numTransactions w
  = IO_bind string unit
      (fun output => forEach (renderItemsets itemizer numTransactions itemsets) (Fprint output))
      (os_Create path) w.
Proof.
  unfold writeItemsets, mbind. apply IO_bind_ext; [reflexivity|]. intros output w'.
  unfold renderItemsets. cbn [forEach]. unfold mbind.
  apply IO_bind_ext; [reflexivity|]. intros _ w1.
  unfold Flush. cbn [mret]. rewrite IO_bind_ret_r.
  rewrite <- forEach_flat_map. apply forEach_ext. intros iwc w2.
  apply writeItemsets_line.
Qed.

Lemma flat_map_concat {A B} (f : A -> list B) (l : list (list A)) :
  flat_map f (concat l) = flat_map (flat_map f) l.
Proof.
  induction l as [|x l IH]; [reflexivity|].
  cbn [concat flat_map]. by rewrite flat_map_app, IH.
Qed.

(** One round of the inner loop of [writeRules] writes the line of the
    rule. *)
Lemma writeRules_line (path : string) (itemizer : Itemizer) (rule : Rule) (w : world) :
  IO_bind unit unit (fun _ =>
    IO_bind unit unit (fun _ =>
      IO_bind unit unit (fun _ =>
        IO_bind unit unit (fun _ =>
          IO_bind unit unit (fun _ =>
            IO_bind unit unit (fun _ =>
              IO_bind unit unit (fun _ =>
                IO_bind unit unit (fun _ =>
                  IO_bind unit unit (fun _ => Fprint path (Text newline))
                    (Fprint path (Float (Support rule))))
                  (Fprint path (Text ",")))
                (Fprint path (Float (Lift rule))))
              (Fprint path (Text ",")))
            (Fprint path (Float (Confidence rule))))
          (Fprint path (Text ",")))
        (writeItems path itemizer true (Consequent rule)))
      (Fprint path (Text " => ")))
    (writeItems path itemizer true (Antecedent rule)) w
  = forEach (renderRule itemizer rule) (Fprint path) w.
Proof.
  unfold renderRule. rewrite forEach_app.
  apply IO_bind_ext; [apply (writeItems_chunks path itemizer true)|].
  intros _ w1. cbn [app forEach]. unfold mbind.
  apply IO_bind_ext; [reflexivity|]. intros _ w2.
  rewrite forEach_app.
  apply IO_bind_ext; [apply (writeItems_chunks path itemizer true)|].
  intros _ w3. cbn [forEach]. unfold mbind.
  do 6 (apply IO_bind_ext; [reflexivity|]; intros _ ?).
  by rewrite IO_bind_ret_r.
Qed.

(** After [os.Create], [writeRules] writes the chunks of [renderRules] in
    order. *)
Lemma writeRules_chunks (rules : list (list Rule)) (path : string)
    (itemizer : Itemizer) (w : world) :
  writeRules rules path itemizer w
  = IO_bind string unit
      (fun output => forEach (renderRules itemizer rules) (Fprint output))
      (os_Create path) w.
Proof.
  unfold writeRules, mbind. apply IO_bind_ext; [reflexivity|]. intros output w'.
  unfold renderRules. cbn [forEach]. unfold mbind.
  apply IO_bind_ext; [reflexivity|]. intros _ w1.
  unfold Flush. cbn [mret]. rewrite IO_bind_ret_r.
  rewrite flat_map_concat, <- forEach_flat_map. apply forEach_ext. intros chunk w2.
  rewrite <- forEach_flat_map. apply forEach_ext. intros rule w3.
  apply writeRules_line.
Qed.

(** A file that is created and then written chunk after chunk: the calls
    made, the outcome, and what the files hold afterwards. *)
Lemma create_and_write (path : string) (text : list chunk) (w : world) :
  let run := IO_bind string unit (fun output => forEach text (Fprint output))
               (os_Create path) w in
  files (snd run) = files w /\ devices (snd run) = devices w /\
  (forall q, q <> path -> contents q (trace (snd run)) [] = contents q (trace w) []) /\
  match devices w !! path with
  | None => fst run = Err (ErrCreate path) /\ trace (snd run) = trace w ++ [EvCreate path]
  | Some room =>
      fst run = writeResult path room text /\
      trace (snd run) = trace w ++ EvCreate path :: map (EvWrite path) (accepted room text) /\
      contents path (trace (snd run)) [] = accepted room text
  end.
Proof.
  intros run. subst run. unfold IO_bind, os_Create.
  destruct (devices w !! path) as [room|] eqn:Hdev.
  - rewrite (forEach_Fprint path text (record (EvCreate path) w) room Hdev).
    cbn [record trace files devices fst snd].
    rewrite contents_app. cbn [contents]. rewrite String.eqb_refl. cbn [contents length].
    assert (Hroom : roomLeft room 0 = room).
    { destruct room as [k|]; [|done]. cbn [roomLeft]. by rewrite Nat.sub_0_r. }
    rewrite Hroom, <- app_assoc. cbn [app].
    split_and!; try reflexivity.
    + intros q Hne. rewrite !contents_app. cbn [contents].
      destruct (String.eqb_spec path q) as [->|_]; [done|].
      by apply contents_writes_other.
    + rewrite !contents_app. cbn [contents]. rewrite String.eqb_refl.
      by rewrite contents_writes.
  - cbn [record trace files devices fst snd]. split_and!; try reflexivity.
    intros q Hne. rewrite contents_app. cbn [contents].
    by destruct (String.eqb_spec path q) as [->|_].
Qed.

(** [writeItemsets] creates (or truncates) the file and writes the header
    line, then one line per itemset: its tokens separated by single
    spaces, a space, its support.  On a device that takes the whole text
    it returns [nil]; on one that runs out it returns the write error and
    leaves the part of the text that was taken; where the file cannot be
    created it returns that error and writes nothing.  It changes no other
    file. *)
Theorem writeItemsets_writes_the_itemsets (itemsets : list itemsetWithCount)
    (path : string) (itemizer : Itemizer) (numTransactions : Z) (w : world) :
  let text := renderItemsets itemizer numTransactions itemsets in
  let run := writeItemsets itemsets path itemizer numTransactions w in
  files (snd run) = files w /\ devices (snd run) = devices w /\
  (forall q, q <> path -> contents q (trace (snd run)) [] = contents q (trace w) []) /\
  match devices w !! path with
  | None => fst run = Err (ErrCreate path) /\ trace (snd run) = trace w ++ [EvCreate path]
  | Some room =>
      fst run = writeResult path room text /\
      trace (snd run) = trace w ++ EvCreate path :: map (EvWrite path) (accepted room text) /\
      contents path (trace (snd run)) [] = accepted room text
  end.
Proof.
  intros text run. subst run. rewrite writeItemsets_chunks. apply create_and_write.
Qed.

(** [writeRules] creates (or truncates) the file and writes the header
    line, then one line per rule of every chunk, in order: antecedent,
    [" => "], consequent, then confidence, lift and support after commas.
    On a device that takes the whole text it returns [nil]; on one that
    runs out it returns the write error and leaves the part of the text
    that was taken; where the file cannot be created it returns that error
    and writes nothing.  It changes no other file. *)
Theorem writeRules_writes_the_rules (rules : list (list Rule)) (path : string)
    (itemizer : Itemizer) (w : world) :
  let text := renderRules itemizer rules in
  let run := writeRules rules path itemizer w in
  files (snd run) = files w /\ devices (snd run) = devices w /\
  (forall q, q <> path -> contents q (trace (snd run)) [] = contents q (trace w) []) /\
  match devices w !! path with
  | None => fst run = Err (ErrCreate path) /\ trace (snd run) = trace w ++ [EvCreate path]
  | Some room =>
      fst run = writeResult path room text /\
      trace (snd run) = trace w ++ EvCreate path :: map (EvWrite path) (accepted room text) /\
      contents path (trace (snd run)) [] = accepted room text
  end.
Proof.
  intros text run. subst run. rewrite writeRules_chunks. apply create_and_write.
Qed.

Lemma countRules_from (rules : list (list Rule)) (n : Z) :
  fold_left (fun n chunk => n + Z.of_nat (length chunk)) rules n
  = n + Z.of_nat (length (concat rules)).
Proof.
  revert n. induction rules as [|chunk rules IH]; intros n; cbn [fold_left concat].
  - simpl. lia.
  - rewrite IH, length_app. lia.
Qed.

(** [countRules] is the number of rules of all the chunks together: it
    adds up over concatenation, and it is 0 exactly when every chunk is
    empty. *)
Theorem countRules_counts_all_chunks (rules rules' : list (list Rule)) :
  countRules rules = Z.of_nat (length (concat rules)) /\
  countRules (rules ++ rules') = countRules rules + countRules rules' /\
  (countRules rules = 0 <-> Forall (fun chunk => chunk = []) rules).
Proof.
  unfold countRules. rewrite !countRules_from, concat_app, length_app.
  split_and!; [lia|lia|].
  rewrite Z.add_0_l. split.
  - intros Hzero. assert (Hnil : concat rules = []) by (apply length_zero_iff_nil; lia).
    clear Hzero. induction rules as [|chunk rules IH]; [constructor|].
    cbn [concat] in Hnil. apply app_eq_nil in Hnil as [-> Hnil]. constructor; auto.
  - intros Hall. induction Hall as [|chunk rules -> _ IH]; [done|]. exact IH.
Qed.

(** ** The thresholds that [Validate] accepts *)

Lemma f64_le_not_lt (x y : float64) : f64_le y x = true -> f64_lt x y = false.
Proof.
  unfold f64_lt, f64_le, SFltb, SFleb. rewrite (SFcompare_swap x y).
  destruct (SFcompare x y) as [[]|]; simpl; done.
Qed.

Lemma f64_nan_not_lt (x y : float64) :
  f64_is_nan x = true \/ f64_is_nan y = true -> f64_lt x y = false.
Proof.
  unfold f64_lt, SFltb. intros [Hnan|Hnan].
  - by destruct x.
  - by destruct y, x.
Qed.

Lemma outOfUnitRange_false (x : float64) :
  outOfUnitRange x = false <->
  f64_is_nan x = true \/ (f64_le f64_zero x = true /\ f64_le x f64_one = true).
Proof.
  unfold outOfUnitRange. rewrite orb_false_iff. split.
  - intros [H0 H1]. destruct (f64_is_nan x) eqn:Hnan; [by left|right].
    split; by apply f64_not_lt_le.
  - intros [Hnan|[H0 H1]].
    + split; apply f64_nan_not_lt; auto.
    + split; by apply f64_le_not_lt.
Qed.

Lemma liftOutOfRange_false (x : float64) :
  liftOutOfRange x = false <->
  f64_is_nan x = true \/ f64_eq x f64_zero = true \/ f64_le f64_one x = true.
Proof.
  unfold liftOutOfRange. rewrite andb_false_iff, negb_false_iff. split.
  - intros [Hzero|Hlt]; [by right; left|].
    destruct (f64_is_nan x) eqn:Hnan; [by left|right; right].
    by apply f64_not_lt_le.
  - intros [Hnan|[Hzero|Hle]]; [right|by left|right].
    + apply f64_nan_not_lt; auto.
    + by apply f64_le_not_lt.
Qed.

(** [Validate] accepts the arguments exactly when MinSupport and
    MinConfidence are each a NaN or a number of [[0, 1]], and MinLift is a
    NaN, a zero (of either sign) or at least 1 (the infinity included): a
    threshold that is not a number passes every check. *)
Theorem Validate_accepts_NaN_and_range (args : Arguments) :
  Validate args = None <->
  (f64_is_nan (MinSupport args) = true \/
   (f64_le f64_zero (MinSupport args) = true /\ f64_le (MinSupport args) f64_one = true)) /\
  (f64_is_nan (MinConfidence args) = true \/
   (f64_le f64_zero (MinConfidence args) = true /\
    f64_le (MinConfidence args) f64_one = true)) /\
  (f64_is_nan (MinLift args) = true \/ f64_eq (MinLift args) f64_zero = true \/
   f64_le f64_one (MinLift args) = true).
Proof.
  rewrite <- !outOfUnitRange_false, <- liftOutOfRange_false, Validate_cases.
  destruct (outOfUnitRange (MinSupport args)), (outOfUnitRange (MinConfidence args)),
           (liftOutOfRange (MinLift args)); split; intros; destruct_and?; done.
Qed.

Section entry_point.
Variable cmp : Item -> Item -> bool.

(** ** The first pass *)

Lemma countLine_numTransactions (lines : list string) (st : Itemizer * itemCount * Z) :
  snd (fold_left countLine lines st) = snd st + Z.of_nat (length lines).
Proof.
  revert st. induction lines as [|line lines IH]; intros st; cbn [fold_left length].
  - lia.
  - rewrite IH. destruct st as [[itemizer frequency] n]. unfold countLine.
    destruct (Itemizer_forEachItem _ _ _ _) as [itemizer' frequency']. cbn [snd]. lia.
Qed.

Lemma countItems_run (path : string) (w : world) :
  countItems path w =
    (match files w !! path with
     | None => Err (ErrOpen path)
     | Some f =>
         match f_err f with
         | Some err => Err err
         | None => Ok (firstPass (f_lines f))
         end
     end, record (EvOpen path) w).
Proof.
  unfold countItems, mbind, IO_bind, os_Open, firstPass.
  destruct (files w !! path) as [f|]; [|reflexivity].
  destruct (f_err f); reflexivity.
Qed.

(** [countItems] opens the file once and touches nothing else.  A path
    that cannot be opened gives the error of [os.Open]; an error of the
    scanner is returned as it is; otherwise [numTransactions] is the
    number of lines of the file, empty lines and lines without item
    included. *)
Theorem countItems_counts_the_lines (path : string) (w : world) :
  let run := countItems path w in
  snd run = record (EvOpen path) w /\
  match files w !! path with
  | None => fst run = Err (ErrOpen path)
  | Some f =>
      match f_err f with
      | Some err => fst run = Err err
      | None =>
          exists itemizer frequency,
            fst run = Ok (itemizer, frequency, Z.of_nat (length (f_lines f)))
      end
  end.
Proof.
  intros run. subst run. rewrite countItems_run. cbn [fst snd]. split; [reflexivity|].
  destruct (files w !! path) as [f|]; [|reflexivity].
  destruct (f_err f); [reflexivity|].
  pose proof (countLine_numTransactions (f_lines f) (newItemizer, makeCounts, 0)) as Hn.
  fold (firstPass (f_lines f)) in Hn. cbn [snd] in Hn.
  destruct (firstPass (f_lines f)) as [[itemizer frequency] n]. cbn [snd] in Hn.
  exists itemizer, frequency. rewrite Hn. reflexivity.
Qed.

(** ** The second pass *)

Lemma generateFrequentItemsets_run (path : string) (minSupport : float64)
    (itemizer : Itemizer) (frequency : itemCount) (numTransactions : Z) (w : world) :
  generateFrequentItemsets cmp path minSupport itemizer frequency numTransactions w =
    (match files w !! path with
     | None => Err (ErrOpen path)
     | Some f =>
         match f_err f with
         | Some err => Err err
         | None =>
             let minCount := minCountOf minSupport numTransactions in
             Ok (fpGrowth cmp
                   (fold_left (insertLine cmp itemizer frequency minCount) (f_lines f) newTree)
                   [] minCount)
         end
     end, record (EvOpen path) w).
Proof.
  unfold generateFrequentItemsets, mbind, IO_bind, os_Open.
  destruct (files w !! path) as [f|]; [|reflexivity].
  destruct (f_err f); reflexivity.
Qed.

(** ** The entry point *)

(** A run of the entry point on valid arguments and a readable input: the
    two passes, then the writers, whose errors are dropped. *)
Lemma MineAssociationRules_run (args : Arguments) (w : world) (lines : list string) :
  Validate args = None ->
  files w !! Input args = Some {| f_lines := lines; f_err := None |} ->
  let itemizer := fst (fst (firstPass lines)) in
  let frequency := snd (fst (firstPass lines)) in
  let numTransactions := snd (firstPass lines) in
  let minCount := minCountOf (MinSupport args) numTransactions in
  let itemsets :=
    fpGrowth cmp (fold_left (insertLine cmp itemizer frequency minCount) lines newTree)
      [] minCount in
  let rules := generateRules itemsets numTransactions (MinConfidence args) (MinLift args) in
  let w2 := record (EvOpen (Input args)) (record (EvOpen (Input args)) w) in
  let w3 := if (0 <? String.length (ItemsetsPath args))%nat
            then snd (writeItemsets itemsets (ItemsetsPath args) itemizer numTransactions w2)
            else w2 in
  MineAssociationRules cmp args w
  = (Ok (), snd (writeRules rules (Output args) itemizer w3)).
Proof.
  intros Hvalid Hfile itemizer frequency numTransactions minCount itemsets rules w2 w3.
  unfold MineAssociationRules. rewrite Hvalid.
  unfold mbind at 1. unfold IO_bind at 1. rewrite countItems_run, Hfile. cbn [f_err f_lines].
  subst w3 w2 rules itemsets minCount numTransactions frequency itemizer.
  destruct (firstPass lines) as [[itemizer frequency] numTransactions]. cbn [fst snd].
  unfold mbind at 1. unfold IO_bind at 1. rewrite generateFrequentItemsets_run.
  cbn [record files]. rewrite Hfile. cbn [f_err f_lines].
  unfold mbind at 1. unfold IO_bind at 1.
  destruct (0 <? String.length (ItemsetsPath args))%nat.
  - unfold discard_error at 1. unfold mbind, IO_bind, discard_error. reflexivity.
  - cbn [mret IO_ret]. unfold mbind, IO_bind, discard_error. reflexivity.
Qed.

(** An error of the first pass is returned, nothing else having been
    done. *)
Lemma MineAssociationRules_read_error (args : Arguments) (w : world) (err : error) :
  Validate args = None ->
  fst (countItems (Input args) w) = Err err ->
  MineAssociationRules cmp args w = (Err err, record (EvOpen (Input args)) w).
Proof.
  intros Hvalid Herr. unfold MineAssociationRules. rewrite Hvalid.
  unfold mbind at 1. unfold IO_bind at 1.
  rewrite countItems_run in Herr |- *. cbn [fst] in Herr. by rewrite Herr.
Qed.

(** The value that [MineAssociationRules] returns: the error of
    [Validate]; else the error of opening Input; else the error of reading
    it; else [nil].  No other error is ever returned: whatever happens to
    the two output files, the caller gets [nil]. *)
Theorem MineAssociationRules_returns_read_errors_only (args : Arguments) (w : world) :
  fst (MineAssociationRules cmp args w) =
    match Validate args with
    | Some err => Err err
    | None =>
        match files w !! Input args with
        | None => Err (ErrOpen (Input args))
        | Some f =>
            match f_err f with
            | Some err => Err err
            | None => Ok ()
            end
        end
    end.
Proof.
  destruct (Validate args) as [err|] eqn:Hvalid.
  - by rewrite (MineAssociationRules_invalid cmp args err w Hvalid).
  - destruct (files w !! Input args) as [[lines [err|]]|] eqn:Hfile; cbn [f_err].
    + rewrite (MineAssociationRules_read_error args w err Hvalid); [done|].
      by rewrite countItems_run, Hfile.
    + by rewrite (MineAssociationRules_run args w lines Hvalid Hfile).
    + rewrite (MineAssociationRules_read_error args w (ErrOpen (Input args)) Hvalid); [done|].
      by rewrite countItems_run, Hfile.
Qed.


(** What a file that is created and written adds to the trace: calls on
    its path only. *)
Lemma create_and_write_events (path : string) (text : list chunk) (w : world) :
  let run := IO_bind string unit (fun output => forEach text (Fprint output))
               (os_Create path) w in
  exists evs, trace (snd run) = trace w ++ evs /\
    Forall (fun ev => match ev with
                      | EvOpen _ => False
                      | EvCreate p | EvWrite p _ => p = path
                      end) evs.
Proof.
  intros run. destruct (create_and_write path text w) as (_ & _ & _ & Hrun). fold run in Hrun.
  destruct (devices w !! path) as [room|].
  - destruct Hrun as (_ & Htrace & _). eexists. split; [exact Htrace|].
    constructor; [reflexivity|]. apply Forall_forall. intros ev Hev.
    apply list_elem_of_fmap in Hev as (c & -> & _). reflexivity.
  - destruct Hrun as [_ Htrace]. eexists. split; [exact Htrace|]. by repeat constructor.
Qed.

Lemma nonempty_path (p : string) :
  (0 <? String.length p)%nat = true <-> p <> EmptyString.
Proof.
  destruct p; simpl; split; done.
Qed.

(** The file operations of [MineAssociationRules]: it opens Input, at
    most twice, before anything else; after that it creates and writes
    Output, and ItemsetsPath when that path is not empty, and nothing
    else.  When it returns an error, no file has been created or
    written. *)
Theorem MineAssociationRules_touches_its_files_only (args : Arguments) (w : world) :
  let run := MineAssociationRules cmp args w in
  files (snd run) = files w /\ devices (snd run) = devices w /\
  exists k evs,
    (k <= 2)%nat /\
    trace (snd run) = trace w ++ replicate k (EvOpen (Input args)) ++ evs /\
    Forall (isOutputEvent args) evs /\
    (fst run <> Ok () -> evs = []).
Proof.
  intros run. subst run.
  destruct (Validate args) as [err|] eqn:Hvalid.
  { rewrite (MineAssociationRules_invalid cmp args err w Hvalid). cbn [fst snd].
    split_and!; [done|done|]. exists 0%nat, [].
    split_and!; [lia|by rewrite app_nil_r|constructor|done]. }
  destruct (files w !! Input args) as [[lines [err|]]|] eqn:Hfile.
  - rewrite (MineAssociationRules_read_error args w err Hvalid)
      by (by rewrite countItems_run, Hfile).
    cbn [fst snd]. split_and!; [done|done|].
    exists 1%nat, []. split_and!; [lia|done|constructor|done].
  - rewrite (MineAssociationRules_run args w lines Hvalid Hfile). cbn [fst snd].
    set (itemizer := fst (fst (firstPass lines))).
    set (numTransactions := snd (firstPass lines)).
    set (itemsets := fpGrowth cmp _ _ _).
    set (rules := generateRules _ _ _ _).
    set (w2 := record (EvOpen (Input args)) (record (EvOpen (Input args)) w)).
    set (w3 := if (0 <? String.length (ItemsetsPath args))%nat then _ else w2).
    assert (H3 : files w3 = files w /\ devices w3 = devices w /\
              exists evs, trace w3 = trace w2 ++ evs /\ Forall (isOutputEvent args) evs).
    { subst w3. destruct (0 <? String.length (ItemsetsPath args))%nat eqn:Hpath.
      - apply nonempty_path in Hpath. rewrite writeItemsets_chunks.
        destruct (create_and_write (ItemsetsPath args)
                    (renderItemsets itemizer numTransactions itemsets) w2) as (Hf & Hd & _).
        destruct (create_and_write_events (ItemsetsPath args)
                    (renderItemsets itemizer numTransactions itemsets) w2) as (evs & Htr & Hevs).
        split_and!; [exact Hf|exact Hd|]. exists evs. split; [exact Htr|].
        eapply Forall_impl; [exact Hevs|]. intros [p|p|p c]; cbn; [done|..]; intros ->; by right.
      - split_and!; [done|done|]. exists []. by rewrite app_nil_r. }
    destruct H3 as (Hf3 & Hd3 & evs1 & Htr3 & Hevs1).
    rewrite writeRules_chunks.
    destruct (create_and_write (Output args) (renderRules itemizer rules) w3) as (Hf & Hd & _).
    destruct (create_and_write_events (Output args) (renderRules itemizer rules) w3)
      as (evs2 & Htr & Hevs2).
    split_and!; [congruence|congruence|].
    exists 2%nat, (evs1 ++ evs2). split_and!; [lia| | |done].
    + rewrite Htr, Htr3. subst w2. cbn [record trace replicate].
      rewrite <- !app_assoc. reflexivity.
    + apply Forall_app. split; [exact Hevs1|].
      eapply Forall_impl; [exact Hevs2|]. intros [p|p|p c]; cbn; [done|..]; intros ->; by left.
  - rewrite (MineAssociationRules_read_error args w (ErrOpen (Input args)) Hvalid)
      by (by rewrite countItems_run, Hfile).
    cbn [fst snd]. split_and!; [done|done|].
    exists 1%nat, []. split_and!; [lia|done|constructor|done].
Qed.

(** What the files hold after [MineAssociationRules] on valid arguments
    and a readable Input: Output holds the text of the rules generated
    from the mined itemsets (as much of it as the device takes), also when
    ItemsetsPath is the same path, the rules then replacing the itemsets;
    ItemsetsPath, when it is not empty and not Output, holds the text of
    the mined itemsets; every other file is as before. *)
Theorem MineAssociationRules_writes_rules_and_itemsets (args : Arguments) (w : world)
    (lines : list string) :
  Validate args = None ->
  files w !! Input args = Some {| f_lines := lines; f_err := None |} ->
  let itemizer := fst (fst (firstPass lines)) in
  let frequency := snd (fst (firstPass lines)) in
  let numTransactions := snd (firstPass lines) in
  let minCount := minCountOf (MinSupport args) numTransactions in
  let itemsets :=
    fpGrowth cmp (fold_left (insertLine cmp itemizer frequency minCount) lines newTree)
      [] minCount in
  let rules := generateRules itemsets numTransactions (MinConfidence args) (MinLift args) in
  let w' := snd (MineAssociationRules cmp args w) in
  (forall room, devices w !! Output args = Some room ->
     contents (Output args) (trace w') [] = accepted room (renderRules itemizer rules)) /\
  (forall room, ItemsetsPath args <> EmptyString -> ItemsetsPath args <> Output args ->
     devices w !! ItemsetsPath args = Some room ->
     contents (ItemsetsPath args) (trace w') []
     = accepted room (renderItemsets itemizer numTransactions itemsets)) /\
  (forall q, q <> Output args -> ItemsetsPath args = EmptyString \/ q <> ItemsetsPath args ->
     contents q (trace w') [] = contents q (trace w) []).
Proof.
  intros Hvalid Hfile itemizer frequency numTransactions minCount itemsets rules w'.
  subst w'. rewrite (MineAssociationRules_run args w lines Hvalid Hfile). cbn [snd].
  fold itemizer frequency numTransactions minCount itemsets rules.
  set (w2 := record (EvOpen (Input args)) (record (EvOpen (Input args)) w)).
  set (w3 := if (0 <? String.length (ItemsetsPath args))%nat then _ else w2).
  assert (H2 : forall q, contents q (trace w2) [] = contents q (trace w) []).
  { intros q. subst w2. cbn [record trace]. by rewrite !contents_app. }
  assert (Hd3 : devices w3 = devices w).
  { subst w3. destruct (0 <? String.length (ItemsetsPath args))%nat; [|done].
    rewrite writeItemsets_chunks.
    by destruct (create_and_write (ItemsetsPath args)
                   (renderItemsets itemizer numTransactions itemsets) w2) as (_ & -> & _). }
  rewrite writeRules_chunks.
  destruct (create_and_write (Output args) (renderRules itemizer rules) w3)
    as (_ & _ & Hother & Hrules).
  rewrite Hd3 in Hrules.
  split_and!.
  - intros room Hroom. rewrite Hroom in Hrules. apply Hrules.
  - intros room Hpath Hne Hroom. rewrite Hother by done.
    subst w3. apply nonempty_path in Hpath. rewrite Hpath. rewrite writeItemsets_chunks.
    destruct (create_and_write (ItemsetsPath args)
                (renderItemsets itemizer numTransactions itemsets) w2) as (_ & _ & _ & Hsets).
    change (devices w2) with (devices w) in Hsets. rewrite Hroom in Hsets. apply Hsets.
  - intros q Hq Hq'. rewrite Hother by done. subst w3.
    destruct (0 <? String.length (ItemsetsPath args))%nat eqn:Hpath; [|apply H2].
    apply nonempty_path in Hpath. destruct Hq' as [Hq'|Hq']; [done|].
    rewrite writeItemsets_chunks.
    destruct (create_and_write (ItemsetsPath args)
                (renderItemsets itemizer numTransactions itemsets) w2) as (_ & _ & Hoth & _).
    rewrite Hoth by done. apply H2.
Qed.

End entry_point.

Section scheduler.
Variable cmp : Item -> Item -> bool.

(** ** The frequent items of a tree *)

(** [frequentItemsInTree] returns the keys of the header table whose count
    is strictly above [minCount], each of them once and nothing else; a
    higher [minCount] removes items and adds none. *)
Theorem frequentItemsInTree_exact (tree : fpTree) (minCount : Z) :
  NoDup (frequentItemsInTree tree minCount) /\
  (forall i, i ∈ frequentItemsInTree tree minCount <->
             is_Some (itemList tree !! i) /\ minCount < itemCount_get (counts tree) i) /\
  (forall minCount', minCount <= minCount' ->
     sublist (frequentItemsInTree tree minCount') (frequentItemsInTree tree minCount)).
Proof.
  unfold frequentItemsInTree. split_and!.
  - apply NoDup_filter, NoDup_fst_map_to_list.
  - intros i. rewrite list_elem_of_filter, list_elem_of_fmap. split.
    + intros [Hlt ([j chain] & -> & Hin)]. split; [|done].
      apply elem_of_map_to_list in Hin. by eexists.
    + intros [[chain Hchain] Hlt]. split; [done|].
      exists (i, chain). split; [done|]. by apply elem_of_map_to_list.
  - intros minCount' Hle. 
    induction (map fst (map_to_list (itemList tree))) as [|x l IH]; [constructor|].
    rewrite !filter_cons.
    destruct (decide (minCount' < itemCount_get (counts tree) x)) as [Hx|Hx].
    + rewrite decide_True by lia. by constructor.
    + destruct (decide (minCount < itemCount_get (counts tree) x)); [by constructor|done].
Qed.


(** ** The scheduler: when it panics, what it keeps *)

Lemma fpGrowth_not_nil (tree : fpTree) (prefix : list Item) (minCount : Z) :
  frequentItemsInTree tree minCount <> [] -> fpGrowth cmp tree prefix minCount <> [].
Proof.
  intros Hfreq. rewrite fpGrowth_unfold.
  destruct (frequentItemsInTree tree minCount) as [|i items]; [done|]. done.
Qed.

Lemma parallelFpGrowth_can_return (tree : fpTree) (minCount : Z) :
  frequentItemsInTree tree minCount <> [] ->
  exists itemsets, parallelFpGrowth cmp tree minCount (Returns itemsets).
Proof.
  intros Hfreq.
  assert (HW : (0 < numWorkers)%nat) by (unfold numWorkers; lia).
  assert (Hcap : (0 < channelCapacity)%nat) by (unfold channelCapacity; lia).
  pose proof (initial_invariant cmp minCount numWorkers tree
                (frequentItemsInTree tree minCount) ltac:(done) Hfreq) as Hinv.
  destruct (invariant_completes cmp _ _ _ _ _ _ HW Hcap Hcap Hinv) as (s & Hrun & Hfin & _).
  exists (output s), s. split; [|done]. by eexists.
Qed.

Lemma parallelFpGrowth_panics_without (tree : fpTree) (minCount : Z) :
  (parallelFpGrowth cmp tree minCount Panics <-> frequentItemsInTree tree minCount = []) /\
  ((exists itemsets, parallelFpGrowth cmp tree minCount (Returns itemsets)) <->
   frequentItemsInTree tree minCount <> []).
Proof.
  split; split.
  - intros (s & Hreach & Hm).
    destruct (frequentItemsInTree tree minCount) as [|i items] eqn:Hfreq; [done|].
    assert (Hne : frequentItemsInTree tree minCount <> []) by (by rewrite Hfreq).
    pose proof (reachable_invariant cmp _ _ _ _ _ _ Hne Hreach) as [_ _ _ _ Hmaster].
    by rewrite Hm in Hmaster.
  - intros Hfreq. by apply parallelFpGrowth_no_frequent_item.
  - intros [itemsets Hret] Hfreq.
    destruct (parallelFpGrowth_no_frequent_item cmp tree minCount Hfreq) as (_ & _ & Honly).
    by specialize (Honly _ Hret).
  - apply parallelFpGrowth_can_return.
Qed.

Lemma invariant_returned_output (tree : fpTree) (minCount : Z)
    (itemsets : list itemsetWithCount) :
  frequentItemsInTree tree minCount <> [] ->
  parallelFpGrowth cmp tree minCount (Returns itemsets) ->
  itemsets ≡ₚ fpGrowth cmp tree [] minCount.
Proof.
  intros Hne (s & Hreach & Hm & <-).
  eapply invariant_returned; [|exact Hm]. by eapply reachable_invariant.
Qed.

(** When [parallelFpGrowth] panics and when it returns: a run can end in
    the panic of [master] exactly when no item of the tree has a count
    above [minCount], and a run can end in a return exactly when some item
    has. *)
Theorem parallelFpGrowth_panics_exactly_without_frequent_item (tree : fpTree)
    (minCount : Z) :
  (parallelFpGrowth cmp tree minCount Panics <-> frequentItemsInTree tree minCount = []) /\
  ((exists itemsets, parallelFpGrowth cmp tree minCount (Returns itemsets)) <->
   frequentItemsInTree tree minCount <> []).
Proof. apply parallelFpGrowth_panics_without. Qed.

(** The channels never hold more than their capacity. *)
Lemma reachable_capacity (minCount : Z) (capToWorker capFromWorker nWorkers : nat)
    (tree : fpTree) (s : system) :
  reachable cmp minCount capToWorker capFromWorker nWorkers tree s ->
  (length (toWorker s) <= capToWorker)%nat /\ (length (fromWorker s) <= capFromWorker)%nat.
Proof.
  intros (items & _ & Hrun). revert s Hrun. apply rtc_ind_r; [simpl; lia|].
  intros s1 s2 _ Hstep [Hto Hfrom].
  destruct Hstep as [s ts lastTask item items' task rest Hm Hts Hitems Hfr
                    |s ts lastTask item items' Hm Hts Hitems Hroom
                    |s ts lastTask Hm Hts Hitems
                    |s task rest Hm Hts Hpos Hfr
                    |s Hm Hts Hle
                    |s k task rest Hm Hk Hto'
                    |s k Hm Hk Hto' Hclosed
                    |s k conditionalTree prefix items' Hm Hk Hperm
                    |s k task Hm Hk Hroom];
    cbn [toWorker fromWorker afterReceive afterSend setMaster setWorker];
    rewrite ?length_app; cbn [length];
    try rewrite Hfr in Hfrom; try rewrite Hto' in Hto; try rewrite Hto';
    cbn [length] in *; lia.
Qed.

(** What the scheduler keeps at every point of every run, whatever the
    number of workers and the capacities: [outstandingJobs] is the number
    of jobs in the two channels and in the hands of the workers, so it is
    never negative and never above the two capacities plus the number of
    workers; no channel holds more than its capacity; the number of
    workers does not change; [toWorker] is closed exactly when [master]
    has returned; and the itemsets collected so far are itemsets of the
    sequential miner, none of them collected more often than the
    sequential miner emits it. *)
Theorem reachable_job_accounting (minCount : Z) (capToWorker capFromWorker nWorkers : nat)
    (tree : fpTree) (s : system) :
  reachable cmp minCount capToWorker capFromWorker nWorkers tree s ->
  outstandingJobs s =
    Z.of_nat (length (toWorker s) + sum_list_with busy (workers s) + length (fromWorker s)) /\
  0 <= outstandingJobs s <= Z.of_nat (capToWorker + nWorkers + capFromWorker) /\
  (length (toWorker s) <= capToWorker)%nat /\
  (length (fromWorker s) <= capFromWorker)%nat /\
  length (workers s) = nWorkers /\
  (toWorkerClosed s = true <-> masterAt s = MasterReturned) /\
  output s ⊆+ fpGrowth cmp tree [] minCount.
Proof.
  intros Hreach.
  destruct (reachable_capacity _ _ _ _ _ _ Hreach) as [Hto Hfrom].
  assert (Hbusy : forall l : list workerPC, (sum_list_with busy l <= length l)%nat).
  { induction l as [|pc l IH]; [done|]. destruct pc; simpl; lia. }
  assert (Hmain :
    outstandingJobs s =
      Z.of_nat (length (toWorker s) + sum_list_with busy (workers s) + length (fromWorker s)) /\
    length (workers s) = nWorkers /\
    (toWorkerClosed s = true <-> masterAt s = MasterReturned) /\
    output s ⊆+ fpGrowth cmp tree [] minCount).
  { destruct (frequentItemsInTree tree minCount) as [|i items] eqn:Hfreq.
    - destruct (reachable_no_frequent_item cmp _ _ _ _ _ _ Hfreq Hreach) as [-> | ->];
        cbn [initialSystem setMaster outstandingJobs toWorker fromWorker workers
             toWorkerClosed masterAt output length];
        rewrite busy_idle, length_replicate;
        (split_and!; [done|done|done|apply submseteq_nil_l]).
    - assert (Hne : frequentItemsInTree tree minCount <> []) by (by rewrite Hfreq).
      pose proof (reachable_invariant cmp _ _ _ _ _ _ Hne Hreach)
        as [Hout Hjobs _ Hworkers Hmaster].
      split_and!; [done|done| |].
      + destruct (masterAt s); [|tauto|done].
        destruct Hmaster as [-> _]. done.
      + rewrite <- Hout. by apply submseteq_inserts_r. }
  destruct Hmain as (Hjobs & Hworkers & Hclosed & Hout).
  specialize (Hbusy (workers s)).
  split_and!; try done; lia.
Qed.

(** ** The stand-alone program and the package *)

Lemma package_frequentItemsets_run (input : string) (minSupport : float64) (w : world) :
  fst (package_frequentItemsets cmp input minSupport w) =
    match files w !! input with
    | None => Err (ErrOpen input)
    | Some f =>
        match f_err f with
        | Some err => Err err
        | None =>
            let itemizer := fst (fst (firstPass (f_lines f))) in
            let frequency := snd (fst (firstPass (f_lines f))) in
            let minCount := minCountOf minSupport (snd (firstPass (f_lines f))) in
            Ok (fpGrowth cmp
                  (fold_left (insertLine cmp itemizer frequency minCount) (f_lines f) newTree)
                  [] minCount)
        end
    end.
Proof.
  unfold package_frequentItemsets. rewrite countItems_run.
  destruct (files w !! input) as [[lines [err|]]|] eqn:Hfile; cbn [f_err f_lines]; try done.
  destruct (firstPass lines) as [[itemizer frequency] n]. cbn [fst snd].
  rewrite generateFrequentItemsets_run. cbn [record files]. by rewrite Hfile.
Qed.

(** The mining of the stand-alone program against that of the package, on
    the same file: when the program returns, the package returns a
    collection that is not empty, and the two collections are the same up
    to the order; the program can return exactly when the package returns
    a collection that is not empty; and the program can panic exactly when
    the package returns an error or the empty collection. *)
Theorem main_frequentItemsets_agrees_with_package (input : string) (minSupport : float64)
    (w : world) :
  (forall itemsets, main_frequentItemsets cmp input minSupport w (Returns itemsets) ->
     exists mined, fst (package_frequentItemsets cmp input minSupport w) = Ok mined /\
                   mined <> [] /\ itemsets ≡ₚ mined) /\
  ((exists itemsets, main_frequentItemsets cmp input minSupport w (Returns itemsets)) <->
   exists mined, fst (package_frequentItemsets cmp input minSupport w) = Ok mined /\
                 mined <> []) /\
  (main_frequentItemsets cmp input minSupport w Panics <->
   fst (package_frequentItemsets cmp input minSupport w) = Ok [] \/
   exists err, fst (package_frequentItemsets cmp input minSupport w) = Err err).
Proof.
  rewrite package_frequentItemsets_run.
  destruct (files w !! input) as [[lines [err|]]|] eqn:Hfile; cbn [f_err f_lines].
  - assert (Hmain : forall o, main_frequentItemsets cmp input minSupport w o <-> o = Panics).
    { intros o. unfold main_frequentItemsets. rewrite countItems_run, Hfile. done. }
    split_and!.
    + intros itemsets Hret. by apply Hmain in Hret.
    + split; [intros [itemsets Hret]; by apply Hmain in Hret|].
      intros (mined & Hmined & _). done.
    + split; [intros _; right; by eexists|]. intros _. by apply Hmain.
  - pose proof (fun o => main_frequentItemsets_mines cmp input minSupport w lines o Hfile)
      as Hmain. cbv zeta in Hmain |- *.
    set (minCount := minCountOf minSupport (snd (firstPass lines))) in *.
    set (tree := fold_left _ lines newTree) in *.
    destruct (parallelFpGrowth_panics_without tree minCount) as [Hpanic Hreturn].
    split_and!.
    + intros itemsets Hret. apply Hmain in Hret. eexists. split; [done|].
      assert (Hne : frequentItemsInTree tree minCount <> []).
      { apply Hreturn. by eexists. }
      split; [by apply fpGrowth_not_nil|].
      eapply invariant_returned_output; [exact Hne|exact Hret].
    + split.
      * intros [itemsets Hret]. apply Hmain in Hret. eexists. split; [done|].
        apply fpGrowth_not_nil, Hreturn. by eexists.
      * intros (mined & Hmined & Hne). simplify_eq.
        destruct (frequentItemsInTree tree minCount) as [|i items] eqn:Hfreq.
        { exfalso. apply Hne. rewrite fpGrowth_unfold, Hfreq. done. }
        destruct (parallelFpGrowth_can_return tree minCount) as [itemsets Hret];
          [by rewrite Hfreq|].
        exists itemsets. by apply Hmain.
    + rewrite Hmain. split.
      * intros Hp. left. f_equal. apply Hpanic in Hp. rewrite fpGrowth_unfold, Hp. done.
      * intros [Hnil|[err Herr]]; [|done]. simplify_eq. apply Hpanic.
        destruct (frequentItemsInTree tree minCount) as [|i items] eqn:Hfreq; [done|].
        exfalso. eapply (fpGrowth_not_nil tree [] minCount); [by rewrite Hfreq|done].
  - assert (Hmain : forall o, main_frequentItemsets cmp input minSupport w o <-> o = Panics).
    { intros o. unfold main_frequentItemsets. rewrite countItems_run, Hfile. done. }
    split_and!.
    + intros itemsets Hret. by apply Hmain in Hret.
    + split; [intros [itemsets Hret]; by apply Hmain in Hret|].
      intros (mined & Hmined & _). done.
    + split; [intros _; right; by eexists|]. intros _. by apply Hmain.
Qed.

(** The parallel miner against the sequential miner, on a tree with a
    frequent item.  Whatever the number of workers and the capacities of
    the channels, when [master] has returned the slice collected from
    [output] is that of [fpGrowth], up to the order; the program itself
    (28 workers, capacity 10000) cannot panic, can always run to the
    return of [master], and whenever it returns, what it returns is what
    [fpGrowth] returns, up to the order. *)
Theorem parallelFpGrowth_agrees_with_fpGrowth (tree : fpTree) (minCount : Z) :
  frequentItemsInTree tree minCount <> [] ->
  (forall capToWorker capFromWorker nWorkers s,
     reachable cmp minCount capToWorker capFromWorker nWorkers tree s ->
     masterAt s = MasterReturned ->
     output s ≡ₚ fpGrowth cmp tree [] minCount) /\
  (forall itemsets, parallelFpGrowth cmp tree minCount (Returns itemsets) ->
     itemsets ≡ₚ fpGrowth cmp tree [] minCount) /\
  ~ parallelFpGrowth cmp tree minCount Panics /\
  exists itemsets, parallelFpGrowth cmp tree minCount (Returns itemsets).
Proof.
  intros Hfreq. split_and!.
  - intros capToWorker capFromWorker nWorkers s Hreach Hm.
    eapply invariant_returned; [|exact Hm]. by eapply reachable_invariant.
  - intros itemsets Hret. by apply invariant_returned_output.
  - intros Hpanic. by apply parallelFpGrowth_panics_without in Hpanic.
  - by apply parallelFpGrowth_can_return.
Qed.

End scheduler.

(** ** The writers of the stand-alone program, against those of the package *)

(** Writing without looking at the errors leaves the files as writing up
    to the first error does: once a write has failed, the later ones fail
    too. *)
Lemma forEach_Fprint_unchecked (path : string) (cs : list chunk) (w : world)
    (room : option nat) :
  devices w !! path = Some room ->
  forEach cs (fun c => discard_error (Fprint path c)) w
  = (Ok (), snd (forEach cs (Fprint path) w)).
Proof.
  revert w. induction cs as [|c cs IH]; intros w Hdev; [reflexivity|].
  cbn [forEach]. unfold mbind, IO_bind. unfold discard_error at 1.
  destruct (Fprint path c w) as [[[]|err] w1] eqn:Hprint; cbn [snd].
  - apply IH. unfold Fprint in Hprint. rewrite Hdev in Hprint.
    destruct room as [k|]; [destruct (bool_decide _)|]; by simplify_eq.
  - assert (Hw1 : w1 = w /\ exists k, room = Some k /\
                    (k <= length (contents path (trace w) []))%nat).
    { unfold Fprint in Hprint. rewrite Hdev in Hprint.
      destruct room as [k|]; [|by simplify_eq].
      destruct (bool_decide_reflect (length (contents path (trace w) []) < k)%nat);
        simplify_eq. split; [done|]. exists k. split; [done|lia]. }
    destruct Hw1 as (-> & k & -> & Hfull).
    rewrite (IH w Hdev). f_equal.
    rewrite (forEach_Fprint path cs w (Some k) Hdev). cbn [snd roomLeft accepted].
    replace (k - length (contents path (trace w) []))%nat with 0%nat by lia.
    rewrite take_0. cbn [map]. rewrite app_nil_r. by destruct w.
Qed.

Lemma main_writeItems_chunks (path : string) (itemizer : Itemizer) (first : bool)
    (items : list Item) (w : world) :
  main_writeItems path itemizer first items w
  = forEach (if first then renderItems itemizer items
             else flat_map (fun c => [Text " "; c])
                    (map (fun item => Text (Itemizer_toStr itemizer item)) items))
      (fun c => discard_error (Fprint path c)) w.
Proof.
  revert first w. induction items as [|item items IH]; intros first w.
  - by destruct first.
  - cbn [main_writeItems]. unfold mbind. destruct first.
    + unfold renderItems. cbn [map separated forEach]. unfold mbind.
      unfold IO_bind at 1. cbn [mret IO_ret].
      apply IO_bind_ext; [reflexivity|]. intros _ w'. apply (IH false).
    + cbn [map flat_map app forEach]. unfold mbind.
      apply IO_bind_ext; [reflexivity|]. intros _ w'.
      apply IO_bind_ext; [reflexivity|]. intros _ w''. apply (IH false).
Qed.

Lemma main_writeItemsets_chunks (itemsets : list itemsetWithCount) (path : string)
    (itemizer : Itemizer) (numTransactions : Z) (w : world) :
  main_writeItemsets itemsets path itemizer numTransactions w
  = IO_bind string unit
      (fun output => forEach (renderItemsets itemizer numTransactions itemsets)
                       (fun c => discard_error (Fprint output c)))
      (os_Create path) w.
Proof.
  unfold main_writeItemsets, mbind. apply IO_bind_ext; [reflexivity|]. intros output w'.
  unfold renderItemsets. cbn [forEach]. unfold mbind.
  apply IO_bind_ext; [reflexivity|]. intros _ w1.
  assert (Hflush : forall w2, discard_error (Flush output) w2 = IO_ret unit () w2) by done.
  rewrite (IO_bind_ext _ _ _ (fun _ => IO_ret unit ()) w1 eq_refl (fun _ => Hflush)).
  rewrite IO_bind_ret_r.
  rewrite <- forEach_flat_map. apply forEach_ext. intros iwc w2.
  unfold renderItemset. rewrite forEach_app.
  apply IO_bind_ext; [apply (main_writeItems_chunks output itemizer true)|].
  intros _ w3. cbn [forEach]. unfold mbind.
  do 2 (apply IO_bind_ext; [reflexivity|]; intros _ ?).
  by rewrite IO_bind_ret_r.
Qed.

Lemma main_writeRules_chunks (rules : list (list Rule)) (path : string)
    (itemizer : Itemizer) (w : world) :
  main_writeRules rules path itemizer w
  = IO_bind string unit
      (fun output => forEach (renderRules itemizer rules)
                       (fun c => discard_error (Fprint output c)))
      (os_Create path) w.
Proof.
  unfold main_writeRules, mbind. apply IO_bind_ext; [reflexivity|]. intros output w'.
  unfold renderRules. cbn [forEach]. unfold mbind.
  apply IO_bind_ext; [reflexivity|]. intros _ w1.
  assert (Hflush : forall w2, discard_error (Flush output) w2 = IO_ret unit () w2) by done.
  rewrite (IO_bind_ext _ _ _ (fun _ => IO_ret unit ()) w1 eq_refl (fun _ => Hflush)).
  rewrite IO_bind_ret_r.
  rewrite flat_map_concat, <- forEach_flat_map. apply forEach_ext. intros chunk w2.
  rewrite <- forEach_flat_map. apply forEach_ext. intros rule w3.
  unfold renderRule. rewrite forEach_app.
  apply IO_bind_ext; [apply (main_writeItems_chunks output itemizer true)|].
  intros _ w4. cbn [app forEach]. unfold mbind.
  apply IO_bind_ext; [reflexivity|]. intros _ w5.
  rewrite forEach_app.
  apply IO_bind_ext; [apply (main_writeItems_chunks output itemizer true)|].
  intros _ w6. cbn [forEach]. unfold mbind.
  do 6 (apply IO_bind_ext; [reflexivity|]; intros _ ?).
  by rewrite IO_bind_ret_r.
Qed.

(** Creating a file and writing it without looking at the errors: the
    files are left as by the checked writes, and only the failure of the
    creation is reported. *)
Lemma create_and_write_unchecked (path : string) (text : list chunk) (w : world) :
  let unchecked := IO_bind string unit
                     (fun output => forEach text (fun c => discard_error (Fprint output c)))
                     (os_Create path) w in
  let checked := IO_bind string unit (fun output => forEach text (Fprint output))
                   (os_Create path) w in
  snd unchecked = snd checked /\
  fst unchecked = match devices w !! path with
                  | None => Err (ErrCreate path)
                  | Some _ => Ok ()
                  end.
Proof.
  intros unchecked checked. subst unchecked checked. unfold IO_bind, os_Create.
  destruct (devices w !! path) as [room|] eqn:Hdev; [|done].
  by rewrite (forEach_Fprint_unchecked path text (record (EvCreate path) w) room Hdev).
Qed.

(** The writers of the stand-alone program leave the files exactly as
    the writers of the package do, but they report less: they panic when
    the file cannot be created, and otherwise return normally, also when
    the device has taken only a part of the text. *)
Theorem main_writers_report_creation_only (itemsets : list itemsetWithCount)
    (rules : list (list Rule)) (path : string) (itemizer : Itemizer)
    (numTransactions : Z) (w : world) :
  let created := match devices w !! path with
                 | None => Err (ErrCreate path)
                 | Some _ => Ok ()
                 end in
  snd (main_writeItemsets itemsets path itemizer numTransactions w)
    = snd (writeItemsets itemsets path itemizer numTransactions w) /\
  fst (main_writeItemsets itemsets path itemizer numTransactions w) = created /\
  snd (main_writeRules rules path itemizer w) = snd (writeRules rules path itemizer w) /\
  fst (main_writeRules rules path itemizer w) = created.
Proof.
  intros created. subst created.
  rewrite main_writeItemsets_chunks, writeItemsets_chunks,
          main_writeRules_chunks, writeRules_chunks.
  destruct (create_and_write_unchecked path
              (renderItemsets itemizer numTransactions itemsets) w) as [Hs1 Hr1].
  destruct (create_and_write_unchecked path (renderRules itemizer rules) w) as [Hs2 Hr2].
  done.
Qed.

(** ** The threshold and the number of transactions *)

Lemma mod_mul_zero (m a b : Z) :
  0 < a -> 0 < b -> m mod (a * b) = 0 -> m mod a = 0 /\ (m / a) mod b = 0.
Proof.
  intros Ha Hb Hm. rewrite Z.rem_mul_r in Hm by lia.
  pose proof (Z.mod_pos_bound m a Ha). pose proof (Z.mod_pos_bound (m / a) b Hb).
  nia.
Qed.

(** A shift to the right that drops zeros only is exact. *)
Lemma shr_1_exact (m : Z) :
  0 <= m -> m mod 2 = 0 ->
  shr_1 {| shr_m := m; shr_r := false; shr_s := false |}
  = {| shr_m := m / 2; shr_r := false; shr_s := false |}.
Proof.
  intros Hm Hmod. destruct m as [|p|p]; [done| |lia].
  destruct p as [p|p|]; cbn [shr_1 orb].
  - exfalso. rewrite Pos2Z.inj_xI in Hmod.
    replace (2 * Z.pos p + 1) with (1 + Z.pos p * 2) in Hmod by lia.
    rewrite Z.mod_add in Hmod by lia. done.
  - f_equal. rewrite Pos2Z.inj_xO. apply Z.div_unique with 0; lia.
  - done.
Qed.

Lemma iter_pos_shr_1_exact (p : positive) (m : Z) :
  0 <= m -> m mod 2 ^ Z.pos p = 0 ->
  SpecFloat.iter_pos shr_1 p {| shr_m := m; shr_r := false; shr_s := false |}
  = {| shr_m := m / 2 ^ Z.pos p; shr_r := false; shr_s := false |}.
Proof.
  revert m. induction p as [p IH|p IH|]; intros m Hm Hmod; cbn [SpecFloat.iter_pos].
  - assert (Hp : 2 ^ Z.pos p~1 = 2 * (2 ^ Z.pos p * 2 ^ Z.pos p)).
    { replace (Z.pos p~1) with (1 + Z.pos p + Z.pos p) by lia.
      rewrite !Z.pow_add_r by lia. lia. }
    assert (H2p : 0 < 2 ^ Z.pos p) by (apply Z.pow_pos_nonneg; lia).
    rewrite Hp in Hmod |- *.
    apply mod_mul_zero in Hmod as [Hmod1 Hmod]; [|lia|lia].
    apply mod_mul_zero in Hmod as [Hmod2 Hmod3]; [|lia|lia].
    assert (0 <= m / 2) by (apply Z.div_pos; lia).
    assert (0 <= m / 2 / 2 ^ Z.pos p) by (apply Z.div_pos; lia).
    rewrite shr_1_exact, IH, IH by done.
    rewrite !Z.div_div by lia. do 2 f_equal; lia.
  - assert (Hp : 2 ^ Z.pos p~0 = 2 ^ Z.pos p * 2 ^ Z.pos p).
    { replace (Z.pos p~0) with (Z.pos p + Z.pos p) by lia.
      rewrite Z.pow_add_r by lia. lia. }
    assert (H2p : 0 < 2 ^ Z.pos p) by (apply Z.pow_pos_nonneg; lia).
    rewrite Hp in Hmod |- *.
    apply mod_mul_zero in Hmod as [Hmod1 Hmod2]; [|lia|lia].
    assert (0 <= m / 2 ^ Z.pos p) by (apply Z.div_pos; lia).
    rewrite IH, IH by done.
    rewrite !Z.div_div by lia. done.
  - by apply shr_1_exact.
Qed.

(** Rounding after an exact shift returns the shifted mantissa. *)
Lemma shr_fexp_exact (m e : Z) :
  0 <= m ->
  let k := Z.max 0 (fexp f64_prec f64_emax (Zdigits2 m + e) - e) in
  m mod 2 ^ k = 0 ->
  loc_of_shr_record (fst (shr_fexp f64_prec f64_emax m e loc_Exact)) = loc_Exact.
Proof.
  intros Hm k Hmod. unfold shr_fexp, shr. cbn [shr_record_of_loc].
  destruct (fexp f64_prec f64_emax (Zdigits2 m + e) - e) as [|p|p] eqn:Hk; subst k;
    cbn [fst]; try done.
  replace (Z.max 0 (Z.pos p)) with (Z.pos p) in Hmod by lia.
  by rewrite iter_pos_shr_1_exact.
Qed.

(** Rounding does not go above an integer that is above the exact value:
    for a positive mantissa [M] at an exponent [E <= 0] with
    [M * 2^E <= N < 2^53], the result is a zero or a float [m * 2^e] with
    [e <= 0] and [m * 2^e <= N]. *)
Lemma binary_round_aux_le (s : bool) (M : positive) (E N : Z) :
  E <= 0 -> N < 2 ^ 53 -> Z.pos M <= N * 2 ^ (- E) ->
  match binary_round_aux f64_prec f64_emax s (Z.pos M) E loc_Exact with
  | S754_zero _ => True
  | S754_finite _ m e => e <= 0 /\ Z.pos m <= N * 2 ^ (- e)
  | _ => False
  end.
Proof.
  intros HE HN HM. unfold binary_round_aux.
  pose proof (shr_fexp_m (Z.pos M) E loc_Exact ltac:(lia)) as [Hm' He'].
  pose proof (shr_fexp_exact (Z.pos M) E ltac:(lia)) as Hexact.
  destruct (shr_fexp f64_prec f64_emax (Z.pos M) E loc_Exact) as [mrs' e'].
  cbn [fst] in Hm', Hexact. cbn [snd] in He'.
  set (r := round_nearest_even (shr_m mrs') (loc_of_shr_record mrs')).
  pose proof (round_nearest_even_bounds (shr_m mrs') (loc_of_shr_record mrs')) as Hr.
  fold r in Hr.
  pose proof (digits2_pos_bounds M) as [HMlo HMhi].
  set (d := Z.pos (digits2_pos M)) in *.
  assert (Hdpos : 0 < d) by (unfold d; lia).
  cbn [Zdigits2] in Hm', He', Hexact. fold d in Hm', He', Hexact.
  unfold fexp, emin, f64_prec, f64_emax in Hm', He', Hexact.
  set (k := Z.max 0 (Z.max (d + E - 53) (3 - 1024 - 53) - E)) in *.
  assert (Hk : 0 <= k) by (unfold k; lia).
  assert (H2k : 0 < 2 ^ k) by (apply Z.pow_pos_nonneg; lia).
  assert (H2E : 0 < 2 ^ (- E)) by (apply Z.pow_pos_nonneg; lia).
  assert (HN0 : 0 < N) by nia.
  assert (HdE : d + E <= 53).
  { destruct (Z.le_gt_cases (d + E) 53) as [|Hgt]; [done|].
    assert (2 ^ (53 - E) <= 2 ^ (d - 1)) by (apply Z.pow_le_mono_r; lia).
    replace (53 - E) with (53 + - E) in * by lia. rewrite Z.pow_add_r in * by lia. nia. }
  assert (He'0 : -1074 <= e' <= 0) by (unfold k in *; lia).
  assert (H2e' : 0 < 2 ^ (- e')) by (apply Z.pow_pos_nonneg; lia).
  assert (Hsplit : 2 ^ (- E) = 2 ^ (- e') * 2 ^ k).
  { rewrite <- Z.pow_add_r by lia. f_equal. lia. }
  assert (Hm'0 : 0 <= shr_m mrs') by (rewrite Hm'; apply Z.div_pos; lia).
  assert (Hm'53 : shr_m mrs' < 2 ^ 53).
  { rewrite Hm'. apply Z.div_lt_upper_bound; [done|].
    rewrite <- Z.pow_add_r by lia.
    assert (2 ^ d <= 2 ^ (k + 53)) by (apply Z.pow_le_mono_r; unfold k; lia). lia. }
  assert (HrN : r <= N * 2 ^ (- e')).
  { destruct (Z.eq_dec (Z.pos M) (N * 2 ^ (- E))) as [Heq|Hne].
    - assert (Hmod : Z.pos M mod 2 ^ k = 0).
      { rewrite Heq, Hsplit, Z.mul_assoc. apply Z.mod_mul. lia. }
      unfold r. rewrite (Hexact Hmod). cbn [round_nearest_even].
      rewrite Hm', Heq, Hsplit, Z.mul_assoc, Z.div_mul by lia. lia.
    - assert (shr_m mrs' < N * 2 ^ (- e')).
      { rewrite Hm'. apply Z.div_lt_upper_bound; [done|]. rewrite Hsplit in HM, Hne. nia. }
      lia. }
  pose proof (shr_fexp_m r e' loc_Exact ltac:(lia)) as [Hm'' He''].
  destruct (shr_fexp f64_prec f64_emax r e' loc_Exact) as [mrs'' e''].
  cbn [fst] in Hm''. cbn [snd] in He''.
  unfold fexp, emin, f64_prec, f64_emax in Hm'', He''.
  destruct (Z.eq_dec r (2 ^ 53)) as [Hr53|Hr53].
  - rewrite Hr53 in Hm'', He'', HrN.
    change (Zdigits2 (2 ^ 53)) with 54 in Hm'', He''.
    replace (Z.max 0 (Z.max (54 + e' - 53) (3 - 1024 - 53) - e')) with 1 in Hm'', He'' by lia.
    change (2 ^ 53 / 2 ^ 1) with (2 ^ 52) in Hm''.
    rewrite Hm''. change (2 ^ 52) with (Z.pos 4503599627370496).
    cbv iota beta.
    assert (He'neg : e' < 0).
    { destruct (Z.eq_dec e' 0) as [->|]; [|lia]. simpl in HrN. lia. }
    destruct (Z.leb_spec e'' (f64_emax - f64_prec)) as [_|Hover];
      [|unfold f64_emax, f64_prec in Hover; lia].
    split; [lia|]. subst e''.
    replace (- e') with (1 + - (e' + 1)) in HrN by lia.
    rewrite Z.pow_add_r in HrN by lia.
    change (Z.pos 4503599627370496) with (2 ^ 52).
    change (2 ^ 53) with (2 * 2 ^ 52) in HrN. lia.
  - assert (Hdr : Zdigits2 r <= 53) by (apply Zdigits2_le; lia).
    replace (Z.max 0 (Z.max (Zdigits2 r + e' - 53) (3 - 1024 - 53) - e')) with 0 in Hm'', He'' by lia.
    rewrite Z.pow_0_r, Z.div_1_r in Hm''. rewrite Z.add_0_r in He''. subst e''.
    rewrite Hm''. destruct r as [|m|m]; [done| |lia].
    destruct (Z.leb_spec e' (f64_emax - f64_prec)) as [_|Hover];
      [|unfold f64_emax, f64_prec in Hover; lia].
    split; [lia|done].
Qed.

(** A float64 number in [[0, 1]] is a zero, or [m * 2^e] with [e <= 0] and
    [m <= 2^(-e)]. *)
Lemma unit_range_mantissa (x : float64) :
  valid_binary f64_prec f64_emax x = true ->
  f64_le f64_zero x = true ->
  f64_le x f64_one = true ->
  match x with
  | S754_zero _ => True
  | S754_finite s m e => s = false /\ e <= 0 /\ Z.pos m <= 2 ^ (- e)
  | _ => False
  end.
Proof.
  intros Hvalid H0 H1. destruct x as [s|s| |s m e].
  - exact I.
  - destruct s; discriminate.
  - discriminate.
  - destruct s; [discriminate|]. split; [reflexivity|].
    simpl in Hvalid. unfold bounded, canonical_mantissa, fexp, emin, f64_prec, f64_emax in Hvalid.
    apply andb_prop in Hvalid as [Hcanon _]. apply Z.eqb_eq in Hcanon.
    unfold f64_le, SFleb, f64_one in H1. cbn [SFcompare] in H1.
    pose proof (digits2_pos_bounds m) as [_ Hhi].
    destruct (Z.compare_spec e (-52)) as [He|He|He].
    + rewrite Pos.compare_cont_spec in H1. cbn [Pos.switch_Eq] in H1.
      subst e. split; [lia|]. change (2 ^ (- -52)) with (Z.pos 4503599627370496).
      destruct (Pos.compare_spec m 4503599627370496) as [Hm|Hlt|Hgt].
      * subst m. reflexivity.
      * apply Pos2Z.pos_lt_pos in Hlt. apply Z.lt_le_incl. exact Hlt.
      * discriminate.
    + split; [lia|].
      assert (Hd : Z.pos (digits2_pos m) <= 53) by lia.
      assert (2 ^ Z.pos (digits2_pos m) <= 2 ^ 53) by (apply Z.pow_le_mono_r; lia).
      assert (2 ^ 53 <= 2 ^ (- e)) by (apply Z.pow_le_mono_r; lia).
      apply Z.lt_le_incl. eapply Z.lt_le_trans; [exact Hhi|].
      eapply Z.le_trans; eassumption.
    + discriminate.
Qed.

(** The product of a float64 in [[0, 1]] and of [float64(n)],
    [0 <= n < 2^53], is not above [n]. *)
Lemma f64_mul_at_most (x : float64) (n : Z) :
  valid_binary f64_prec f64_emax x = true ->
  f64_le f64_zero x = true ->
  f64_le x f64_one = true ->
  0 <= n < 2 ^ 53 ->
  match f64_mul x (f64_of_int n) with
  | S754_zero _ => True
  | S754_finite _ m e => e <= 0 /\ Z.pos m <= n * 2 ^ (- e)
  | _ => False
  end.
Proof.
  intros Hvalid H0 H1 Hn.
  pose proof (unit_range_mantissa x Hvalid H0 H1) as Hx.
  destruct n as [|p|p]; [| |lia].
  { unfold f64_mul. destruct x as [sx|sx| |sx mx ex]; try contradiction; exact I. }
  assert (Hd : Z.pos (digits2_pos p) <= 53).
  { apply (Zdigits2_le (Z.pos p)); lia. }
  destruct (f64_of_int_pos false p Hd) as (my & ey & Hy & Hey & Hmy).
  unfold f64_mul, f64_of_int, binary_normalize. rewrite Hy.
  destruct x as [sx|sx| |sx mx ex]; try contradiction; [exact I|].
  destruct Hx as (-> & Hex & Hmx). cbn [SFmul].
  apply binary_round_aux_le; [lia|lia|].
  rewrite Pos2Z.inj_mul, Hmy. rewrite Z.opp_add_distr, Z.pow_add_r by lia.
  assert (0 < 2 ^ (- ey)) by (apply Z.pow_pos_nonneg; lia).
  nia.
Qed.

Lemma isCeiling_at_most (x : float64) (c n : Z) :
  0 <= n ->
  match x with
  | S754_zero _ => True
  | S754_finite s m e => s = false /\ e <= 0 /\ Z.pos m <= n * 2 ^ (- e)
  | _ => False
  end ->
  isCeiling x c -> c <= n.
Proof.
  intros Hn Hx Hceil. destruct x as [s|s| |s m e]; try contradiction.
  - simpl in Hceil. lia.
  - destruct Hx as (-> & He & Hm). simpl in Hceil.
    destruct (Z.leb_spec 0 e) as [He0|He0].
    + assert (e = 0) as -> by lia. simpl in *. lia.
    + assert (0 < 2 ^ (- e)) by (apply Z.pow_pos_nonneg; lia). nia.
Qed.

(** With [minSupport] in [[0, 1]] the threshold is never above the number
    of transactions (1 when there is none): the rounding of the float64
    product does not push it further.  So an item that is in every
    transaction, its frequency being at least [numTransactions >= 1],
    passes the filter of the second pass. *)
Theorem minCountOf_at_most_numTransactions (minSupport : float64) (numTransactions : Z)
    (frequency : itemCount) (i : Item) :
  valid_binary f64_prec f64_emax minSupport = true ->
  f64_le f64_zero minSupport = true ->
  f64_le minSupport f64_one = true ->
  0 <= numTransactions < 2 ^ 53 ->
  1 <= minCountOf minSupport numTransactions <= Z.max 1 numTransactions /\
  (1 <= numTransactions -> numTransactions <= itemCount_get frequency i ->
   isFrequent frequency (minCountOf minSupport numTransactions) i = true).
Proof.
  intros Hvalid H0 H1 Hn.
  set (product := f64_mul minSupport (f64_of_int numTransactions)).
  pose proof (f64_mul_magnitude minSupport numTransactions Hvalid H0 H1 Hn) as Hmag.
  pose proof (f64_mul_at_most minSupport numTransactions Hvalid H0 H1 Hn) as Hmost.
  fold product in Hmag, Hmost.
  destruct (isCeiling_exists product) as [c Hceil].
  { destruct product; try contradiction; exact I. }
  pose proof (isCeiling_range product c Hmag Hceil) as Hrange.
  assert (H63 : 2 ^ 54 < 2 ^ 63) by (apply Z.pow_lt_mono_r; lia).
  assert (Hmin : minCountOf minSupport numTransactions = Z.max 1 c).
  { unfold minCountOf. fold product.
    rewrite (int_of_Ceil product c), max_Zmax; [reflexivity| |exact Hceil|lia].
    destruct product; try exact I. apply Hmag. }
  assert (Hc : c <= numTransactions).
  { apply (isCeiling_at_most product); [lia| |exact Hceil].
    destruct product as [s|s| |s m e]; try contradiction; [exact I|].
    destruct Hmag as (-> & _). destruct Hmost as [He Hm]. done. }
  split; [lia|].
  intros Hpos Hfreq. unfold isFrequent. apply Z.leb_le. lia.
Qed.

Section no_frequent_item.
Variable cmp : Item -> Item -> bool.

(** ** An input without a frequent item *)

Lemma Itemizer_filter_none (itemizer : Itemizer) (tokens : list string)
    (pred : Item -> bool) :
  (forall i, pred i = false) -> Itemizer_filter itemizer tokens pred = [].
Proof.
  intros Hpred. unfold Itemizer_filter.
  induction tokens as [|token tokens IH]; [reflexivity|].
  cbn [omap list_omap]. destruct (strToItem itemizer !! token) as [i|]; [|exact IH].
  rewrite Hpred. exact IH.
Qed.

(** The second pass inserts nothing when no item passes the filter. *)
Lemma insertLine_none (itemizer : Itemizer) (frequency : itemCount) (minCount : Z)
    (lines : list string) (tree : fpTree) :
  (forall i, itemCount_get frequency i < minCount) ->
  fold_left (insertLine cmp itemizer frequency minCount) lines tree = tree.
Proof.
  intros Hlow. induction lines as [|line lines IH]; [reflexivity|].
  cbn [fold_left]. unfold insertLine at 2.
  rewrite Itemizer_filter_none; [exact IH|].
  intros i. unfold isFrequent. apply Z.leb_gt, Hlow.
Qed.

(** When no item of the file reaches the threshold (with MinSupport = 1,
    say, and no item in every line), the package mines the empty
    collection, and the stand-alone program panics: it has no run that
    returns. *)
Theorem no_item_reaches_the_threshold (input : string) (minSupport : float64)
    (w : world) (lines : list string) :
  files w !! input = Some {| f_lines := lines; f_err := None |} ->
  (forall i, itemCount_get (snd (fst (firstPass lines))) i
             < minCountOf minSupport (snd (firstPass lines))) ->
  fst (package_frequentItemsets cmp input minSupport w) = Ok [] /\
  main_frequentItemsets cmp input minSupport w Panics /\
  (forall o, main_frequentItemsets cmp input minSupport w o -> o = Panics).
Proof.
  intros Hfile Hlow.
  pose proof (fun o => main_frequentItemsets_mines cmp input minSupport w lines o Hfile)
    as Hmain. cbv zeta in Hmain.
  rewrite package_frequentItemsets_run, Hfile. cbn [f_err f_lines]. cbv zeta.
  rewrite insertLine_none in Hmain |- * by exact Hlow.
  assert (Hfreq : frequentItemsInTree newTree
                    (minCountOf minSupport (snd (firstPass lines))) = [])
    by (by apply frequentItemsInTree_empty).
  destruct (parallelFpGrowth_no_frequent_item cmp _ _ Hfreq) as (Hnil & Hpanics & Honly).
  split_and!.
  - by rewrite Hnil.
  - by apply Hmain.
  - intros o Ho. apply Honly. by apply Hmain.
Qed.

End no_frequent_item.

(** ** The further theorems at concrete inputs *)

(** The files after a run on the first scenario, with the two output
    files on devices without limit. *)
Lemma MineAssociationRules_writes_rules_and_itemsets_witness :
  Validate exampleBothFiles = None /\
  contents "rules.txt"
    (trace (snd (MineAssociationRules byId exampleBothFiles (inputAndOutput scenario1)))) []
  = renderRules (fst (fst (firstPass scenario1)))
      (generateRules
         (fpGrowth byId (scenario1_tree byId) []
            (minCountOf f64_half (snd (firstPass scenario1))))
         (snd (firstPass scenario1)) f64_half f64_zero).
Proof.
  assert (Hvalid : Validate exampleBothFiles = None) by reflexivity.
  assert (Hfile : files (inputAndOutput scenario1) !! Input exampleBothFiles
                  = Some {| f_lines := scenario1; f_err := None |})
    by apply lookup_singleton_eq.
  assert (Hdev : devices (inputAndOutput scenario1) !! Output exampleBothFiles = Some None)
    by (vm_compute; reflexivity).
  split; [exact Hvalid|].
  exact (proj1 (MineAssociationRules_writes_rules_and_itemsets byId exampleBothFiles
                  (inputAndOutput scenario1) scenario1 Hvalid Hfile) None Hdev).
Defined.

(** The accounting at the initial state of one worker and channels of
    capacity one, on the tree of the first scenario. *)
Lemma reachable_job_accounting_witness :
  reachable byId 2 1 1 1 (scenario1_tree byId) (initialSystem (scenario1_tree byId) [0] 1) /\
  outstandingJobs (initialSystem (scenario1_tree byId) [0] 1) = 0.
Proof.
  assert (Hreach : reachable byId 2 1 1 1 (scenario1_tree byId)
                     (initialSystem (scenario1_tree byId) [0] 1)).
  { exists [0]. split; [|apply rtc_refl].
    assert (Hitems : frequentItemsInTree (scenario1_tree byId) 2 = [0])
      by (vm_compute; reflexivity).
    rewrite Hitems. reflexivity. }
  split; [exact Hreach|].
  exact (proj1 (reachable_job_accounting byId 2 1 1 1 (scenario1_tree byId) _ Hreach)).
Defined.

(** The threshold at minSupport = 0.5 and four transactions. *)
Lemma minCountOf_at_most_numTransactions_witness :
  f64_le f64_zero f64_half = true /\ f64_le f64_half f64_one = true /\
  1 <= minCountOf f64_half 4 <= Z.max 1 4.
Proof.
  assert (Hvalid : valid_binary f64_prec f64_emax f64_half = true)
    by (vm_compute; reflexivity).
  assert (H0 : f64_le f64_zero f64_half = true) by (vm_compute; reflexivity).
  assert (H1 : f64_le f64_half f64_one = true) by (vm_compute; reflexivity).
  assert (Hn : 0 <= 4 < 2 ^ 53) by (vm_compute; split; [discriminate|reflexivity]).
  split; [exact H0|]. split; [exact H1|].
  exact (proj1 (minCountOf_at_most_numTransactions f64_half 4 makeCounts 0 Hvalid H0 H1 Hn)).
Defined.

(** A file of the two lines a and b, mined with MinSupport = 1: the
    threshold is 2 and each item occurs once. *)
Lemma no_item_reaches_the_threshold_witness :
  minCountOf f64_one (snd (firstPass ["a"; "b"])) = 2 /\
  fst (package_frequentItemsets byId "transactions.csv" f64_one (inputOnly ["a"; "b"]))
  = Ok [].
Proof.
  assert (Hfrequency : snd (fst (firstPass ["a"; "b"])) = <[1 := 1]> (<[0 := 1]> ∅))
    by (vm_compute; reflexivity).
  assert (HminCount : minCountOf f64_one (snd (firstPass ["a"; "b"])) = 2)
    by (vm_compute; reflexivity).
  assert (Hfile : files (inputOnly ["a"; "b"]) !! "transactions.csv"
                  = Some {| f_lines := ["a"; "b"]; f_err := None |})
    by apply lookup_singleton_eq.
  assert (Hlow : forall i, itemCount_get (snd (fst (firstPass ["a"; "b"]))) i
                           < minCountOf f64_one (snd (firstPass ["a"; "b"]))).
  { intros i. rewrite Hfrequency, HminCount. unfold itemCount_get.
    destruct (decide (i = 1)) as [->|Hne1]; [by rewrite lookup_insert_eq|].
    rewrite lookup_insert_ne by done.
    destruct (decide (i = 0)) as [->|Hne0]; [by rewrite lookup_insert_eq|].
    rewrite lookup_insert_ne by done. by rewrite lookup_empty. }
  split; [exact HminCount|].
  exact (proj1 (no_item_reaches_the_threshold byId "transactions.csv" f64_one
                  (inputOnly ["a"; "b"]) ["a"; "b"] Hfile Hlow)).
Defined.

(** The parallel miner on the tree of the first scenario. *)
Lemma parallelFpGrowth_agrees_with_fpGrowth_witness :
  frequentItemsInTree (scenario1_tree byId) 2 <> [] /\
  exists itemsets, parallelFpGrowth byId (scenario1_tree byId) 2 (Returns itemsets).
Proof.
  assert (Hfreq : frequentItemsInTree (scenario1_tree byId) 2 <> [])
    by (vm_compute; discriminate).
  split; [exact Hfreq|].
  exact (proj2 (proj2 (proj2
    (parallelFpGrowth_agrees_with_fpGrowth byId (scenario1_tree byId) 2 Hfreq)))).
Defined.

(** * Validation of thresholds that are numbers *)

Section validation.
Variable cmp : Item -> Item -> bool.

(** For a number, the two comparisons of [Validate] fail exactly outside
    [[0, 1]]. *)
Lemma outOfUnitRange_number (x : float64) :
  f64_is_nan x = false -> outOfUnitRange x = negb (inUnitRange x).
Proof.
  intros Hnan. pose proof (outOfUnitRange_false x) as Hrange. unfold inUnitRange.
  destruct (outOfUnitRange x).
  - destruct (f64_le f64_zero x) eqn:H0, (f64_le x f64_one) eqn:H1; try reflexivity.
    destruct Hrange as [_ Hrange]. discriminate Hrange. by right.
  - destruct Hrange as [Hrange _]. destruct (Hrange eq_refl) as [Hx|[-> ->]]; [|reflexivity].
    congruence.
Qed.

Lemma liftOutOfRange_number (x : float64) :
  f64_is_nan x = false ->
  liftOutOfRange x = false <-> f64_eq x f64_zero = true \/ f64_le f64_one x = true.
Proof.
  intros Hnan. rewrite liftOutOfRange_false. split; [|tauto].
  intros [Hx|H]; [congruence|exact H].
Qed.

(** C7, as amended: for thresholds that are numbers.  [Validate] returns
    the error of the first check that fails, in the order MinSupport,
    MinConfidence, MinLift: [ErrMinSupportOutOfRange] exactly when
    MinSupport is outside [[0, 1]]; [ErrMinConfidenceOutOfRange] exactly
    when MinSupport is in [[0, 1]] and MinConfidence is outside;
    [ErrMinLiftOutOfRange] exactly when both are in [[0, 1]] and MinLift
    is not zero and is below 1; and [nil] exactly when both are in
    [[0, 1]] and MinLift is zero or at least 1.  MinLift = 0 passes the
    lift check and MinLift = 0.5 fails it.  Whatever error [Validate]
    returns, [MineAssociationRules] returns it with no file opened,
    created or written. *)
Theorem Validate_first_failing_check (args : Arguments) (w : world) :
  f64_is_nan (MinSupport args) = false ->
  f64_is_nan (MinConfidence args) = false ->
  f64_is_nan (MinLift args) = false ->
  (Validate args = Some ErrMinSupportOutOfRange <->
     inUnitRange (MinSupport args) = false) /\
  (Validate args = Some ErrMinConfidenceOutOfRange <->
     inUnitRange (MinSupport args) = true /\
     inUnitRange (MinConfidence args) = false) /\
  (Validate args = Some ErrMinLiftOutOfRange <->
     inUnitRange (MinSupport args) = true /\
     inUnitRange (MinConfidence args) = true /\
     f64_eq (MinLift args) f64_zero = false /\ f64_lt (MinLift args) f64_one = true) /\
  (Validate args = None <->
     inUnitRange (MinSupport args) = true /\
     inUnitRange (MinConfidence args) = true /\
     (f64_eq (MinLift args) f64_zero = true \/ f64_le f64_one (MinLift args) = true)) /\
  liftOutOfRange f64_zero = false /\
  liftOutOfRange f64_half = true /\
  (forall err, Validate args = Some err ->
     MineAssociationRules cmp args w = (Err err, w) /\
     trace (snd (MineAssociationRules cmp args w)) = trace w).
Proof.
  intros Hsupport Hconfidence Hlift.
  assert (Hio : forall err, Validate args = Some err ->
            MineAssociationRules cmp args w = (Err err, w) /\
            trace (snd (MineAssociationRules cmp args w)) = trace w).
  { intros err Herr. rewrite (MineAssociationRules_invalid cmp args err w Herr). auto. }
  assert (Hzero : liftOutOfRange f64_zero = false) by reflexivity.
  assert (Hhalf : liftOutOfRange f64_half = true) by reflexivity.
  pose proof (liftOutOfRange_number (MinLift args) Hlift) as Hnone.
  revert Hio Hnone. rewrite Validate_cases.
  rewrite (outOfUnitRange_number _ Hsupport), (outOfUnitRange_number _ Hconfidence).
  generalize (liftOutOfRange f64_zero) (liftOutOfRange f64_half) Hzero Hhalf.
  intros ? ? -> ->. unfold liftOutOfRange.
  destruct (inUnitRange (MinSupport args)), (inUnitRange (MinConfidence args)),
           (f64_eq (MinLift args) f64_zero), (f64_lt (MinLift args) f64_one);
    cbn [negb andb]; intros Hio Hnone;
    split_and!; try exact Hio; try reflexivity; split; intros; destruct_and?;
    try discriminate; try tauto; auto.
  all: destruct Hnone as [Hnone1 Hnone2];
    first [apply Hnone1; reflexivity | intuition discriminate].
Qed.

End validation.

(** C7 at thresholds in range: MinSupport = MinConfidence = 0.5 and
    MinLift = 0. *)
Lemma Validate_first_failing_check_witness :
  f64_is_nan (MinSupport validArguments) = false /\
  inUnitRange (MinSupport validArguments) = true /\
  Validate validArguments = None.
Proof.
  assert (Hsupport : f64_is_nan (MinSupport validArguments) = false) by reflexivity.
  assert (Hconfidence : f64_is_nan (MinConfidence validArguments) = false) by reflexivity.
  assert (Hlift : f64_is_nan (MinLift validArguments) = false) by reflexivity.
  assert (Hrange : inUnitRange (MinSupport validArguments) = true) by reflexivity.
  split_and!; [exact Hsupport|exact Hrange|].
  apply (proj1 (proj2 (proj2 (proj2
           (Validate_first_failing_check byId validArguments noFiles
              Hsupport Hconfidence Hlift))))).
  split_and!; [reflexivity|reflexivity|left; reflexivity].
Defined.

(** * The threshold and the exact product *)

(** Rounding does not go below an integer that is below the exact value:
    for a positive mantissa [M] at an exponent [E <= 0] with
    [1 <= K <= M * 2^E <= N < 2^53], the result is a float [m * 2^e] with
    [e <= 0] and [K <= m * 2^e]. *)
Lemma binary_round_aux_ge (s : bool) (M : positive) (E K N : Z) :
  E <= 0 -> N < 2 ^ 53 -> 0 < K ->
  K * 2 ^ (- E) <= Z.pos M -> Z.pos M <= N * 2 ^ (- E) ->
  match binary_round_aux f64_prec f64_emax s (Z.pos M) E loc_Exact with
  | S754_finite _ m e => e <= 0 /\ K * 2 ^ (- e) <= Z.pos m
  | _ => False
  end.
Proof.
  intros HE HN HK HKM HM. unfold binary_round_aux.
  pose proof (shr_fexp_m (Z.pos M) E loc_Exact ltac:(lia)) as [Hm' He'].
  pose proof (shr_fexp_exact (Z.pos M) E ltac:(lia)) as Hexact.
  destruct (shr_fexp f64_prec f64_emax (Z.pos M) E loc_Exact) as [mrs' e'].
  cbn [fst] in Hm', Hexact. cbn [snd] in He'.
  set (r := round_nearest_even (shr_m mrs') (loc_of_shr_record mrs')).
  pose proof (round_nearest_even_bounds (shr_m mrs') (loc_of_shr_record mrs')) as Hr.
  fold r in Hr.
  pose proof (digits2_pos_bounds M) as [HMlo HMhi].
  set (d := Z.pos (digits2_pos M)) in *.
  assert (Hdpos : 0 < d) by (unfold d; lia).
  cbn [Zdigits2] in Hm', He', Hexact. fold d in Hm', He', Hexact.
  unfold fexp, emin, f64_prec, f64_emax in Hm', He', Hexact.
  set (k := Z.max 0 (Z.max (d + E - 53) (3 - 1024 - 53) - E)) in *.
  assert (Hk : 0 <= k) by (unfold k; lia).
  assert (H2k : 0 < 2 ^ k) by (apply Z.pow_pos_nonneg; lia).
  assert (H2E : 0 < 2 ^ (- E)) by (apply Z.pow_pos_nonneg; lia).
  assert (HdE : d + E <= 53).
  { destruct (Z.le_gt_cases (d + E) 53) as [|Hgt]; [done|].
    assert (2 ^ (53 - E) <= 2 ^ (d - 1)) by (apply Z.pow_le_mono_r; lia).
    replace (53 - E) with (53 + - E) in * by lia. rewrite Z.pow_add_r in * by lia. nia. }
  assert (He'0 : -1074 <= e' <= 0) by (unfold k in *; lia).
  assert (H2e' : 0 < 2 ^ (- e')) by (apply Z.pow_pos_nonneg; lia).
  assert (Hsplit : 2 ^ (- E) = 2 ^ (- e') * 2 ^ k).
  { rewrite <- Z.pow_add_r by lia. f_equal. lia. }
  assert (Hm'53 : shr_m mrs' < 2 ^ 53).
  { rewrite Hm'. apply Z.div_lt_upper_bound; [done|].
    rewrite <- Z.pow_add_r by lia.
    assert (2 ^ d <= 2 ^ (k + 53)) by (apply Z.pow_le_mono_r; unfold k; lia). lia. }
  assert (HKr : K * 2 ^ (- e') <= r).
  { assert (K * 2 ^ (- e') <= shr_m mrs'); [|lia].
    rewrite Hm'. apply Z.div_le_lower_bound; [done|].
    rewrite Hsplit in HKM. lia. }
  assert (Hrpos : 0 < r) by nia.
  assert (HrN : r <= N * 2 ^ (- e')).
  { destruct (Z.eq_dec (Z.pos M) (N * 2 ^ (- E))) as [Heq|Hne].
    - assert (Hmod : Z.pos M mod 2 ^ k = 0).
      { rewrite Heq, Hsplit, Z.mul_assoc. apply Z.mod_mul. lia. }
      unfold r. rewrite (Hexact Hmod). cbn [round_nearest_even].
      rewrite Hm', Heq, Hsplit, Z.mul_assoc, Z.div_mul by lia. lia.
    - assert (shr_m mrs' < N * 2 ^ (- e')).
      { rewrite Hm'. apply Z.div_lt_upper_bound; [done|]. rewrite Hsplit in HM, Hne. nia. }
      lia. }
  pose proof (shr_fexp_m r e' loc_Exact ltac:(lia)) as [Hm'' He''].
  destruct (shr_fexp f64_prec f64_emax r e' loc_Exact) as [mrs'' e''].
  cbn [fst] in Hm''. cbn [snd] in He''.
  unfold fexp, emin, f64_prec, f64_emax in Hm'', He''.
  destruct (Z.eq_dec r (2 ^ 53)) as [Hr53|Hr53].
  - rewrite Hr53 in Hm'', He'', HKr.
    change (Zdigits2 (2 ^ 53)) with 54 in Hm'', He''.
    replace (Z.max 0 (Z.max (54 + e' - 53) (3 - 1024 - 53) - e')) with 1 in Hm'', He'' by lia.
    change (2 ^ 53 / 2 ^ 1) with (2 ^ 52) in Hm''.
    rewrite Hm''. change (2 ^ 52) with (Z.pos 4503599627370496).
    cbv iota beta.
    assert (He'neg : e' < 0).
    { destruct (Z.eq_dec e' 0) as [->|]; [|lia]. simpl in HrN. lia. }
    destruct (Z.leb_spec e'' (f64_emax - f64_prec)) as [_|Hover];
      [|unfold f64_emax, f64_prec in Hover; lia].
    split; [lia|]. subst e''.
    replace (- e') with (1 + - (e' + 1)) in HKr by lia.
    rewrite Z.pow_add_r in HKr by lia.
    change (Z.pos 4503599627370496) with (2 ^ 52).
    change (2 ^ 53) with (2 * 2 ^ 52) in HKr. lia.
  - assert (Hdr : Zdigits2 r <= 53) by (apply Zdigits2_le; lia).
    replace (Z.max 0 (Z.max (Zdigits2 r + e' - 53) (3 - 1024 - 53) - e')) with 0 in Hm'', He'' by lia.
    rewrite Z.pow_0_r, Z.div_1_r in Hm''. rewrite Z.add_0_r in He''. subst e''.
    rewrite Hm''. destruct r as [|m|m]; [lia| |lia].
    destruct (Z.leb_spec e' (f64_emax - f64_prec)) as [_|Hover];
      [|unfold f64_emax, f64_prec in Hover; lia].
    split; [lia|done].
Qed.

(** The float64 product of a threshold in [[0, 1]] and of [float64(n)],
    [0 <= n < 2^53], against the exact product: the ceiling [c] of the
    first is the ceiling [K] of the second or one below it, and it is the
    exact product when that is an integer. *)
Lemma f64_mul_near_product (x : float64) (n K : Z) :
  valid_binary f64_prec f64_emax x = true ->
  f64_le f64_zero x = true ->
  f64_le x f64_one = true ->
  0 <= n < 2 ^ 53 ->
  isCeilingOfProduct x n K ->
  0 <= K <= n /\
  forall c, isCeiling (f64_mul x (f64_of_int n)) c ->
    K - 1 <= c <= K /\ (forall z, isProduct x n z -> c = z).
Proof.
  intros Hvalid H0 H1 Hn HK.
  pose proof (unit_range_mantissa x Hvalid H0 H1) as Hx.
  pose proof (f64_mul_magnitude x n Hvalid H0 H1 Hn) as Hmag.
  destruct x as [sx|sx| |sx mx ex]; try contradiction.
  - simpl in HK. subst K. split; [lia|]. intros c Hc.
    assert (Hzero : c = 0).
    { destruct n as [|p|p]; [exact Hc| |lia].
      assert (Hd : Z.pos (digits2_pos p) <= 53) by (apply (Zdigits2_le (Z.pos p)); lia).
      destruct (f64_of_int_pos false p Hd) as (my & ey & Hy & _).
      unfold f64_mul, f64_of_int, binary_normalize in Hc. rewrite Hy in Hc. exact Hc. }
    split; [lia|]. intros z Hz. simpl in Hz. lia.
  - destruct Hx as (-> & Hex & Hmx).
    assert (HP : 0 < 2 ^ (- ex)) by (apply Z.pow_pos_nonneg; lia).
    assert (HK' : (K - 1) * 2 ^ (- ex) < Z.pos mx * n <= K * 2 ^ (- ex)).
    { unfold isCeilingOfProduct in HK. cbn [signed_mantissa] in HK.
      destruct (Z.leb_spec 0 ex) as [He0|He0]; [|exact HK].
      assert (ex = 0) as -> by lia. change (2 ^ (- 0)) with 1. change (2 ^ 0) with 1 in HK. lia. }
    assert (Hexact : forall z, isProduct (S754_finite false mx ex) n z ->
                               Z.pos mx * n = z * 2 ^ (- ex)).
    { intros z Hz. unfold isProduct in Hz. cbn [signed_mantissa] in Hz.
      destruct (Z.leb_spec 0 ex) as [He0|He0]; [|exact Hz].
      assert (ex = 0) as -> by lia. change (2 ^ (- 0)) with 1. change (2 ^ 0) with 1 in Hz. lia. }
    clear HK.
    assert (HPdef : exists P, P = 2 ^ (- ex)) by (by eexists).
    destruct HPdef as [P HPdef]. rewrite <- HPdef in HP, Hmx, HK', Hexact.
    assert (HKn : 0 <= K <= n) by nia.
    split; [exact HKn|]. intros c Hc.
    destruct n as [|p|p]; [| |lia].
    + assert (c = 0) as -> by exact Hc.
      assert (K = 0) by nia. split; [lia|].
      intros z Hz. apply Hexact in Hz. nia.
    + assert (Hd : Z.pos (digits2_pos p) <= 53) by (apply (Zdigits2_le (Z.pos p)); lia).
      destruct (f64_of_int_pos false p Hd) as (my & ey & Hy & Hey & Hmy).
      unfold f64_mul, f64_of_int, binary_normalize in Hc, Hmag.
      rewrite Hy in Hc, Hmag. cbn [SFmul xorb] in Hc, Hmag.
      assert (HPy : 0 < 2 ^ (- ey)) by (apply Z.pow_pos_nonneg; lia).
      assert (HE : 2 ^ (- (ex + ey)) = P * 2 ^ (- ey)).
      { rewrite HPdef, Z.opp_add_distr, Z.pow_add_r by lia. reflexivity. }
      assert (HM : Z.pos (mx * my) = Z.pos mx * Z.pos p * 2 ^ (- ey)).
      { rewrite Pos2Z.inj_mul, Hmy. lia. }
      assert (HK1 : 1 <= K) by nia.
      assert (HleM : Z.pos (mx * my) <= K * 2 ^ (- (ex + ey))) by (rewrite HE, HM; nia).
      pose proof (binary_round_aux_le false (mx * my) (ex + ey) K
                    ltac:(lia) ltac:(lia) HleM) as Hle.
      assert (Hlow : forall K', 0 < K' -> K' * P <= Z.pos mx * Z.pos p ->
                match binary_round_aux f64_prec f64_emax false (Z.pos (mx * my))
                        (ex + ey) loc_Exact with
                | S754_finite _ m e => e <= 0 /\ K' * 2 ^ (- e) <= Z.pos m
                | _ => False
                end).
      { intros K' HK'0 HK'le. apply binary_round_aux_ge with K; [lia|lia|lia| |].
        - rewrite HE, HM. nia.
        - rewrite HE, HM. nia. }
      destruct (binary_round_aux f64_prec f64_emax false (Z.pos (mx * my)) (ex + ey) loc_Exact)
        as [s|s| |s m e]; try contradiction.
      * assert (c = 0) as -> by exact Hc.
        assert (K = 1).
        { destruct (Z.eq_dec K 1) as [|Hne]; [done|]. exfalso. apply (Hlow (K - 1)); [lia|nia]. }
        split; [lia|]. intros z Hz. apply Hexact in Hz.
        exfalso. apply (Hlow z); nia.
      * destruct Hmag as (-> & _). destruct Hle as [He Hm].
        assert (HPe : 0 < 2 ^ (- e)) by (apply Z.pow_pos_nonneg; lia).
        assert (Hc' : (c - 1) * 2 ^ (- e) < Z.pos m <= c * 2 ^ (- e)).
        { unfold isCeiling in Hc. cbn [signed_mantissa] in Hc.
          destruct (Z.leb_spec 0 e) as [He0|He0]; [|exact Hc].
          assert (e = 0) as -> by lia. change (2 ^ (- 0)) with 1. change (2 ^ 0) with 1 in Hc. lia. }
        clear Hc. revert HPe Hm Hc' Hlow. generalize (2 ^ (- e)) as Q.
        intros Q HQ Hm Hc' Hlow.
        assert (Hupper : c <= K) by nia.
        assert (Hlower : K - 1 <= c).
        { destruct (Z.eq_dec K 1) as [->|Hne]; [nia|].
          pose proof (Hlow (K - 1) ltac:(lia) ltac:(nia)) as [_ Hge]. nia. }
        split; [lia|]. intros z Hz. apply Hexact in Hz.
        assert (z = K) as -> by nia.
        pose proof (Hlow K ltac:(lia) ltac:(lia)) as [_ Hge]. nia.
Qed.

(** The exact product of a float64 number and an integer has a ceiling. *)
Lemma isCeilingOfProduct_exists (x : float64) (n : Z) :
  match x with S754_zero _ | S754_finite _ _ _ => True | _ => False end ->
  exists K, isCeilingOfProduct x n K.
Proof.
  destruct x as [s|s| |s m e]; try contradiction; intros _.
  - by exists 0.
  - simpl. destruct (Z.leb_spec 0 e) as [He|He]; [by eexists|].
    exists (- (- (signed_mantissa s m * n) / 2 ^ (- e))).
    assert (HP : 0 < 2 ^ (- e)) by (apply Z.pow_pos_nonneg; lia).
    pose proof (Z.div_mod (- (signed_mantissa s m * n)) (2 ^ (- e)) ltac:(lia)) as Hdiv.
    pose proof (Z.mod_pos_bound (- (signed_mantissa s m * n)) (2 ^ (- e)) HP) as Hmod.
    nia.
Qed.

(** C6, as amended.  For every float64 [minSupport] in [[0, 1]] and every
    [numTransactions] from 0 up to [2^53] (where [float64(numTransactions)]
    is exact), [minCount] is [max(1, c)] for the ceiling [c] of the float64
    product, which is the exact product [minSupport * numTransactions]
    rounded to the nearest float64.  With [K] the ceiling of the exact
    product, [c] is [K] or [K - 1], and [0 <= K <= numTransactions]; when
    the exact product is an integer [z], [minCount] is [max(1, z)].
    [minCount] is never below 1, and the filter of the second pass keeps an
    item of the line exactly when its frequency is at least [minCount]. *)
Theorem minCountOf_ceiling_of_rounded_product (minSupport : float64) (numTransactions : Z)
    (itemizer : Itemizer) (frequency : itemCount) (tokens : list string) :
  let product := f64_mul minSupport (f64_of_int numTransactions) in
  let minCount := minCountOf minSupport numTransactions in
  valid_binary f64_prec f64_emax minSupport = true ->
  f64_le f64_zero minSupport = true ->
  f64_le minSupport f64_one = true ->
  0 <= numTransactions < 2 ^ 53 ->
  (exists c K, isCeiling product c /\
               isCeilingOfProduct minSupport numTransactions K /\
               minCount = Z.max 1 c /\
               K - 1 <= c <= K /\
               0 <= K <= numTransactions) /\
  (forall z, isProduct minSupport numTransactions z -> minCount = Z.max 1 z) /\
  1 <= minCount /\
  (forall i, isFrequent frequency minCount i = true <->
             minCount <= itemCount_get frequency i) /\
  (forall i, i ∈ Itemizer_filter itemizer tokens (isFrequent frequency minCount) <->
             i ∈ omap (fun token => strToItem itemizer !! token) tokens /\
             minCount <= itemCount_get frequency i).
Proof.
  intros product minCount Hvalid H0 H1 Hn.
  pose proof (f64_mul_magnitude minSupport numTransactions Hvalid H0 H1 Hn) as Hmag.
  fold product in Hmag.
  destruct (isCeiling_exists product) as [c Hceil].
  { destruct product; try contradiction; exact I. }
  destruct (isCeilingOfProduct_exists minSupport numTransactions) as [K HK].
  { pose proof (unit_range_mantissa minSupport Hvalid H0 H1) as Hx.
    destruct minSupport; try contradiction; exact I. }
  pose proof (isCeiling_range product c Hmag Hceil) as Hrange.
  assert (H63 : 2 ^ 54 < 2 ^ 63) by (apply Z.pow_lt_mono_r; lia).
  assert (Hmin : minCount = Z.max 1 c).
  { unfold minCount, minCountOf. fold product.
    rewrite (int_of_Ceil product c), max_Zmax; [reflexivity| |exact Hceil|lia].
    destruct product; try exact I. apply Hmag. }
  destruct (f64_mul_near_product minSupport numTransactions K Hvalid H0 H1 Hn HK)
    as [HKn Hnear].
  destruct (Hnear c Hceil) as [Hband Hexact].
  split_and!.
  - exists c, K. split_and!; [exact Hceil|exact HK|exact Hmin|lia|lia|lia|lia].
  - intros z Hz. rewrite Hmin. f_equal. by apply Hexact.
  - lia.
  - intros i. unfold isFrequent. apply Z.leb_le.
  - intros i. rewrite elem_of_Itemizer_filter. unfold isFrequent. by rewrite Z.leb_le.
Qed.

(** C6: the threshold is not the ceiling of the exact product.  At
    [minSupport = 0.1] and 30 transactions the exact product of the
    float64 [0.1] and 30 lies strictly between 3 and 4, so that its ceiling
    is 4, while the float64 product is 3 and [minCount] is 3.  Beyond
    [2^53] the conversion of [numTransactions] rounds as well: at
    [minSupport = 1] and [2^53 + 1] transactions [minCount] is [2^53]. *)
Lemma minCountOf_below_exact_ceiling :
  valid_binary f64_prec f64_emax f64_tenth = true /\
  f64_le f64_zero f64_tenth = true /\
  f64_le f64_tenth f64_one = true /\
  isCeilingOfProduct f64_tenth 30 4 /\
  ~ isProduct f64_tenth 30 4 /\
  minCountOf f64_tenth 30 = 3 /\
  minCountOf f64_tenth 30 <> Z.max 1 4 /\
  isCeilingOfProduct f64_one (2 ^ 53 + 1) (2 ^ 53 + 1) /\
  minCountOf f64_one (2 ^ 53 + 1) = 2 ^ 53 /\
  minCountOf f64_one (2 ^ 53 + 1) <> Z.max 1 (2 ^ 53 + 1).
Proof.
  assert (Hmin : minCountOf f64_tenth 30 = 3) by (vm_compute; reflexivity).
  assert (Hbig : minCountOf f64_one (2 ^ 53 + 1) = 2 ^ 53) by (vm_compute; reflexivity).
  split_and!.
  - vm_compute; reflexivity.
  - vm_compute; reflexivity.
  - vm_compute; reflexivity.
  - vm_compute. split; [reflexivity|discriminate].
  - vm_compute. discriminate.
  - exact Hmin.
  - rewrite Hmin. vm_compute. discriminate.
  - vm_compute. split; [reflexivity|discriminate].
  - exact Hbig.
  - rewrite Hbig. vm_compute. discriminate.
Qed.

(** C6 at minSupport = 0.5 and four transactions. *)
Lemma minCountOf_ceiling_of_rounded_product_witness :
  f64_le f64_zero f64_half = true /\ f64_le f64_half f64_one = true /\
  exists c K, isCeiling (f64_mul f64_half (f64_of_int 4)) c /\
              isCeilingOfProduct f64_half 4 K /\
              minCountOf f64_half 4 = Z.max 1 c /\
              K - 1 <= c <= K /\
              0 <= K <= 4.
Proof.
  assert (Hvalid : valid_binary f64_prec f64_emax f64_half = true)
    by (vm_compute; reflexivity).
  assert (H0 : f64_le f64_zero f64_half = true) by (vm_compute; reflexivity).
  assert (H1 : f64_le f64_half f64_one = true) by (vm_compute; reflexivity).
  assert (Hn : 0 <= 4 < 2 ^ 53) by (vm_compute; split; [discriminate|reflexivity]).
  split_and!; [exact H0|exact H1|].
  exact (proj1 (minCountOf_ceiling_of_rounded_product f64_half 4 newItemizer makeCounts []
                  Hvalid H0 H1 Hn)).
Defined.
